(** * On-call rotation schedule: base rotation, overrides, window truncation

    A shallow embedding of [src/index.js] (the functions [dateIso],
    [generateBaseSchedule], [applyOverrides], [truncateAndFilterSchedule]
    and [makeSchedule]) together with the properties of the schedule
    pipeline.  The second copy of these functions in the repository differs
    in the names of its variables only.

    Modelling conventions.
    - A JavaScript [Date] is the instant it holds, a number of milliseconds
      since the epoch, here an integer of [Z]: a valid [Date], computed
      without rounding.  The source computes with double-precision numbers
      and makes an invalid [Date] from a time value beyond 8.64e15 ms;
      [exact_range] and [valid_date] are the bounds within which the
      integers are what the source computes, and the properties that need
      them have them as hypotheses.  Module [Dated] has the generator and
      the override applier with [Date]s that may be invalid.
    - [new Date(s)] applied to a timestamp of the configuration or of an
      override is the instant it denotes, so a configuration and an override
      carry instants.
    - [handover_interval_days] is a whole number of days.
    - A user is a string; [undefined] (what an array read out of range gives)
      is [None].
    - A JavaScript number that may be [NaN] is an [option Z], [None] being
      [NaN].
    - A call returns a value or throws; the [while] loop of the generator
      runs on fuel, and [generateBaseSchedule_total] shows that it always
      ends. *)

From Stdlib Require Import ZArith List Bool Lia Ascii String.
From Stdlib Require Import Sorting.Sorted Sorting.Permutation.
Import ListNotations.

Local Open Scope Z_scope.

(** ** Data model *)

(** [ScheduleConfig] of the source. *)
Record ScheduleConfig : Type := mkConfig {
  users : list string;
  handover_start_at : Z;
  handover_interval_days : Z
}.

(** [WorkingScheduleElement] of the source; a parsed override has the same
    shape. *)
Record WorkingScheduleElement : Type := mkShift {
  user : option string;
  start_at : Z;
  end_at : Z
}.

(** [ScheduleElement] of the source: the output form, with formatted
    timestamps. *)
Record ScheduleElement : Type := mkOut {
  out_user : option string;
  out_start_at : string;
  out_end_at : string
}.

(** What a call does: it returns a value or throws an [Error]. *)
Inductive outcome (A : Type) : Type :=
| Returned (a : A)
| Thrown (msg : string).
Arguments Returned {A} a.
Arguments Thrown {A} msg.

(** ** JavaScript numbers that may be NaN *)

Module JsNum.

(** [a % b]: the remainder has the sign of the dividend; [NaN] for a zero
    divisor. *)
Definition rem (a : option Z) (b : Z) : option Z :=
  match a with
  | Some x => if b =? 0 then None else Some (Z.rem x b)
  | None => None
  end.

(** [a + b]. *)
Definition add (a : option Z) (b : Z) : option Z :=
  match a with
  | Some x => Some (x + b)
  | None => None
  end.

(** [arr[i]]: [undefined] when [i] is not an index of the array. *)
Definition index {A : Type} (arr : list A) (i : option Z) : option A :=
  match i with
  | Some k => if k <? 0 then None else nth_error arr (Z.to_nat k)
  | None => None
  end.

End JsNum.

(** ** Base schedule generator *)

(** The [while] loop of [generateBaseSchedule].  [fuel] bounds the number of
    iterations; [None] is a loop that has not ended within it. *)
Fixpoint baseLoop (fuel : nat) (users : list string) (num_users interval_ms until : Z)
    (current_shift_start_ms : Z) (current_user_index : option Z)
    : option (list WorkingScheduleElement) :=
  if current_shift_start_ms <? until then
    match fuel with
    | O => None
    | S fuel' =>
        let current_shift_end_ms := current_shift_start_ms + interval_ms in
        match baseLoop fuel' users num_users interval_ms until
                current_shift_end_ms
                (JsNum.rem (JsNum.add current_user_index 1) num_users) with
        | Some rest =>
            Some (mkShift (JsNum.index users current_user_index)
                    current_shift_start_ms current_shift_end_ms :: rest)
        | None => None
        end
    end
  else Some [].

Definition ms_per_day : Z := 24 * 60 * 60 * 1000.

Definition interval_ms_of (config : ScheduleConfig) : Z :=
  handover_interval_days config * ms_per_day.

(** [Math.floor(elapsed_ms / interval_ms)], for a positive divisor. *)
Definition intervals_passed_of (config : ScheduleConfig) (from : Z) : Z :=
  (from - handover_start_at config) / interval_ms_of config.

Definition first_shift_start (config : ScheduleConfig) (from : Z) : Z :=
  handover_start_at config + intervals_passed_of config from * interval_ms_of config.

(** [((intervals_passed % num_users) + num_users) % num_users]. *)
Definition normalized_index (intervals_passed num_users : Z) : option Z :=
  JsNum.rem (JsNum.add (JsNum.rem (Some intervals_passed) num_users) num_users) num_users.

(** Iterations after which the loop has ended, for a positive interval. *)
Definition baseFuel (interval_ms until start : Z) : nat :=
  Z.to_nat ((until - start) / interval_ms + 1).

(** [generateBaseSchedule] with an explicit bound on the loop. *)
Definition generateBaseSchedule_fuel (fuel : nat) (config : ScheduleConfig) (from until : Z)
    : option (outcome (list WorkingScheduleElement)) :=
  let num_users := Z.of_nat (List.length (users config)) in
  let handover_start_ms := handover_start_at config in
  let interval_ms := handover_interval_days config * ms_per_day in
  if interval_ms <=? 0 then
    Some (Thrown "handover_interval_days must be greater than 0")
  else
    let elapsed_ms := from - handover_start_ms in
    let intervals_passed := elapsed_ms / interval_ms in
    let current_shift_start_ms := handover_start_ms + intervals_passed * interval_ms in
    let current_user_index := normalized_index intervals_passed num_users in
    match baseLoop fuel (users config) num_users interval_ms until
            current_shift_start_ms current_user_index with
    | Some baseShifts => Some (Returned baseShifts)
    | None => None
    end.

(** [generateBaseSchedule]: the loop runs on the fuel [baseFuel], which
    [generateBaseSchedule_total] shows to be enough.  The numbers are the
    integers themselves and the dates are valid ones: what the source
    computes within [exact_range], defined below. *)
Definition generateBaseSchedule (config : ScheduleConfig) (from until : Z)
    : option (outcome (list WorkingScheduleElement)) :=
  generateBaseSchedule_fuel
    (baseFuel (interval_ms_of config) until (first_shift_start config from))
    config from until.

(** ** Override applier *)

(** [arr.sort((a, b) => a.start_at.getTime() - b.start_at.getTime())]:
    ascending by start; the sort of an array is stable, so elements with
    equal starts keep their order.  There is one stable sort of a list; it
    is written here as an insertion sort ([sortByStart_perm],
    [sortByStart_sorted] and [sortByStart_stable] say that it is one). *)
Fixpoint insertByStart (x : WorkingScheduleElement) (l : list WorkingScheduleElement)
    : list WorkingScheduleElement :=
  match l with
  | [] => [x]
  | y :: l' =>
      if start_at x <=? start_at y then x :: y :: l'
      else y :: insertByStart x l'
  end.

Fixpoint sortByStart (l : list WorkingScheduleElement) : list WorkingScheduleElement :=
  match l with
  | [] => []
  | x :: l' => insertByStart x (sortByStart l')
  end.

(** The body of the inner loop of [applyOverrides]: what one shift pushes to
    [nextSchedule] under one override. *)
Definition splitShift (override shift : WorkingScheduleElement)
    : list WorkingScheduleElement :=
  let ov_start := start_at override in
  let ov_end := end_at override in
  let shift_start := start_at shift in
  let shift_end := end_at shift in
  let has_overlap := (ov_start <? shift_end) && (shift_start <? ov_end) in
  if negb has_overlap then [shift]
  else
    (if shift_start <? ov_start
     then [mkShift (user shift) shift_start ov_start] else [])
    ++
    (if ov_end <? shift_end
     then [mkShift (user shift) ov_end shift_end] else []).

(** The body of the outer loop: one override applied to the working
    schedule. *)
Definition applyOverride (workingSchedule : list WorkingScheduleElement)
    (override : WorkingScheduleElement) : list WorkingScheduleElement :=
  let nextSchedule := flat_map (splitShift override) workingSchedule ++ [override] in
  sortByStart nextSchedule.

Definition applyOverrides (baseSchedule parsedOverrides : list WorkingScheduleElement)
    : list WorkingScheduleElement :=
  let sortedOverrides := sortByStart parsedOverrides in
  fold_left applyOverride sortedOverrides baseSchedule.

(** ** Timestamps *)

Module Iso.

Definition digitChar (d : Z) : ascii := ascii_of_nat (48 + Z.to_nat d).

(** The [width] low decimal digits of [n], most significant first. *)
Fixpoint digits (width : nat) (n : Z) : string :=
  match width with
  | O => EmptyString
  | S w => String (digitChar ((n / 10 ^ Z.of_nat w) mod 10)) (digits w n)
  end.

(** The civil date (year, month, day) of a day number counted from
    1970-01-01, in the proleptic Gregorian calendar. *)
Definition civilFromDays (day : Z) : Z * Z * Z :=
  let z := day + 719468 in
  let era := z / 146097 in
  let doe := z - era * 146097 in
  let yoe := (doe - doe / 1460 + doe / 36524 - doe / 146096) / 365 in
  let doy := doe - (365 * yoe + yoe / 4 - yoe / 100) in
  let mp := (5 * doy + 2) / 153 in
  let d := doy - (153 * mp + 2) / 5 + 1 in
  let m := if mp <? 10 then mp + 3 else mp - 9 in
  let y := yoe + era * 400 in
  ((if m <=? 2 then y + 1 else y), m, d).

(** The year of [toISOString]: four digits from 0 to 9999, otherwise a
    sign and six digits. *)
Definition yearString (y : Z) : string :=
  if (0 <=? y) && (y <=? 9999) then digits 4 y
  else
    let sign := if y <? 0 then "-"%string else "+"%string in
    (sign ++ digits 6 (Z.abs y))%string.

(** The date and time of [toISOString], up to the seconds. *)
Definition dateTimeString (t : Z) : string :=
  let day := t / 86400000 in
  let tod := t mod 86400000 in
  let '(y, m, d) := civilFromDays day in
  let hours := tod / 3600000 in
  let minutes := (tod / 60000) mod 60 in
  let seconds := (tod / 1000) mod 60 in
  (yearString y ++ "-" ++ digits 2 m ++ "-" ++ digits 2 d ++ "T"
    ++ digits 2 hours ++ ":" ++ digits 2 minutes ++ ":" ++ digits 2 seconds)%string.

(** [d.toISOString()], e.g. "2025-11-10T17:00:00.000Z". *)
Definition toISOString (t : Z) : string :=
  let milliseconds := t mod 1000 in
  (dateTimeString t ++ "." ++ digits 3 milliseconds ++ "Z")%string.

(** [s.split('.')[0]]: the text before the first dot, the whole text when
    there is none. *)
Fixpoint beforeDot (s : string) : string :=
  match s with
  | EmptyString => EmptyString
  | String c s' => if Ascii.eqb c "." then EmptyString else String c (beforeDot s')
  end.

(** The day number, counted from 1970-01-01, of a civil date. *)
Definition daysFromCivil (y m d : Z) : Z :=
  let y' := if m <=? 2 then y - 1 else y in
  let era := y' / 400 in
  let yoe := y' - era * 400 in
  let mp := if 2 <? m then m - 3 else m + 9 in
  let doy := (153 * mp + 2) / 5 + d - 1 in
  let doe := yoe * 365 + yoe / 4 - yoe / 100 + doy in
  era * 146097 + doe - 719468.

Definition digitVal (c : ascii) : option Z :=
  let n := Z.of_nat (nat_of_ascii c) in
  if (48 <=? n) && (n <=? 57) then Some (n - 48) else None.

(** Reads a number of [width] digits, then goes on with [k]. *)
Fixpoint field (width : nat) (acc : Z) (k : Z -> string -> option Z) (s : string)
    : option Z :=
  match width with
  | O => k acc s
  | S w =>
      match s with
      | String c s' =>
          match digitVal c with
          | Some d => field w (10 * acc + d) k s'
          | None => None
          end
      | EmptyString => None
      end
  end.

(** Reads the character [c], then goes on with [k]. *)
Definition expect (c : ascii) (k : string -> option Z) (s : string) : option Z :=
  match s with
  | String c' s' => if Ascii.eqb c' c then k s' else None
  | EmptyString => None
  end.

Definition finish (v : Z) (s : string) : option Z :=
  match s with
  | EmptyString => Some v
  | String _ _ => None
  end.

(** The instant that a timestamp of the form YYYY-MM-DDTHH:MM:SSZ denotes
    (what [new Date(s).getTime()] is for it); [None] for a text of any
    other form. *)
Definition parse : string -> option Z :=
  field 4 0 (fun y => expect "-" (
  field 2 0 (fun m => expect "-" (
  field 2 0 (fun d => expect "T" (
  field 2 0 (fun hours => expect ":" (
  field 2 0 (fun minutes => expect ":" (
  field 2 0 (fun seconds => expect "Z" (
  finish (daysFromCivil y m d * 86400000
          + hours * 3600000 + minutes * 60000 + seconds * 1000))))))))))))).

(** A text without a dot. *)
Fixpoint dotFree (s : string) : Prop :=
  match s with
  | EmptyString => True
  | String c s' => Ascii.eqb c "." = false /\ dotFree s'
  end.

End Iso.

(** [dateIso] of the source. *)
Definition dateIso (d : Z) : string :=
  (Iso.beforeDot (Iso.toISOString d) ++ "Z")%string.

(** ** Window truncator and filter *)

(** The body of the loop of [truncateAndFilterSchedule]: what one shift
    pushes to [finalSchedule]. *)
Definition truncateShift (from until : Z) (shift : WorkingScheduleElement)
    : list ScheduleElement :=
  let shift_start := start_at shift in
  let shift_end := end_at shift in
  let has_overlap := (shift_start <? until) && (from <? shift_end) in
  if has_overlap then
    let truncated_start := Z.max shift_start from in
    let truncated_end := Z.min shift_end until in
    if truncated_start <? truncated_end then
      [mkOut (user shift) (dateIso truncated_start) (dateIso truncated_end)]
    else []
  else [].

Definition truncateAndFilterSchedule (schedule : list WorkingScheduleElement)
    (from until : Z) : list ScheduleElement :=
  flat_map (truncateShift from until) schedule.

(** ** The pipeline *)

Definition makeSchedule (config : ScheduleConfig)
    (overrides : list WorkingScheduleElement) (fromDate untilDate : Z)
    : option (outcome (list ScheduleElement)) :=
  match generateBaseSchedule config fromDate untilDate with
  | Some (Returned baseShifts) =>
      let parsedOverrides := overrides in
      let overriddenSchedule := applyOverrides baseShifts parsedOverrides in
      Some (Returned (truncateAndFilterSchedule overriddenSchedule fromDate untilDate))
  | Some (Thrown msg) => Some (Thrown msg)
  | None => None
  end.

(** ** Inputs of the scenarios of the specification *)

Module Scenarios.

Local Open Scope string_scope.

Definition day : Z := 86400000.
(** 2025-01-01T00:00:00Z *)
Definition jan1 : Z := 1735689600000.

Definition configAB : ScheduleConfig := mkConfig ["A"; "B"] jan1 1.

(** The window of scenarios 1 and 3: three days from the anchor. *)
Definition from13 : Z := jan1.
Definition until13 : Z := jan1 + 3 * day.

(** The override of scenario 3: C from noon of the first day to noon of
    the second. *)
Definition overrideC : WorkingScheduleElement :=
  mkShift (Some "C") (jan1 + day / 2) (jan1 + day + day / 2).

(** An override over the whole of the third day. *)
Definition overrideD : WorkingScheduleElement :=
  mkShift (Some "D") (jan1 + 2 * day) (jan1 + 3 * day).

(** An override that ends two days before the window starts. *)
Definition overrideBefore : WorkingScheduleElement :=
  mkShift (Some "E") (jan1 - 3 * day) (jan1 - 2 * day).

(** A zero-duration override at noon of the first day. *)
Definition overrideZero : WorkingScheduleElement :=
  mkShift (Some "C") (jan1 + day / 2) (jan1 + day / 2).

End Scenarios.

(** ** Predicates of the specification *)

(** A valid [RotationConfig]: a non-empty user list and a positive interval. *)
Definition valid_config (config : ScheduleConfig) : Prop :=
  users config <> [] /\ 0 < handover_interval_days config.

(** The half-open interval of a shift holds the instant [t]. *)
Definition contains (shift : WorkingScheduleElement) (t : Z) : bool :=
  (start_at shift <=? t) && (t <? end_at shift).

(** The users a schedule assigns to the instant [t], one for each shift that
    holds [t], in the order of the schedule. *)
Definition assigned (schedule : list WorkingScheduleElement) (t : Z)
    : list (option string) :=
  map user (filter (fun shift => contains shift t) schedule).

Definition positive_duration (shift : WorkingScheduleElement) : Prop :=
  start_at shift < end_at shift.

(** The invariant of an [Override]. *)
Definition valid_override (override : WorkingScheduleElement) : Prop :=
  start_at override < end_at override.

Definition overlaps (a b : WorkingScheduleElement) : Prop :=
  start_at a < end_at b /\ start_at b < end_at a.

(** Overrides that are mutually non-overlapping. *)
Definition non_overlapping (overrides : list WorkingScheduleElement) : Prop :=
  ForallOrdPairs (fun a b => ~ overlaps a b) overrides.

(** Sorted by start ascending. *)
Definition sorted_by_start (schedule : list WorkingScheduleElement) : Prop :=
  StronglySorted (fun a b => start_at a <= start_at b) schedule.

(** Every shift ends where the next one starts. *)
Definition gapless (schedule : list WorkingScheduleElement) : Prop :=
  Sorted (fun a b => end_at a = start_at b) schedule.

(** The same within the range [[lo, hi)]: consecutive shifts never overlap,
    and where one does not end at the start of the next, the instants
    between them are outside the range. *)
Definition gapless_within (lo hi : Z) (schedule : list WorkingScheduleElement) : Prop :=
  Sorted (fun a b => end_at a <= start_at b /\
                     (end_at a = start_at b \/ start_at b <= lo \/ hi <= end_at a))
    schedule.

(** The end of the last shift of a schedule. *)
Definition range_end (schedule : list WorkingScheduleElement) (default : Z) : Z :=
  last (map end_at schedule) default.

(** The instants of the output: what [truncateAndFilterSchedule] pushes for
    one shift, before the two boundaries are formatted. *)
Definition clipShift (from until : Z) (shift : WorkingScheduleElement)
    : list WorkingScheduleElement :=
  if (start_at shift <? until) && (from <? end_at shift) then
    if Z.max (start_at shift) from <? Z.min (end_at shift) until then
      [mkShift (user shift) (Z.max (start_at shift) from) (Z.min (end_at shift) until)]
    else []
  else [].

Definition clipSchedule (schedule : list WorkingScheduleElement) (from until : Z)
    : list WorkingScheduleElement :=
  flat_map (clipShift from until) schedule.

(** The output form of a shift. *)
Definition formatShift (shift : WorkingScheduleElement) : ScheduleElement :=
  mkOut (user shift) (dateIso (start_at shift)) (dateIso (end_at shift)).

(** At most one shift of the schedule holds any instant. *)
Definition exclusive (schedule : list WorkingScheduleElement) : Prop :=
  forall t, (List.length (assigned schedule t) <= 1)%nat.

(** The whole second at or before an instant. *)
Definition floorSecond (t : Z) : Z := 1000 * (t / 1000).

Definition whole_second (t : Z) : Prop := t mod 1000 = 0.

(** The instants of the years 0000 to 9999, from 0000-01-01T00:00:00.000Z
    to 9999-12-31T23:59:59.999Z. *)
Definition four_digit_year (t : Z) : Prop :=
  -62167219200000 <= t < 253402300800000.

(** The timestamp [stamp] is of the form YYYY-MM-DDTHH:MM:SSZ and denotes the
    instant [t]. *)
Definition denotes (stamp : string) (t : Z) : Prop :=
  Iso.parse stamp = Some t.

(** Shifts in which each one ends before the later ones start. *)
Definition separated (schedule : list WorkingScheduleElement) : Prop :=
  StronglySorted (fun a b => end_at a <= start_at b) schedule.

(** What an override does to the clipped schedule. *)
Definition clipStep (from until : Z) (o : WorkingScheduleElement)
    (clipped : list WorkingScheduleElement) : list WorkingScheduleElement :=
  flat_map (clipShift from until) (flat_map (splitShift o) clipped)
  ++ clipShift from until o.

(** A configuration with an empty user list and an interval of one day. *)
Definition configNoUsers : ScheduleConfig := mkConfig [] 0 1.

(** ** The entry point and the other copies of the code *)

(** [main] of [src/index.js], from the parsed arguments and files on: what
    it hands to [JSON.stringify], or what it throws. *)
Definition main (scheduleData : ScheduleConfig)
    (overridesData : list WorkingScheduleElement) (fromDate untilDate : Z)
    : option (outcome (list ScheduleElement)) :=
  if untilDate <=? fromDate then
    Some (Thrown "'--from' must be earlier than '--until'")
  else makeSchedule scheduleData overridesData fromDate untilDate.

(** The copy of the code with other variable names: its
    [truncateAndFilterSchedule] leaves the loop body early with [continue]
    where [src/index.js] nests two tests.  The shifts and the window hold
    valid dates. *)
Module Part001.

Definition truncateShift (from until : Z) (shift : WorkingScheduleElement)
    : list ScheduleElement :=
  let startAt := start_at shift in
  let endAt := end_at shift in
  if (until <=? startAt) || (endAt <=? from) then []
  else
    let truncatedStart := Z.max startAt from in
    let truncatedEnd := Z.min endAt until in
    if truncatedEnd <=? truncatedStart then []
    else [mkOut (user shift) (dateIso truncatedStart) (dateIso truncatedEnd)].

Definition truncateAndFilterSchedule (schedule : list WorkingScheduleElement)
    (from until : Z) : list ScheduleElement :=
  flat_map (truncateShift from until) schedule.

End Part001.

(** The earlier generator of the repository, [makeBaseSchedule]: it starts
    at [from] with the first user, whatever the anchor, clips the last shift
    to [until], formats as it goes and has no guard on the interval.  The
    loop is the one of the source as long as the dates it formats are valid
    ones, which they are between two valid dates [from] and [until] when
    the interval is not negative. *)
Module Part000.

(** The [while] loop; [None] is a loop that has not ended within [fuel]. *)
Fixpoint makeBaseLoop (fuel : nat) (users : list string) (num_users intervalMs : Z)
    (endMs currentStart : Z) (currentUserIdx : option Z)
    : option (list ScheduleElement) :=
  if currentStart <? endMs then
    match fuel with
    | O => None
    | S fuel' =>
        match makeBaseLoop fuel' users num_users intervalMs endMs
                (currentStart + intervalMs)
                (JsNum.rem (JsNum.add currentUserIdx 1) num_users) with
        | Some rest =>
            Some (mkOut (JsNum.index users currentUserIdx)
                    (dateIso currentStart)
                    (dateIso (Z.min (currentStart + intervalMs) endMs)) :: rest)
        | None => None
        end
    end
  else Some [].

Definition makeBaseSchedule (fuel : nat) (config : ScheduleConfig) (from until : Z)
    : option (list ScheduleElement) :=
  let intervalMs := handover_interval_days config * 24 * 60 * 60 * 1000 in
  makeBaseLoop fuel (users config) (Z.of_nat (List.length (users config)))
    intervalMs until from (Some 0).

End Part000.

(** ** More predicates of the specification *)

(** The override that holds the instant [t] and is applied last: the last
    one in ascending order of start, in the order of supply among equal
    starts. *)
Definition winner (overrides : list WorkingScheduleElement) (t : Z)
    : option WorkingScheduleElement :=
  fold_left (fun acc o => if contains o t then Some o else acc)
    (sortByStart overrides) None.

(** The user of the rotation at the instant [t], whatever the window. *)
Definition rotation_user (config : ScheduleConfig) (t : Z) : option string :=
  nth_error (users config)
    (Z.to_nat (((t - handover_start_at config) / interval_ms_of config)
               mod Z.of_nat (List.length (users config)))).

(** ** The range of the numbers and of the dates of the source *)

(** A time value more than 8.64e15 ms away from the epoch makes an invalid
    [Date], whose [getTime()] is [NaN]. *)
Definition max_date : Z := 8640000000000000.

(** [2^53]: every integer up to this size is a number of the source, and a
    sum, a difference or a product of two of them that stays within this
    size is computed without rounding. *)
Definition max_exact : Z := 9007199254740992.

Definition valid_date (t : Z) : Prop := - max_date <= t <= max_date.

(** The two boundaries of a shift are valid dates. *)
Definition valid_dates (shift : WorkingScheduleElement) : Prop :=
  valid_date (start_at shift) /\ valid_date (end_at shift).

(** The configurations and windows on which [generateBaseSchedule] computes
    with the integers themselves and makes valid dates only: the anchor and
    the window are valid dates; [from - anchor] and the products and sums
    made from it stay within [2^53], and with the interval added the
    quotient [elapsed_ms / interval_ms] is far enough from the next integer
    for [Math.floor] to give the floor of the exact quotient; and the start
    of the first shift, which is after [from - interval_ms], and the end of
    the last one, which is before [until + interval_ms], are valid dates. *)
Definition exact_range (config : ScheduleConfig) (from until : Z) : Prop :=
  valid_date (handover_start_at config) /\
  valid_date from /\
  valid_date until /\
  Z.abs (from - handover_start_at config) + interval_ms_of config <= max_exact /\
  - max_date <= from - interval_ms_of config /\
  until + interval_ms_of config <= max_date.

(** ** The code on dates that may be invalid *)

(** [generateBaseSchedule] and [applyOverrides] once more, with the [Date]s
    of the source as they are: a [Date] made from a time value out of range
    is invalid, and a comparison with an invalid [Date] is false.  A result
    [None] is an input on which these functions say nothing.  On
    [exact_range] they return what the functions above return
    ([generateBaseSchedule_on_dates], [applyOverrides_on_dates]). *)
Module Dated.

(** A [Date]: its time value, or [None] for an invalid one. *)
Definition newDate (value : Z) : option Z :=
  if (- max_date <=? value) && (value <=? max_date) then Some value else None.

(** [WorkingScheduleElement] of the source. *)
Record Element : Type := mkElement {
  user : option string;
  start_at : option Z;
  end_at : option Z
}.

(** [a < b] on two [Date]s ([b > a] is the same): false when one of them is
    invalid. *)
Definition lt (a b : option Z) : bool :=
  match a, b with
  | Some x, Some y => x <? y
  | _, _ => false
  end.

(** The [while] loop of [generateBaseSchedule]. *)
Fixpoint baseLoop (fuel : nat) (users : list string) (num_users interval_ms until : Z)
    (current_shift_start_ms : Z) (current_user_index : option Z)
    : option (list Element) :=
  if current_shift_start_ms <? until then
    match fuel with
    | O => None
    | S fuel' =>
        let current_shift_end_ms := current_shift_start_ms + interval_ms in
        match baseLoop fuel' users num_users interval_ms until
                current_shift_end_ms
                (JsNum.rem (JsNum.add current_user_index 1) num_users) with
        | Some rest =>
            Some (mkElement (JsNum.index users current_user_index)
                    (newDate current_shift_start_ms)
                    (newDate current_shift_end_ms) :: rest)
        | None => None
        end
    end
  else Some [].

(** The anchor and the window are valid dates and the numbers the generator
    computes stay within [2^53], the quotient far enough from the next
    integer. *)
Definition exact_numbers (config : ScheduleConfig) (from until : Z) : bool :=
  let interval_ms := handover_interval_days config * ms_per_day in
  (- max_date <=? handover_start_at config) && (handover_start_at config <=? max_date)
  && (- max_date <=? from) && (from <=? max_date)
  && (- max_date <=? until) && (until <=? max_date)
  && (Z.abs (from - handover_start_at config) + interval_ms <=? max_exact)
  && (- max_exact <=? from - interval_ms)
  && (until + interval_ms <=? max_exact).

(** [generateBaseSchedule]; [None] outside [exact_numbers], where the
    numbers of the source are rounded and this function says nothing. *)
Definition generateBaseSchedule (config : ScheduleConfig) (from until : Z)
    : option (outcome (list Element)) :=
  let num_users := Z.of_nat (List.length (users config)) in
  let handover_start_ms := handover_start_at config in
  let interval_ms := handover_interval_days config * ms_per_day in
  if interval_ms <=? 0 then
    Some (Thrown "handover_interval_days must be greater than 0")
  else if exact_numbers config from until then
    let elapsed_ms := from - handover_start_ms in
    let intervals_passed := elapsed_ms / interval_ms in
    let current_shift_start_ms := handover_start_ms + intervals_passed * interval_ms in
    let current_user_index := normalized_index intervals_passed num_users in
    match baseLoop (baseFuel interval_ms until current_shift_start_ms)
            (users config) num_users interval_ms until
            current_shift_start_ms current_user_index with
    | Some baseShifts => Some (Returned baseShifts)
    | None => None
    end
  else None.

(** The time value the comparator of the sort reads. *)
Definition startTime (x : Element) : Z :=
  match start_at x with
  | Some t => t
  | None => 0
  end.

Fixpoint insertByStart (x : Element) (l : list Element) : list Element :=
  match l with
  | [] => [x]
  | y :: l' =>
      if startTime x <=? startTime y then x :: y :: l'
      else y :: insertByStart x l'
  end.

Fixpoint sortElements (l : list Element) : list Element :=
  match l with
  | [] => []
  | x :: l' => insertByStart x (sortElements l')
  end.

Definition hasStart (x : Element) : bool :=
  match start_at x with
  | Some _ => true
  | None => false
  end.

(** [arr.sort((a, b) => a.start_at.getTime() - b.start_at.getTime())]: the
    stable sort by start when every start is a valid date.  When one is
    not, the comparator returns [NaN] and the order is left to the engine:
    [None], nothing is said. *)
Definition sortByStart (l : list Element) : option (list Element) :=
  if forallb hasStart l then Some (sortElements l) else None.

(** The body of the inner loop of [applyOverrides]. *)
Definition splitShift (override shift : Element) : list Element :=
  let ov_start := start_at override in
  let ov_end := end_at override in
  let shift_start := start_at shift in
  let shift_end := end_at shift in
  let has_overlap := lt ov_start shift_end && lt shift_start ov_end in
  if negb has_overlap then [shift]
  else
    (if lt shift_start ov_start
     then [mkElement (user shift) shift_start ov_start] else [])
    ++
    (if lt ov_end shift_end
     then [mkElement (user shift) ov_end shift_end] else []).

(** The body of the outer loop. *)
Definition applyOverride (workingSchedule : list Element) (override : Element)
    : option (list Element) :=
  let nextSchedule := flat_map (splitShift override) workingSchedule ++ [override] in
  sortByStart nextSchedule.

Definition applyOverrides (baseSchedule parsedOverrides : list Element)
    : option (list Element) :=
  match sortByStart parsedOverrides with
  | Some sortedOverrides =>
      fold_left
        (fun workingSchedule override =>
           match workingSchedule with
           | Some schedule => applyOverride schedule override
           | None => None
           end)
        sortedOverrides (Some baseSchedule)
  | None => None
  end.

End Dated.

(** A shift whose two dates are valid, as an element of [Dated]. *)
Definition dated (shift : WorkingScheduleElement) : Dated.Element :=
  Dated.mkElement (user shift) (Some (start_at shift)) (Some (end_at shift)).

(** An interval of a hundred million days: from any date of this age the
    end of the first shift is beyond the last valid date. *)
Definition configLongInterval : ScheduleConfig :=
  mkConfig ["A"%string; "B"%string] Scenarios.jan1 100000000.

(** An override of one hour, an hour after the anchor. *)
Definition overrideHour : Dated.Element :=
  Dated.mkElement (Some "C"%string)
    (Dated.newDate (Scenarios.jan1 + 3600000))
    (Dated.newDate (Scenarios.jan1 + 2 * 3600000)).

(** Every shift ends where the next one starts, for a next one that starts
    inside the window [[from, until)]. *)
Definition gapless_on_dates (from until : Z) (schedule : list Dated.Element) : Prop :=
  Sorted (fun a b =>
            (exists t, Dated.start_at b = Some t /\ from <= t < until) ->
            Dated.end_at a = Dated.start_at b)
    schedule.

(** ** Case analysis on the comparisons of the source *)

Ltac compare_cases :=
  repeat match goal with
    | |- context [Z.ltb ?a ?b] => destruct (Z.ltb_spec a b)
    | |- context [Z.leb ?a ?b] => destruct (Z.leb_spec a b)
    | |- context [Z.max ?a ?b] => destruct (Z.max_spec a b) as [[? ->] | [? ->]]
    | |- context [Z.min ?a ?b] => destruct (Z.min_spec a b) as [[? ->] | [? ->]]
    end.

Ltac ltb_cases :=
  repeat match goal with
    | |- context [Z.ltb ?a ?b] => destruct (Z.ltb_spec a b)
    | |- context [Z.leb ?a ?b] => destruct (Z.leb_spec a b)
    end.

Ltac close_shift_lists :=
  cbn [negb andb app flat_map start_at end_at user];
  first [ lia
        | reflexivity
        | repeat match goal with
            | |- _ :: _ = _ :: _ => f_equal
            | |- mkShift _ _ _ = mkShift _ _ _ => f_equal
            end; lia ].

(** Case analysis on every comparison that shows up while the bodies of the
    loops are evaluated, the impossible cases being closed on the way. *)
Ltac shift_cases :=
  repeat first
    [ progress cbn [negb andb app flat_map start_at end_at user]
    | match goal with
      | |- context [Z.ltb ?a ?b] =>
          destruct (Z.ltb_spec a b); try (exfalso; lia)
      end ].

(** [exact_range] at given numbers. *)
Ltac exact_range_holds :=
  unfold exact_range, valid_date; repeat split; vm_compute; discriminate.

(** * Properties *)

(** ** Arithmetic of the user index *)

Lemma rem_succ_index (i n : Z) :
  0 <= i < n ->
  JsNum.rem (JsNum.add (Some i) 1) n = Some ((i + 1) mod n).
Proof.
  intros Hi. unfold JsNum.rem, JsNum.add.
  destruct (Z.eqb_spec n 0) as [E | _]; [lia |].
  f_equal. apply Z.rem_mod_nonneg; lia.
Qed.

Lemma normalized_index_mod (i n : Z) :
  0 < n -> normalized_index i n = Some (i mod n).
Proof.
  intros Hn. unfold normalized_index, JsNum.rem, JsNum.add.
  destruct (Z.eqb_spec n 0) as [E | _]; [lia |].
  f_equal.
  assert (Hr : - n < Z.rem i n < n).
  { pose proof (Z.rem_bound_abs i n ltac:(lia)). lia. }
  rewrite Z.rem_mod_nonneg by lia.
  assert (Hq : Z.rem i n = i - n * (i ÷ n)).
  { pose proof (Z.quot_rem' i n). lia. }
  rewrite Hq.
  replace (i - n * (i ÷ n) + n) with (i + (1 - i ÷ n) * n) by ring.
  apply Z_mod_plus_full.
Qed.

(** ** The loop of the base schedule generator *)

Section BaseLoop.

Variable us : list string.
Variables n interval_ms until : Z.
Hypothesis interval_pos : 0 < interval_ms.

Lemma baseLoop_enough_fuel (fuel : nat) :
  forall cur idx,
    until - cur <= Z.of_nat fuel * interval_ms ->
    exists l, baseLoop fuel us n interval_ms until cur idx = Some l.
Proof using interval_pos.
  induction fuel as [| fuel IH]; intros cur idx Hfuel; simpl.
  - destruct (Z.ltb_spec cur until); [lia | eauto].
  - destruct (Z.ltb_spec cur until); [| eauto].
    destruct (IH (cur + interval_ms) (JsNum.rem (JsNum.add idx 1) n)) as [l ->];
      [lia | eauto].
Qed.

Lemma baseFuel_enough (start : Z) :
  until - start <= Z.of_nat (baseFuel interval_ms until start) * interval_ms.
Proof using interval_pos.
  unfold baseFuel.
  pose proof (Z.div_mod (until - start) interval_ms ltac:(lia)) as Hd.
  pose proof (Z.mod_pos_bound (until - start) interval_ms interval_pos) as Hm.
  destruct (Z_le_gt_dec 0 ((until - start) / interval_ms + 1)) as [Hq | Hq].
  - rewrite Z2Nat.id by assumption. nia.
  - replace (Z.to_nat ((until - start) / interval_ms + 1)) with 0%nat by lia. nia.
Qed.

(** The [k]-th shift pushed by the loop. *)
Lemma baseLoop_nth (fuel : nat) :
  forall cur idx l,
    baseLoop fuel us n interval_ms until cur idx = Some l ->
    forall k sh, nth_error l k = Some sh ->
      start_at sh = cur + Z.of_nat k * interval_ms /\
      end_at sh = start_at sh + interval_ms /\
      start_at sh < until.
Proof.
  induction fuel as [| fuel IH]; intros cur idx l Hl k sh Hk; simpl in Hl.
  - destruct (Z.ltb_spec cur until); [discriminate |].
    injection Hl as <-. destruct k; discriminate.
  - destruct (Z.ltb_spec cur until).
    + destruct (baseLoop fuel us n interval_ms until (cur + interval_ms) _)
        as [rest |] eqn:Hrest; [| discriminate].
      injection Hl as <-. destruct k as [| k]; simpl in Hk.
      * injection Hk as <-. simpl. lia.
      * destruct (IH _ _ _ Hrest _ _ Hk) as (Hs & He & Hu). lia.
    + injection Hl as <-. destruct k; discriminate.
Qed.

(** The loop ends once the start of the next shift has reached [until]. *)
Lemma baseLoop_exit (fuel : nat) :
  forall cur idx l,
    baseLoop fuel us n interval_ms until cur idx = Some l ->
    until <= cur + Z.of_nat (List.length l) * interval_ms.
Proof.
  induction fuel as [| fuel IH]; intros cur idx l Hl; simpl in Hl.
  - destruct (Z.ltb_spec cur until); [discriminate |].
    injection Hl as <-. simpl. lia.
  - destruct (Z.ltb_spec cur until).
    + destruct (baseLoop fuel us n interval_ms until (cur + interval_ms) _)
        as [rest |] eqn:Hrest; [| discriminate].
      injection Hl as <-. apply IH in Hrest. simpl List.length. lia.
    + injection Hl as <-. simpl. lia.
Qed.

(** The user of the [k]-th shift, the index advancing cyclically. *)
Lemma baseLoop_user (fuel : nat) :
  0 < n ->
  forall cur i l,
    0 <= i < n ->
    baseLoop fuel us n interval_ms until cur (Some i) = Some l ->
    forall k sh, nth_error l k = Some sh ->
      user sh = JsNum.index us (Some ((i + Z.of_nat k) mod n)).
Proof.
  intros Hn.
  induction fuel as [| fuel IH]; intros cur i l Hi Hl k sh Hk; cbn [baseLoop] in Hl.
  - destruct (cur <? until); [discriminate |].
    injection Hl as <-. destruct k; discriminate.
  - destruct (cur <? until).
    + rewrite rem_succ_index in Hl by assumption.
      destruct (baseLoop fuel us n interval_ms until (cur + interval_ms) _)
        as [rest |] eqn:Hrest; [| discriminate].
      injection Hl as <-. destruct k as [| k]; simpl in Hk.
      * injection Hk as <-. cbn [user]. rewrite Z.add_0_r, Z.mod_small by lia.
        reflexivity.
      * rewrite (IH _ _ _ (Z.mod_pos_bound (i + 1) n Hn) Hrest _ _ Hk).
        do 2 f_equal.
        rewrite Zplus_mod_idemp_l. f_equal. lia.
    + injection Hl as <-. destruct k; discriminate.
Qed.

End BaseLoop.

Lemma baseLoop_range_end (us : list string) (n interval_ms until : Z) (fuel : nat) :
  forall cur idx l d,
    baseLoop fuel us n interval_ms until cur idx = Some l ->
    l <> [] ->
    range_end l d = cur + Z.of_nat (List.length l) * interval_ms.
Proof.
  unfold range_end.
  induction fuel as [| fuel IH]; intros cur idx l d Hl Hne; simpl in Hl.
  - destruct (cur <? until); [discriminate | congruence].
  - destruct (cur <? until); [| congruence].
    destruct (baseLoop fuel us n interval_ms until (cur + interval_ms) _)
      as [rest |] eqn:Hrest; [| discriminate].
    injection Hl as <-. destruct rest as [| sh rest].
    + cbn [map last end_at List.length]. lia.
    + change (last (map end_at (_ :: sh :: rest)) d)
        with (last (map end_at (sh :: rest)) d).
      rewrite (IH _ _ _ d Hrest) by discriminate.
      simpl List.length. lia.
Qed.

(** ** The base schedule generator *)

Lemma interval_ms_pos (config : ScheduleConfig) :
  0 < handover_interval_days config -> 0 < interval_ms_of config.
Proof. unfold interval_ms_of, ms_per_day. lia. Qed.

(** For a positive interval the generator returns, and what it returns is
    what the loop builds from the first shift on. *)
Lemma generateBaseSchedule_returns (config : ScheduleConfig) (from until : Z) :
  0 < handover_interval_days config ->
  exists base,
    generateBaseSchedule config from until = Some (Returned base) /\
    forall fuel,
      (List.length base <= fuel)%nat ->
      baseLoop fuel (users config) (Z.of_nat (List.length (users config)))
        (interval_ms_of config) until (first_shift_start config from)
        (normalized_index (intervals_passed_of config from)
           (Z.of_nat (List.length (users config)))) = Some base.
Proof.
  intros Hdays. pose proof (interval_ms_pos config Hdays) as Hpos.
  unfold generateBaseSchedule, generateBaseSchedule_fuel.
  fold (interval_ms_of config).
  destruct (Z.leb_spec (interval_ms_of config) 0) as [Hle | _]; [lia |].
  fold (intervals_passed_of config from). fold (first_shift_start config from).
  destruct (baseLoop_enough_fuel (users config)
              (Z.of_nat (List.length (users config))) (interval_ms_of config) until Hpos
              (baseFuel (interval_ms_of config) until (first_shift_start config from))
              (first_shift_start config from)
              (normalized_index (intervals_passed_of config from)
                 (Z.of_nat (List.length (users config))))
              (baseFuel_enough _ _ Hpos _)) as [base Hbase].
  rewrite Hbase. exists base. split; [reflexivity |].
  clear - Hbase. revert Hbase.
  generalize (baseFuel (interval_ms_of config) until (first_shift_start config from)).
  generalize (first_shift_start config from).
  generalize (normalized_index (intervals_passed_of config from)
                (Z.of_nat (List.length (users config)))).
  intros idx cur fuel0. revert idx cur base.
  induction fuel0 as [| fuel0 IH]; intros idx cur base Hbase fuel Hlen; simpl in Hbase.
  - destruct (cur <? until) eqn:Hc; [discriminate |]. injection Hbase as <-.
    destruct fuel; simpl; rewrite Hc; reflexivity.
  - destruct (cur <? until) eqn:Hc.
    + destruct (baseLoop fuel0 _ _ _ _ _ _) as [rest |] eqn:Hrest; [| discriminate].
      injection Hbase as <-. simpl in Hlen.
      destruct fuel as [| fuel]; [lia |].
      simpl. rewrite Hc. rewrite (IH _ _ _ Hrest fuel) by lia. reflexivity.
    + injection Hbase as <-. destruct fuel; simpl; rewrite Hc; reflexivity.
Qed.

(** The generator ends on every input: it throws or it returns. *)
Lemma generateBaseSchedule_total (config : ScheduleConfig) (from until : Z) :
  generateBaseSchedule config from until
  = Some (Thrown "handover_interval_days must be greater than 0") \/
  exists base, generateBaseSchedule config from until = Some (Returned base).
Proof.
  destruct (Z_le_gt_dec (handover_interval_days config) 0) as [Hle | Hgt].
  - left. unfold generateBaseSchedule, generateBaseSchedule_fuel.
    destruct (Z.leb_spec (handover_interval_days config * ms_per_day) 0) as [_ | Hpos];
      [reflexivity | unfold ms_per_day in Hpos; lia].
  - right. destruct (generateBaseSchedule_returns config from until) as (base & Hbase & _);
      [lia | eauto].
Qed.

Section BaseSchedule.

Variable config : ScheduleConfig.
Variables from until : Z.
Variable base : list WorkingScheduleElement.
Hypothesis days_pos : 0 < handover_interval_days config.
Hypothesis base_generated :
  generateBaseSchedule config from until = Some (Returned base).

Let num_users := Z.of_nat (List.length (users config)).

Lemma base_loop :
  baseLoop (List.length base) (users config) num_users (interval_ms_of config) until
    (first_shift_start config from)
    (normalized_index (intervals_passed_of config from) num_users) = Some base.
Proof using days_pos base_generated.
  destruct (generateBaseSchedule_returns config from until days_pos) as (b & Hb & Hloop).
  pose proof base_generated as Hgen.
  rewrite Hb in Hgen. injection Hgen as Heq. rewrite <- Heq.
  apply Hloop. apply Nat.le_refl.
Qed.

Lemma first_shift_start_le : first_shift_start config from <= from.
Proof using days_pos.
  unfold first_shift_start, intervals_passed_of.
  pose proof (interval_ms_pos config days_pos) as Hpos.
  pose proof (Z.mul_div_le (from - handover_start_at config) (interval_ms_of config) Hpos).
  lia.
Qed.

Lemma first_shift_start_gt : from < first_shift_start config from + interval_ms_of config.
Proof using days_pos.
  unfold first_shift_start, intervals_passed_of.
  pose proof (interval_ms_pos config days_pos) as Hpos.
  pose proof (Z.mul_succ_div_gt (from - handover_start_at config) (interval_ms_of config) Hpos).
  lia.
Qed.

Lemma base_nth (k : nat) (sh : WorkingScheduleElement) :
  nth_error base k = Some sh ->
  start_at sh = handover_start_at config
                + (intervals_passed_of config from + Z.of_nat k) * interval_ms_of config /\
  end_at sh = start_at sh + interval_ms_of config /\
  start_at sh < until.
Proof using days_pos base_generated.
  intros Hk.
  destruct (baseLoop_nth _ _ _ _ _ _ _ _ base_loop _ _ Hk) as (Hs & He & Hu).
  unfold first_shift_start in Hs. lia.
Qed.

Lemma base_nth_user (k : nat) (sh : WorkingScheduleElement) :
  users config <> [] ->
  nth_error base k = Some sh ->
  user sh = nth_error (users config)
              (Z.to_nat ((intervals_passed_of config from + Z.of_nat k) mod num_users)).
Proof using days_pos base_generated.
  intros Hne Hk.
  assert (Hn : 0 < num_users).
  { subst num_users. destruct (users config); [congruence | simpl; lia]. }
  pose proof base_loop as Hloop.
  rewrite normalized_index_mod in Hloop by assumption.
  rewrite (baseLoop_user _ _ _ _ _ Hn _ _ _ (Z.mod_pos_bound _ _ Hn) Hloop _ _ Hk).
  rewrite Zplus_mod_idemp_l. unfold JsNum.index.
  pose proof (Z.mod_pos_bound (intervals_passed_of config from + Z.of_nat k) _ Hn).
  destruct (Z.ltb_spec ((intervals_passed_of config from + Z.of_nat k) mod num_users) 0);
    [lia | reflexivity].
Qed.

Lemma base_length : until <= first_shift_start config from
                              + Z.of_nat (List.length base) * interval_ms_of config.
Proof using days_pos base_generated.
  exact (baseLoop_exit _ _ _ _ _ _ _ _ base_loop).
Qed.

Lemma base_nonempty : from < until -> base <> [].
Proof using days_pos base_generated.
  intros Hw Hnil. pose proof base_length as Hlen. pose proof first_shift_start_le.
  rewrite Hnil in Hlen. simpl in Hlen. lia.
Qed.

Lemma base_range_end (d : Z) :
  base <> [] ->
  range_end base d = first_shift_start config from
                     + Z.of_nat (List.length base) * interval_ms_of config.
Proof using days_pos base_generated.
  intros Hne. exact (baseLoop_range_end _ _ _ _ _ _ _ _ d base_loop Hne).
Qed.

End BaseSchedule.

(** ** The code on dates that may be invalid *)

Lemma newDate_valid (t : Z) : valid_date t -> Dated.newDate t = Some t.
Proof.
  unfold valid_date, Dated.newDate. intros [H1 H2].
  rewrite (proj2 (Z.leb_le _ _) H1), (proj2 (Z.leb_le _ _) H2). reflexivity.
Qed.

Lemma exact_range_numbers (config : ScheduleConfig) (from until : Z) :
  exact_range config from until -> Dated.exact_numbers config from until = true.
Proof.
  unfold exact_range, valid_date, Dated.exact_numbers. cbv zeta.
  fold (interval_ms_of config).
  intros ((H1 & H2) & (H3 & H4) & (H5 & H6) & H7 & H8 & H9).
  assert (Hbound : max_date <= max_exact) by discriminate.
  rewrite !andb_true_iff, !Z.leb_le. repeat split; lia.
Qed.

(** While the starts and the ends stay valid dates, the loop on dates
    builds the shifts of the loop on instants. *)
Lemma baseLoop_on_dates (us : list string) (n interval_ms until : Z) :
  0 < interval_ms ->
  until + interval_ms <= max_date ->
  forall fuel cur idx,
    - max_date <= cur ->
    Dated.baseLoop fuel us n interval_ms until cur idx
    = option_map (map dated) (baseLoop fuel us n interval_ms until cur idx).
Proof.
  intros Hpos Hhi. induction fuel as [| fuel IH]; intros cur idx Hlo;
    cbn [Dated.baseLoop baseLoop].
  - destruct (cur <? until); reflexivity.
  - destruct (Z.ltb_spec cur until) as [Hc | Hc]; [| reflexivity].
    rewrite IH by lia.
    destruct (baseLoop fuel us n interval_ms until (cur + interval_ms)
                (JsNum.rem (JsNum.add idx 1) n)) as [rest |]; [| reflexivity].
    cbn [option_map map]. unfold dated at 2. cbn [user start_at end_at].
    rewrite !newDate_valid by (unfold valid_date; lia). reflexivity.
Qed.

(** The loop on dates ends when it has the fuel. *)
Lemma baseLoop_dates_enough_fuel (us : list string) (n interval_ms until : Z) :
  0 < interval_ms ->
  forall fuel cur idx,
    until - cur <= Z.of_nat fuel * interval_ms ->
    exists l, Dated.baseLoop fuel us n interval_ms until cur idx = Some l.
Proof.
  intros Hpos. induction fuel as [| fuel IH]; intros cur idx Hfuel;
    cbn [Dated.baseLoop].
  - destruct (Z.ltb_spec cur until); [lia | eauto].
  - destruct (Z.ltb_spec cur until); [| eauto].
    destruct (IH (cur + interval_ms) (JsNum.rem (JsNum.add idx 1) n)) as [l ->];
      [lia | eauto].
Qed.

(** Where its numbers are exact, the generator on dates returns a schedule
    for every positive interval. *)
Lemma generateBaseSchedule_dates_returns (config : ScheduleConfig) (from until : Z) :
  0 < handover_interval_days config ->
  Dated.exact_numbers config from until = true ->
  exists base, Dated.generateBaseSchedule config from until = Some (Returned base).
Proof.
  intros Hdays Hnum. pose proof (interval_ms_pos config Hdays) as Hpos.
  unfold Dated.generateBaseSchedule. rewrite Hnum.
  fold (interval_ms_of config).
  destruct (Z.leb_spec (interval_ms_of config) 0) as [Hle | _]; [lia |].
  destruct (baseLoop_dates_enough_fuel (users config)
              (Z.of_nat (List.length (users config))) (interval_ms_of config) until Hpos
              (baseFuel (interval_ms_of config) until
                 (handover_start_at config
                  + (from - handover_start_at config) / interval_ms_of config
                    * interval_ms_of config))
              (handover_start_at config
               + (from - handover_start_at config) / interval_ms_of config
                 * interval_ms_of config)
              (normalized_index
                 ((from - handover_start_at config) / interval_ms_of config)
                 (Z.of_nat (List.length (users config))))
              (baseFuel_enough _ _ Hpos _)) as [base ->].
  eauto.
Qed.

(** Within [exact_range] the generator on dates returns the base schedule
    of the generator on instants, every date of it a valid one. *)
Lemma generateBaseSchedule_on_dates (config : ScheduleConfig) (from until : Z)
    (base : list WorkingScheduleElement) :
  0 < handover_interval_days config ->
  exact_range config from until ->
  generateBaseSchedule config from until = Some (Returned base) ->
  Dated.generateBaseSchedule config from until = Some (Returned (map dated base)).
Proof.
  intros Hdays Hrange Hbase.
  pose proof (interval_ms_pos config Hdays) as Hpos.
  pose proof (first_shift_start_gt config from Hdays) as Hgt.
  pose proof (exact_range_numbers config from until Hrange) as Hnum.
  destruct Hrange as (_ & _ & _ & _ & Hlo & Hhi).
  unfold Dated.generateBaseSchedule. rewrite Hnum.
  unfold generateBaseSchedule, generateBaseSchedule_fuel in Hbase.
  fold (interval_ms_of config) in Hbase |- *.
  destruct (Z.leb_spec (interval_ms_of config) 0) as [Hle | _]; [lia |].
  fold (intervals_passed_of config from) in Hbase |- *.
  fold (first_shift_start config from) in Hbase |- *.
  rewrite (baseLoop_on_dates _ _ _ _ Hpos Hhi) by lia.
  destruct (baseLoop _ _ _ _ _ _ _) as [b |]; [| discriminate].
  injection Hbase as <-. reflexivity.
Qed.

Lemma splitShift_on_dates (o s : WorkingScheduleElement) :
  Dated.splitShift (dated o) (dated s) = map dated (splitShift o s).
Proof.
  unfold Dated.splitShift, splitShift, dated. cbv zeta.
  cbn [Dated.start_at Dated.end_at Dated.user Dated.lt].
  destruct (start_at o <? end_at s), (start_at s <? end_at o);
    cbn [andb negb]; try reflexivity.
  destruct (start_at s <? start_at o), (end_at o <? end_at s); reflexivity.
Qed.

Lemma flat_map_splitShift_on_dates (o : WorkingScheduleElement)
    (w : list WorkingScheduleElement) :
  flat_map (Dated.splitShift (dated o)) (map dated w)
  = map dated (flat_map (splitShift o) w).
Proof.
  induction w as [| s w IH]; [reflexivity |].
  cbn [map flat_map]. rewrite IH, splitShift_on_dates, map_app. reflexivity.
Qed.

Lemma insertByStart_on_dates (x : WorkingScheduleElement)
    (l : list WorkingScheduleElement) :
  Dated.insertByStart (dated x) (map dated l) = map dated (insertByStart x l).
Proof.
  induction l as [| y l IH]; [reflexivity |].
  cbn [map Dated.insertByStart insertByStart].
  unfold Dated.startTime at 1 2. cbn [dated Dated.start_at].
  destruct (start_at x <=? start_at y); [reflexivity |].
  rewrite IH. reflexivity.
Qed.

Lemma sortElements_on_dates (l : list WorkingScheduleElement) :
  Dated.sortElements (map dated l) = map dated (sortByStart l).
Proof.
  induction l as [| x l IH]; [reflexivity |].
  cbn [map Dated.sortElements sortByStart].
  rewrite IH. apply insertByStart_on_dates.
Qed.

Lemma sortByStart_on_dates (l : list WorkingScheduleElement) :
  Dated.sortByStart (map dated l) = Some (map dated (sortByStart l)).
Proof.
  unfold Dated.sortByStart.
  assert (Hstarts : forallb Dated.hasStart (map dated l) = true).
  { clear. induction l as [| x l IH]; [reflexivity | exact IH]. }
  rewrite Hstarts, sortElements_on_dates. reflexivity.
Qed.

Lemma applyOverride_on_dates (w : list WorkingScheduleElement)
    (o : WorkingScheduleElement) :
  Dated.applyOverride (map dated w) (dated o) = Some (map dated (applyOverride w o)).
Proof.
  unfold Dated.applyOverride, applyOverride. cbv zeta.
  rewrite flat_map_splitShift_on_dates.
  change [dated o] with (map dated [o]). rewrite <- map_app.
  apply sortByStart_on_dates.
Qed.

(** On valid dates the override applier on dates returns the schedule of
    the applier on instants. *)
Lemma applyOverrides_on_dates (base overrides : list WorkingScheduleElement) :
  Dated.applyOverrides (map dated base) (map dated overrides)
  = Some (map dated (applyOverrides base overrides)).
Proof.
  unfold Dated.applyOverrides, applyOverrides. cbv zeta.
  rewrite sortByStart_on_dates.
  generalize (sortByStart overrides) as l. intros l. revert base.
  induction l as [| o l IH]; intros base; [reflexivity |].
  cbn [map fold_left]. rewrite applyOverride_on_dates. apply IH.
Qed.

(** C5, as stated, fails: with an interval of a hundred million days the
    configuration is valid and [from < until], the one shift of the base
    schedule starts at [from], and its end, which is beyond the last valid
    date, is an invalid [Date]: it is no instant at all, so it is not at or
    after [until]. *)
Lemma C5_last_shift_end_invalid :
  valid_config configLongInterval /\
  Scenarios.jan1 < Scenarios.jan1 + Scenarios.day /\
  Dated.generateBaseSchedule configLongInterval
    Scenarios.jan1 (Scenarios.jan1 + Scenarios.day)
  = Some (Returned [Dated.mkElement (Some "A"%string) (Some Scenarios.jan1) None]) /\
  ~ (exists first rest e,
       Dated.generateBaseSchedule configLongInterval
         Scenarios.jan1 (Scenarios.jan1 + Scenarios.day)
       = Some (Returned (first :: rest)) /\
       Dated.end_at (last (first :: rest) first) = Some e /\
       Scenarios.jan1 + Scenarios.day <= e).
Proof.
  split; [split; [discriminate | reflexivity] |].
  split; [reflexivity |].
  split; [vm_compute; reflexivity |].
  intros (first & rest & e & Hgen & Hend & _).
  vm_compute in Hgen. injection Hgen as <- <-.
  cbn [last Dated.end_at] in Hend. discriminate.
Qed.

(** C1, as stated, fails: at the same configuration and window, with one
    override of an hour inside the window, the base shift, whose end is an
    invalid [Date], overlaps nothing (every comparison with its end is
    false) and stays as it is, so the returned schedule holds that shift
    and then the override, and the shift does not end where the override
    starts. *)
Lemma C1_override_after_invalid_end :
  valid_config configLongInterval /\
  Scenarios.jan1 < Scenarios.jan1 + Scenarios.day /\
  Dated.generateBaseSchedule configLongInterval
    Scenarios.jan1 (Scenarios.jan1 + Scenarios.day)
  = Some (Returned [Dated.mkElement (Some "A"%string) (Some Scenarios.jan1) None]) /\
  Dated.applyOverrides
    [Dated.mkElement (Some "A"%string) (Some Scenarios.jan1) None] [overrideHour]
  = Some [Dated.mkElement (Some "A"%string) (Some Scenarios.jan1) None; overrideHour] /\
  ~ gapless_on_dates Scenarios.jan1 (Scenarios.jan1 + Scenarios.day)
      [Dated.mkElement (Some "A"%string) (Some Scenarios.jan1) None; overrideHour].
Proof.
  split; [split; [discriminate | reflexivity] |].
  split; [reflexivity |].
  split; [vm_compute; reflexivity |].
  split; [vm_compute; reflexivity |].
  intros Hgap. apply Sorted_inv in Hgap as [_ Hrel].
  apply HdRel_inv in Hrel.
  assert (Hend : Dated.end_at (Dated.mkElement (Some "A"%string) (Some Scenarios.jan1) None)
                 = Dated.start_at overrideHour).
  { apply Hrel. exists (Scenarios.jan1 + 3600000).
    split; [reflexivity | split; [discriminate | reflexivity]]. }
  vm_compute in Hend. discriminate.
Qed.

(** ** Claims on the base schedule generator *)

(** C4, as stated, fails: on an empty user list with a positive interval
    nothing is thrown, so "throws exactly when the interval is not positive
    or the user list is empty" is false at [configNoUsers]. *)
Lemma C4_empty_users_not_rejected :
  ~ ((exists msg, generateBaseSchedule configNoUsers 0 1 = Some (Thrown msg)) <->
     (interval_ms_of configNoUsers <= 0 \/ users configNoUsers = [])).
Proof.
  intros [_ Hthrow].
  destruct Hthrow as [msg Hmsg]; [right; reflexivity |].
  vm_compute in Hmsg. discriminate.
Qed.

(** What the generator does on [configNoUsers]: one shift, whose user is
    [undefined]. *)
Example generateBaseSchedule_no_users :
  generateBaseSchedule configNoUsers 0 1 =
  Some (Returned [mkShift None 0 86400000]).
Proof. reflexivity. Qed.

(** C4, amended: [generateBaseSchedule] throws exactly when the interval
    duration is not positive, whatever the user list; it throws before the
    loop has run at all (with no fuel for it), and for a positive interval,
    so for every valid configuration, it returns a schedule. *)
Theorem C4_throws_iff_interval_not_positive
    (config : ScheduleConfig) (from until : Z) :
  ((exists msg, generateBaseSchedule config from until = Some (Thrown msg)) <->
   interval_ms_of config <= 0) /\
  (interval_ms_of config <= 0 ->
   generateBaseSchedule_fuel 0 config from until =
   Some (Thrown "handover_interval_days must be greater than 0")) /\
  (0 < interval_ms_of config ->
   exists base, generateBaseSchedule config from until = Some (Returned base)) /\
  (valid_config config ->
   exists base, generateBaseSchedule config from until = Some (Returned base)).
Proof.
  assert (Hret : 0 < interval_ms_of config ->
                 exists base, generateBaseSchedule config from until = Some (Returned base)).
  { intros Hpos.
    destruct (generateBaseSchedule_returns config from until) as (base & Hbase & _).
    - unfold interval_ms_of, ms_per_day in Hpos. lia.
    - eauto. }
  repeat split.
  - intros [msg Hmsg].
    destruct (Z_le_gt_dec (interval_ms_of config) 0) as [Hle | Hgt]; [assumption |].
    destruct Hret as [base Hbase]; [lia | congruence].
  - intros Hle. unfold generateBaseSchedule, generateBaseSchedule_fuel.
    fold (interval_ms_of config).
    destruct (Z.leb_spec (interval_ms_of config) 0); [eauto | lia].
  - intros Hle. unfold generateBaseSchedule_fuel. fold (interval_ms_of config).
    destruct (Z.leb_spec (interval_ms_of config) 0); [reflexivity | lia].
  - exact Hret.
  - intros [_ Hdays]. apply Hret. apply interval_ms_pos, Hdays.
Qed.

(** C5, amended: for a valid configuration and a window [from < until]
    within [exact_range], the base
    schedule is returned and is not empty; its first shift starts at
    [anchor + floor((from - anchor) / interval) * interval], which is at most
    [from] and is the shift that holds [from]; the end of its last shift is
    at least [until]; every shift runs from [anchor + k * interval] to
    [anchor + (k + 1) * interval] for an integer [k]; and these are the
    shifts the code returns on its dates, all of them valid ones. *)
Theorem C5_base_covers_window (config : ScheduleConfig) (from until : Z) :
  valid_config config ->
  exact_range config from until ->
  from < until ->
  exists first rest,
    generateBaseSchedule config from until = Some (Returned (first :: rest)) /\
    start_at first =
      handover_start_at config
      + (from - handover_start_at config) / interval_ms_of config * interval_ms_of config /\
    start_at first <= from < end_at first /\
    until <= range_end (first :: rest) 0 /\
    Forall (fun sh => exists k : Z,
              start_at sh = handover_start_at config + k * interval_ms_of config /\
              end_at sh = handover_start_at config + (k + 1) * interval_ms_of config)
      (first :: rest) /\
    Dated.generateBaseSchedule config from until
    = Some (Returned (map dated (first :: rest))).
Proof.
  intros [_ Hdays] Hrange Hwindow.
  destruct (generateBaseSchedule_returns config from until Hdays) as (base & Hbase & _).
  pose proof (base_nonempty config from until base Hdays Hbase Hwindow) as Hne.
  pose proof (generateBaseSchedule_on_dates config from until base Hdays Hrange Hbase)
    as Hdates.
  destruct base as [| first rest]; [congruence |].
  exists first, rest. split; [assumption |].
  destruct (base_nth config from until _ Hdays Hbase 0 first eq_refl) as (Hs & He & _).
  pose proof (first_shift_start_le config from Hdays) as Hle.
  pose proof (first_shift_start_gt config from Hdays) as Hgt.
  unfold first_shift_start, intervals_passed_of in *.
  rewrite Z.add_0_r in Hs.
  repeat split; try lia.
  - rewrite (base_range_end config from until _ Hdays Hbase 0) by discriminate.
    pose proof (base_length config from until _ Hdays Hbase) as Hlen.
    unfold first_shift_start, intervals_passed_of in *. lia.
  - apply Forall_forall. intros sh Hin.
    destruct (In_nth_error _ _ Hin) as [k Hk].
    destruct (base_nth config from until _ Hdays Hbase k sh Hk) as (Hs' & He' & _).
    exists ((from - handover_start_at config) / interval_ms_of config + Z.of_nat k).
    unfold intervals_passed_of in *. split; lia.
  - exact Hdates.
Qed.

Lemma C5_base_covers_window_witness :
  valid_config Scenarios.configAB /\
  exact_range Scenarios.configAB (Scenarios.jan1 - 1)
    (Scenarios.jan1 + 3 * Scenarios.day) /\
  Scenarios.jan1 - 1 < Scenarios.jan1 + 3 * Scenarios.day /\
  exists first rest,
    generateBaseSchedule Scenarios.configAB (Scenarios.jan1 - 1)
      (Scenarios.jan1 + 3 * Scenarios.day) = Some (Returned (first :: rest)) /\
    start_at first <= Scenarios.jan1 - 1 < end_at first /\
    Scenarios.jan1 + 3 * Scenarios.day <= range_end (first :: rest) 0.
Proof.
  assert (Hvalid : valid_config Scenarios.configAB)
    by (split; [discriminate | reflexivity]).
  assert (Hwindow : Scenarios.jan1 - 1 < Scenarios.jan1 + 3 * Scenarios.day)
    by reflexivity.
  assert (Hrange : exact_range Scenarios.configAB (Scenarios.jan1 - 1)
                     (Scenarios.jan1 + 3 * Scenarios.day))
    by exact_range_holds.
  destruct (C5_base_covers_window Scenarios.configAB _ _ Hvalid Hrange Hwindow)
    as (first & rest & Hgen & _ & Hfrom & Hend & _).
  split; [exact Hvalid |]. split; [exact Hrange |]. split; [exact Hwindow |].
  exists first, rest. split; [exact Hgen |]. split; [exact Hfrom | exact Hend].
Defined.

(** C6: for a valid configuration with [N] users, a base shift that starts
    [i] intervals from the anchor, for any integer [i], negative ones
    included, is assigned [users[((i % N) + N) % N]]; that index is
    [i mod N], inside the user list, so the shift has a user; and at
    [i = -1] it is [N - 1]. *)
Theorem C6_cyclic_user_assignment
    (config : ScheduleConfig) (from until : Z)
    (base : list WorkingScheduleElement) (sh : WorkingScheduleElement) (i : Z) :
  valid_config config ->
  generateBaseSchedule config from until = Some (Returned base) ->
  In sh base ->
  start_at sh = handover_start_at config + i * interval_ms_of config ->
  let N := Z.of_nat (List.length (users config)) in
  user sh = JsNum.index (users config) (normalized_index i N) /\
  normalized_index i N = Some (i mod N) /\
  0 <= i mod N < N /\
  (exists u, user sh = Some u) /\
  (i = -1 -> user sh = nth_error (users config) (List.length (users config) - 1)).
Proof.
  intros [Husers Hdays] Hbase Hin Hstart N.
  assert (HN : 0 < N).
  { subst N. destruct (users config); [congruence | simpl; lia]. }
  pose proof (interval_ms_pos config Hdays) as Hpos.
  destruct (In_nth_error _ _ Hin) as [k Hk].
  destruct (base_nth config from until base Hdays Hbase k sh Hk) as (Hs & _ & _).
  assert (Hi : i = intervals_passed_of config from + Z.of_nat k) by nia.
  pose proof (base_nth_user config from until base Hdays Hbase k sh Husers Hk) as Huser.
  fold N in Huser. rewrite <- Hi in Huser.
  pose proof (Z.mod_pos_bound i N HN) as Hmod.
  assert (Hidx : JsNum.index (users config) (normalized_index i N)
                 = nth_error (users config) (Z.to_nat (i mod N))).
  { rewrite normalized_index_mod by assumption. unfold JsNum.index.
    destruct (Z.ltb_spec (i mod N) 0); [lia | reflexivity]. }
  split; [congruence |].
  split; [apply normalized_index_mod; assumption |].
  split; [assumption |].
  split.
  - rewrite Huser.
    destruct (nth_error (users config) (Z.to_nat (i mod N))) as [u |] eqn:Hu; [eauto |].
    apply nth_error_None in Hu. subst N. lia.
  - intros ->. rewrite Huser. f_equal.
    replace (-1 mod N) with (N - 1).
    + subst N. lia.
    + apply Z.mod_unique with (q := -1); lia.
Qed.

Lemma C6_cyclic_user_assignment_witness :
  user (mkShift (Some "B"%string) (Scenarios.jan1 - Scenarios.day) Scenarios.jan1)
  = nth_error (users Scenarios.configAB) 1.
Proof.
  assert (Hvalid : valid_config Scenarios.configAB)
    by (split; [discriminate | reflexivity]).
  exact (proj2 (proj2 (proj2 (proj2
    (C6_cyclic_user_assignment Scenarios.configAB
       (Scenarios.jan1 - Scenarios.day / 2) (Scenarios.jan1 + Scenarios.day)
       _ (mkShift (Some "B"%string) (Scenarios.jan1 - Scenarios.day) Scenarios.jan1)
       (-1) Hvalid eq_refl (or_introl eq_refl) eq_refl)))) eq_refl).
Defined.

(** ** The stable sort by start *)

Lemma insertByStart_perm (x : WorkingScheduleElement) (l : list WorkingScheduleElement) :
  Permutation (insertByStart x l) (x :: l).
Proof.
  induction l as [| y l IH]; simpl.
  - apply Permutation_refl.
  - destruct (start_at x <=? start_at y).
    + apply Permutation_refl.
    + eapply perm_trans; [apply perm_skip, IH | apply perm_swap].
Qed.

Lemma sortByStart_perm (l : list WorkingScheduleElement) :
  Permutation (sortByStart l) l.
Proof.
  induction l as [| x l IH]; simpl.
  - apply perm_nil.
  - eapply perm_trans; [apply insertByStart_perm | apply perm_skip, IH].
Qed.

Lemma insertByStart_sorted (x : WorkingScheduleElement) (l : list WorkingScheduleElement) :
  sorted_by_start l -> sorted_by_start (insertByStart x l).
Proof.
  unfold sorted_by_start.
  induction l as [| y l IH]; intros Hl; simpl.
  - repeat constructor.
  - apply StronglySorted_inv in Hl as [Hl Hy].
    destruct (Z.leb_spec (start_at x) (start_at y)) as [Hxy | Hxy].
    + constructor; [constructor; assumption |].
      constructor; [assumption |].
      eapply Forall_impl; [| exact Hy]. simpl. intros; lia.
    + constructor; [apply IH; assumption |].
      eapply Permutation_Forall; [apply Permutation_sym, insertByStart_perm |].
      constructor; [lia | assumption].
Qed.

Lemma sortByStart_sorted (l : list WorkingScheduleElement) :
  sorted_by_start (sortByStart l).
Proof.
  induction l as [| x l IH]; simpl.
  - constructor.
  - apply insertByStart_sorted, IH.
Qed.

(** Elements with the same start keep the order they had. *)
Lemma insertByStart_stable (k : Z) (x : WorkingScheduleElement)
    (l : list WorkingScheduleElement) :
  filter (fun y => start_at y =? k) (insertByStart x l)
  = filter (fun y => start_at y =? k) (x :: l).
Proof.
  induction l as [| y l IH]; [reflexivity |].
  cbn [insertByStart]. destruct (Z.leb_spec (start_at x) (start_at y)) as [Hxy | Hxy].
  - reflexivity.
  - cbn [filter] in *. rewrite IH.
    destruct (Z.eqb_spec (start_at x) k), (Z.eqb_spec (start_at y) k);
      try reflexivity; lia.
Qed.

Lemma sortByStart_stable (k : Z) (l : list WorkingScheduleElement) :
  filter (fun y => start_at y =? k) (sortByStart l)
  = filter (fun y => start_at y =? k) l.
Proof.
  induction l as [| x l IH]; [reflexivity |].
  cbn [sortByStart]. rewrite insertByStart_stable. cbn [filter]. rewrite IH. reflexivity.
Qed.

(** ** The users assigned to an instant *)

Lemma assigned_app (l1 l2 : list WorkingScheduleElement) (t : Z) :
  assigned (l1 ++ l2) t = assigned l1 t ++ assigned l2 t.
Proof. unfold assigned. rewrite filter_app, map_app. reflexivity. Qed.

Lemma assigned_cons (x : WorkingScheduleElement) (l : list WorkingScheduleElement) (t : Z) :
  assigned (x :: l) t = assigned [x] t ++ assigned l t.
Proof. exact (assigned_app [x] l t). Qed.

Lemma assigned_perm (l1 l2 : list WorkingScheduleElement) (t : Z) :
  Permutation l1 l2 -> Permutation (assigned l1 t) (assigned l2 t).
Proof.
  intros Hp. unfold assigned. apply Permutation_map.
  induction Hp; simpl.
  - apply perm_nil.
  - destruct (contains x t); [apply perm_skip |]; assumption.
  - destruct (contains x t), (contains y t);
      try apply Permutation_refl. apply perm_swap.
  - eapply perm_trans; eassumption.
Qed.

Lemma assigned_flat_map (f : WorkingScheduleElement -> list WorkingScheduleElement)
    (l : list WorkingScheduleElement) (t : Z) :
  assigned (flat_map f l) t = flat_map (fun x => assigned (f x) t) l.
Proof.
  induction l as [| x l IH]; simpl; [reflexivity |].
  rewrite assigned_app, IH. reflexivity.
Qed.

Lemma assigned_single (x : WorkingScheduleElement) (t : Z) :
  assigned [x] t = if contains x t then [user x] else [].
Proof. unfold assigned. simpl. destruct (contains x t); reflexivity. Qed.

(** What one shift leaves at the instant [t] under an override: nothing
    inside the override, itself outside. *)
Lemma splitShift_assigned (o s : WorkingScheduleElement) (t : Z) :
  start_at o <= end_at o ->
  assigned (splitShift o s) t = if contains o t then [] else assigned [s] t.
Proof.
  intros Ho. rewrite assigned_single. unfold splitShift, contains.
  destruct o as [uo a b], s as [us p q]. cbn [start_at end_at user] in *.
  destruct (Z.ltb_spec a q), (Z.ltb_spec p b), (Z.ltb_spec p a), (Z.ltb_spec b q);
    cbn [negb andb app]; unfold assigned, contains; cbn [filter map start_at end_at user];
    compare_cases; cbn [andb map user]; try reflexivity; lia.
Qed.

Lemma flat_map_splitShift_assigned (o : WorkingScheduleElement)
    (l : list WorkingScheduleElement) (t : Z) :
  start_at o <= end_at o ->
  assigned (flat_map (splitShift o) l) t = if contains o t then [] else assigned l t.
Proof.
  intros Ho. induction l as [| s l IH]; simpl.
  - destruct (contains o t); reflexivity.
  - rewrite assigned_app, IH, splitShift_assigned, (assigned_cons s l) by assumption.
    destruct (contains o t); reflexivity.
Qed.

(** One override applied: the instants of the override go to its user, the
    other instants keep what they had. *)
Lemma applyOverride_assigned (w : list WorkingScheduleElement)
    (o : WorkingScheduleElement) (t : Z) :
  start_at o <= end_at o ->
  Permutation (assigned (applyOverride w o) t)
              (if contains o t then [user o] else assigned w t).
Proof.
  intros Ho. unfold applyOverride.
  eapply perm_trans; [apply assigned_perm, sortByStart_perm |].
  rewrite assigned_app, flat_map_splitShift_assigned, assigned_single by assumption.
  destruct (contains o t); [apply Permutation_refl |].
  rewrite app_nil_r. apply Permutation_refl.
Qed.

(** ** Invariants of a fold over the overrides *)

Lemma fold_left_invariant {A B : Type} (P : A -> Prop) (Q : B -> Prop)
    (f : A -> B -> A) (l : list B) :
  (forall a b, P a -> Q b -> P (f a b)) ->
  Forall Q l ->
  forall a, P a -> P (fold_left f l a).
Proof.
  intros Hstep Hl. induction Hl as [| b l Hb _ IH]; intros a Ha; simpl.
  - assumption.
  - apply IH, Hstep; assumption.
Qed.

Lemma Forall_sortByStart (Q : WorkingScheduleElement -> Prop)
    (l : list WorkingScheduleElement) :
  Forall Q l -> Forall Q (sortByStart l).
Proof. apply Permutation_Forall, Permutation_sym, sortByStart_perm. Qed.

Lemma valid_override_le (o : WorkingScheduleElement) :
  valid_override o -> start_at o <= end_at o.
Proof. unfold valid_override. lia. Qed.

Lemma assigned_nil (l : list WorkingScheduleElement) (t : Z) :
  assigned l t = [] <-> (forall x, In x l -> contains x t = false).
Proof.
  induction l as [| y l IH].
  - simpl. split; [intros _ x [] | reflexivity].
  - rewrite assigned_cons, assigned_single. split.
    + intros H x [<- | Hx].
      * destruct (contains y t); [discriminate | reflexivity].
      * destruct (contains y t); [discriminate |]. apply IH; assumption.
    + intros H. rewrite (H y (or_introl eq_refl)). simpl.
      apply IH. intros x Hx. apply H. right. assumption.
Qed.

(** Overrides that hold no instant in common with [o]. *)
Lemma exclusive_others (l1 l2 : list WorkingScheduleElement)
    (o : WorkingScheduleElement) (t : Z) :
  exclusive (l1 ++ o :: l2) ->
  contains o t = true ->
  forall x, In x (l1 ++ l2) -> contains x t = false.
Proof.
  intros Hex Ho. specialize (Hex t).
  rewrite assigned_app, assigned_cons, assigned_single, Ho in Hex.
  rewrite !length_app in Hex. simpl in Hex.
  intros x Hx. apply in_app_or in Hx.
  assert (H1 : assigned l1 t = []) by (apply length_zero_iff_nil; lia).
  assert (H2 : assigned l2 t = []) by (apply length_zero_iff_nil; lia).
  destruct Hx as [Hx | Hx]; [apply (proj1 (assigned_nil l1 t) H1) |
                             apply (proj1 (assigned_nil l2 t) H2)]; assumption.
Qed.

Lemma exclusive_perm (l1 l2 : list WorkingScheduleElement) :
  Permutation l1 l2 -> exclusive l1 -> exclusive l2.
Proof.
  intros Hp Hex t.
  rewrite <- (Permutation_length (assigned_perm l1 l2 t Hp)). apply Hex.
Qed.

Lemma exclusive_tail (x : WorkingScheduleElement) (l : list WorkingScheduleElement) :
  exclusive (x :: l) -> exclusive l.
Proof.
  intros Hex t. specialize (Hex t). rewrite assigned_cons, length_app in Hex. lia.
Qed.

(** Mutually non-overlapping overrides hold no instant in common. *)
Lemma non_overlapping_exclusive (l : list WorkingScheduleElement) :
  non_overlapping l -> exclusive l.
Proof.
  unfold non_overlapping. intros Hl.
  induction Hl as [| a l Ha _ IH]; intros t.
  - simpl. lia.
  - rewrite assigned_cons, assigned_single, length_app.
    destruct (contains a t) eqn:Hat; [| apply IH].
    replace (assigned l t) with (@nil (option string)); [simpl; lia |].
    symmetry. apply assigned_nil. intros x Hx.
    rewrite Forall_forall in Ha. specialize (Ha x Hx).
    destruct (contains x t) eqn:Hxt; [| reflexivity].
    exfalso. apply Ha. unfold overlaps, contains in *.
    apply andb_prop in Hat as [H1 H2], Hxt as [H3 H4]. lia.
Qed.

Section FoldOverrides.

Variable t : Z.

Lemma fold_assigned_congr (l : list WorkingScheduleElement) :
  Forall (fun o => start_at o <= end_at o) l ->
  forall w1 w2,
    Permutation (assigned w1 t) (assigned w2 t) ->
    Permutation (assigned (fold_left applyOverride l w1) t)
                (assigned (fold_left applyOverride l w2) t).
Proof.
  intros Hl. induction Hl as [| o l Ho _ IH]; intros w1 w2 Hw; simpl.
  - assumption.
  - apply IH.
    eapply perm_trans; [apply applyOverride_assigned; assumption |].
    eapply perm_trans; [| apply Permutation_sym, applyOverride_assigned; assumption].
    destruct (contains o t); [apply Permutation_refl | assumption].
Qed.

Lemma fold_assigned_outside (l : list WorkingScheduleElement) :
  Forall (fun o => start_at o <= end_at o) l ->
  (forall o, In o l -> contains o t = false) ->
  forall w,
    Permutation (assigned (fold_left applyOverride l w) t) (assigned w t).
Proof.
  intros Hl. induction Hl as [| o l Ho _ IH]; intros Hout w; simpl.
  - apply Permutation_refl.
  - eapply perm_trans; [apply IH; intros; apply Hout; right; assumption |].
    eapply perm_trans; [apply applyOverride_assigned; assumption |].
    rewrite (Hout o (or_introl eq_refl)). apply Permutation_refl.
Qed.

End FoldOverrides.

(** ** Claims on the override applier, instant by instant *)

(** C2: with overrides that satisfy the invariant of the data model
    ([start < end], mutually non-overlapping), every instant [t] of the
    half-open interval of an override [o] is assigned, in the schedule
    returned by [applyOverrides] on any base schedule, to the user of [o]
    and to nobody else; and a shift of positive duration that [o] covers
    exactly or more than covers leaves no remnant at all under [o]. *)
Theorem C2_override_precedence
    (baseSchedule overrides : list WorkingScheduleElement)
    (o : WorkingScheduleElement) (t : Z) :
  Forall valid_override overrides ->
  non_overlapping overrides ->
  In o overrides ->
  start_at o <= t < end_at o ->
  assigned (applyOverrides baseSchedule overrides) t = [user o] /\
  (forall shift,
      positive_duration shift ->
      start_at o <= start_at shift -> end_at shift <= end_at o ->
      splitShift o shift = []).
Proof.
  intros Hvalid Hdisj Hin Ht. split.
  - unfold applyOverrides.
    assert (Hle : Forall (fun o => start_at o <= end_at o) (sortByStart overrides)).
    { apply Forall_sortByStart. eapply Forall_impl; [| exact Hvalid].
      exact valid_override_le. }
    assert (Hex : exclusive (sortByStart overrides)).
    { eapply exclusive_perm; [apply Permutation_sym, sortByStart_perm |].
      apply non_overlapping_exclusive, Hdisj. }
    assert (Hin' : In o (sortByStart overrides)).
    { eapply Permutation_in; [apply Permutation_sym, sortByStart_perm | exact Hin]. }
    destruct (in_split _ _ Hin') as (l1 & l2 & Hsplit).
    rewrite Hsplit in *. clear Hsplit Hin'.
    assert (Hot : contains o t = true).
    { unfold contains. apply andb_true_intro. split; [apply Z.leb_le | apply Z.ltb_lt]; lia. }
    pose proof (exclusive_others _ _ _ _ Hex Hot) as Hothers.
    apply Forall_app in Hle as [_ Hle]. apply Forall_cons_iff in Hle as [Ho Hle2].
    rewrite fold_left_app. simpl.
    apply Permutation_length_1_inv. apply Permutation_sym.
    eapply perm_trans.
    + apply fold_assigned_outside; [assumption |].
      intros x Hx. apply Hothers. apply in_or_app. right. assumption.
    + eapply perm_trans; [apply applyOverride_assigned; assumption |].
      rewrite Hot. apply Permutation_refl.
  - intros shift Hpos Hs He. unfold splitShift, positive_duration in *.
    compare_cases; cbn [negb andb app]; try reflexivity; lia.
Qed.

(** ** Sortedness read off the positions of a list *)

Lemma Sorted_of_nth {A : Type} (R : A -> A -> Prop) (l : list A) :
  (forall k x y, nth_error l k = Some x -> nth_error l (S k) = Some y -> R x y) ->
  Sorted R l.
Proof.
  induction l as [| a l IH]; intros H; constructor.
  - apply IH. intros k x y Hx Hy. exact (H (S k) x y Hx Hy).
  - destruct l as [| b l]; constructor. exact (H 0%nat a b eq_refl eq_refl).
Qed.

Lemma StronglySorted_of_nth {A : Type} (R : A -> A -> Prop) (l : list A) :
  (forall i j x y, (i < j)%nat ->
     nth_error l i = Some x -> nth_error l j = Some y -> R x y) ->
  StronglySorted R l.
Proof.
  induction l as [| a l IH]; intros H; constructor.
  - apply IH. intros i j x y Hij Hx Hy. apply (H (S i) (S j) x y); [lia | assumption ..].
  - apply Forall_forall. intros y Hy. destruct (In_nth_error _ _ Hy) as [j Hj].
    apply (H 0%nat (S j) a y); [lia | reflexivity | assumption].
Qed.

Lemma separated_exclusive (l : list WorkingScheduleElement) :
  separated l -> exclusive l.
Proof.
  unfold separated. intros Hl. induction Hl as [| a l _ IH Ha]; intros t.
  - simpl. lia.
  - rewrite assigned_cons, assigned_single, length_app.
    destruct (contains a t) eqn:Hat; [| apply IH].
    replace (assigned l t) with (@nil (option string)); [simpl; lia |].
    symmetry. apply assigned_nil. intros x Hx.
    rewrite Forall_forall in Ha. specialize (Ha x Hx).
    unfold contains in *. apply andb_prop in Hat as [H1 H2].
    apply Z.ltb_lt in H2. apply andb_false_intro1. apply Z.leb_gt. lia.
Qed.

(** A schedule sorted by start, in which no instant is held twice: the
    shifts of positive duration are separated. *)
Lemma sorted_exclusive_separated (l : list WorkingScheduleElement) :
  sorted_by_start l ->
  exclusive l ->
  StronglySorted (fun a b => positive_duration a -> positive_duration b ->
                             end_at a <= start_at b) l.
Proof.
  unfold sorted_by_start. intros Hl.
  induction Hl as [| a l _ IH Ha]; intros Hex; constructor.
  - apply IH. eapply exclusive_tail, Hex.
  - rewrite Forall_forall in *. intros y Hy Hpa Hpy.
    specialize (Ha y Hy). unfold positive_duration in *.
    destruct (Z_le_gt_dec (end_at a) (start_at y)) as [Hle | Hgt]; [assumption |].
    exfalso. specialize (Hex (start_at y)).
    rewrite assigned_cons, assigned_single, length_app in Hex.
    assert (Hca : contains a (start_at y) = true).
    { unfold contains. apply andb_true_intro.
      split; [apply Z.leb_le | apply Z.ltb_lt]; lia. }
    rewrite Hca in Hex. simpl in Hex.
    assert (Hnil : assigned l (start_at y) = []) by (apply length_zero_iff_nil; lia).
    pose proof (proj1 (assigned_nil _ _) Hnil y Hy) as Hcy.
    unfold contains in Hcy. apply andb_false_elim in Hcy as [Hcy | Hcy];
      [apply Z.leb_gt in Hcy | apply Z.ltb_ge in Hcy]; lia.
Qed.

Lemma sorted_exclusive_positive_separated (l : list WorkingScheduleElement) :
  sorted_by_start l -> exclusive l -> Forall positive_duration l -> separated l.
Proof.
  intros Hs Hex Hpos. pose proof (sorted_exclusive_separated l Hs Hex) as H.
  unfold separated. induction H as [| a l _ IH Ha]; constructor.
  - apply IH.
    + apply StronglySorted_inv in Hs. tauto.
    + eapply exclusive_tail, Hex.
    + apply Forall_inv_tail in Hpos. assumption.
  - apply Forall_cons_iff in Hpos as [Hpa Hpl].
    rewrite Forall_forall in *. intros y Hy. apply Ha; auto.
Qed.

(** ** Validity of the base schedule *)

Section BaseValidity.

Variable config : ScheduleConfig.
Variables from until : Z.
Variable base : list WorkingScheduleElement.
Hypothesis days_pos : 0 < handover_interval_days config.
Hypothesis base_generated :
  generateBaseSchedule config from until = Some (Returned base).

Let nth_facts := base_nth config from until base days_pos base_generated.
Let interval_pos := interval_ms_pos config days_pos.

Lemma base_positive : Forall positive_duration base.
Proof using days_pos base_generated.
  apply Forall_forall. intros sh Hin. destruct (In_nth_error _ _ Hin) as [k Hk].
  destruct (nth_facts k sh Hk) as (_ & He & _). unfold positive_duration.
  pose proof interval_pos. lia.
Qed.

Lemma base_gapless : gapless base.
Proof using days_pos base_generated.
  apply Sorted_of_nth. intros k x y Hx Hy.
  destruct (nth_facts _ _ Hx) as (Hsx & Hex & _).
  destruct (nth_facts _ _ Hy) as (Hsy & _ & _). lia.
Qed.

Lemma base_separated : separated base.
Proof using days_pos base_generated.
  apply StronglySorted_of_nth. intros i j x y Hij Hx Hy.
  destruct (nth_facts _ _ Hx) as (Hsx & Hex & _).
  destruct (nth_facts _ _ Hy) as (Hsy & _ & _).
  pose proof interval_pos. nia.
Qed.

Lemma base_sorted : sorted_by_start base.
Proof using days_pos base_generated.
  apply StronglySorted_of_nth. intros i j x y Hij Hx Hy.
  destruct (nth_facts _ _ Hx) as (Hsx & _ & _).
  destruct (nth_facts _ _ Hy) as (Hsy & _ & _).
  pose proof interval_pos. nia.
Qed.

Lemma base_strictly_sorted :
  StronglySorted (fun a b => start_at a < start_at b) base.
Proof using days_pos base_generated.
  apply StronglySorted_of_nth. intros i j x y Hij Hx Hy.
  destruct (nth_facts _ _ Hx) as (Hsx & _ & _).
  destruct (nth_facts _ _ Hy) as (Hsy & _ & _).
  pose proof interval_pos. nia.
Qed.

(** Every instant of the generated range is held by a base shift. *)
Lemma base_covers (t : Z) :
  first_shift_start config from <= t < range_end base (first_shift_start config from) ->
  exists sh, In sh base /\ contains sh t = true.
Proof using days_pos base_generated.
  intros Ht. pose proof interval_pos as Hpos.
  assert (Hne : base <> []).
  { intros Hnil. rewrite Hnil in Ht. unfold range_end in Ht. simpl in Ht. lia. }
  rewrite (base_range_end config from until base days_pos base_generated _ Hne) in Ht.
  set (k := (t - first_shift_start config from) / interval_ms_of config).
  assert (Hk : 0 <= k < Z.of_nat (List.length base)).
  { subst k. split.
    - apply Z.div_pos; lia.
    - apply Z.div_lt_upper_bound; lia. }
  destruct (nth_error base (Z.to_nat k)) as [sh |] eqn:Hsh.
  - exists sh. split; [eapply nth_error_In; eassumption |].
    destruct (nth_facts _ _ Hsh) as (Hs & He & _).
    rewrite Z2Nat.id in Hs by lia. unfold first_shift_start in *.
    pose proof (Z.mul_div_le (t - (handover_start_at config
                  + intervals_passed_of config from * interval_ms_of config))
                  (interval_ms_of config) Hpos) as H1.
    pose proof (Z.mul_succ_div_gt (t - (handover_start_at config
                  + intervals_passed_of config from * interval_ms_of config))
                  (interval_ms_of config) Hpos) as H2.
    fold k in H1, H2. unfold contains. apply andb_true_intro.
    split; [apply Z.leb_le | apply Z.ltb_lt]; lia.
  - apply nth_error_None in Hsh. lia.
Qed.

End BaseValidity.

(** ** Invariants of the working schedule *)

Lemma applyOverride_sorted (w : list WorkingScheduleElement) (o : WorkingScheduleElement) :
  sorted_by_start (applyOverride w o).
Proof. apply sortByStart_sorted. Qed.

Lemma applyOverrides_sorted (base overrides : list WorkingScheduleElement) :
  sorted_by_start base -> sorted_by_start (applyOverrides base overrides).
Proof.
  intros Hbase. unfold applyOverrides.
  apply (fold_left_invariant sorted_by_start (fun _ => True)); auto.
  - intros. apply applyOverride_sorted.
  - apply Forall_forall. auto.
Qed.

Lemma applyOverride_exclusive (w : list WorkingScheduleElement) (o : WorkingScheduleElement) :
  exclusive w -> start_at o <= end_at o -> exclusive (applyOverride w o).
Proof.
  intros Hw Ho t.
  rewrite (Permutation_length (applyOverride_assigned w o t Ho)).
  destruct (contains o t); [simpl; lia | apply Hw].
Qed.

Lemma applyOverrides_exclusive (base overrides : list WorkingScheduleElement) :
  exclusive base ->
  Forall (fun o => start_at o <= end_at o) overrides ->
  exclusive (applyOverrides base overrides).
Proof.
  intros Hbase Hovs. unfold applyOverrides.
  apply (fold_left_invariant exclusive (fun o => start_at o <= end_at o)); auto.
  - apply applyOverride_exclusive.
  - apply Forall_sortByStart, Hovs.
Qed.

Lemma splitShift_positive (o s : WorkingScheduleElement) :
  positive_duration s -> Forall positive_duration (splitShift o s).
Proof.
  unfold splitShift, positive_duration. intros Hs.
  compare_cases; cbn [negb andb app]; repeat constructor;
    cbn [start_at end_at]; lia.
Qed.

Lemma applyOverride_positive (w : list WorkingScheduleElement) (o : WorkingScheduleElement) :
  Forall positive_duration w -> valid_override o ->
  Forall positive_duration (applyOverride w o).
Proof.
  intros Hw Ho. unfold applyOverride.
  eapply Permutation_Forall; [apply Permutation_sym, sortByStart_perm |].
  apply Forall_app. split; [| repeat constructor; exact Ho].
  apply Forall_flat_map. eapply Forall_impl; [| exact Hw].
  intros s Hs. apply splitShift_positive, Hs.
Qed.

Lemma applyOverrides_positive (base overrides : list WorkingScheduleElement) :
  Forall positive_duration base ->
  Forall valid_override overrides ->
  Forall positive_duration (applyOverrides base overrides).
Proof.
  intros Hbase Hovs. unfold applyOverrides.
  apply (fold_left_invariant (Forall positive_duration) valid_override); auto.
  - apply applyOverride_positive.
  - apply Forall_sortByStart, Hovs.
Qed.

(** An instant held by the working schedule is still held after an
    override. *)
Lemma applyOverrides_covers (base overrides : list WorkingScheduleElement) (t : Z) :
  Forall (fun o => start_at o <= end_at o) overrides ->
  assigned base t <> [] ->
  assigned (applyOverrides base overrides) t <> [].
Proof.
  intros Hovs Hbase. unfold applyOverrides.
  apply (fold_left_invariant (fun w => assigned w t <> [])
           (fun o => start_at o <= end_at o)); auto.
  - intros w o Hw Ho Hnil.
    pose proof (applyOverride_assigned w o t Ho) as Hp. rewrite Hnil in Hp.
    apply Permutation_nil in Hp. destruct (contains o t); [discriminate | auto].
  - apply Forall_sortByStart, Hovs.
Qed.

(** Separated shifts of positive duration that hold every instant of
    [[lo, hi)] from [floor] on are gapless within [[lo, hi)]. *)
Lemma separated_covering_gapless (lo hi : Z) (l : list WorkingScheduleElement) :
  lo < hi ->
  separated l ->
  Forall positive_duration l ->
  forall floor,
    Forall (fun sh => floor <= start_at sh) l ->
    (forall t, lo <= t < hi -> floor <= t -> assigned l t <> []) ->
    gapless_within lo hi l.
Proof.
  unfold separated, gapless_within. intros Hrange Hsep.
  induction Hsep as [| a l Hsep IH Ha]; intros Hpos floor Hfloor Hcover;
    constructor.
  - apply Forall_cons_iff in Hpos as [Hpa Hpl].
    apply Forall_cons_iff in Hfloor as [Hfa Hfl].
    apply (IH Hpl (end_at a)); [assumption |].
    intros t Ht Hta Hnil. unfold positive_duration in Hpa.
    apply (Hcover t Ht); [lia |].
    rewrite assigned_cons, assigned_single, Hnil.
    unfold contains. rewrite (proj2 (Z.ltb_ge t (end_at a)) Hta), andb_false_r.
    reflexivity.
  - destruct l as [| b l]; constructor.
    apply Forall_cons_iff in Ha as [Hab Hal].
    split; [assumption |].
    destruct (Z.eq_dec (end_at a) (start_at b)) as [Heq | Hneq]; [left; assumption |].
    right.
    destruct (Z_le_gt_dec (start_at b) lo) as [Hblo | Hblo]; [left; assumption |].
    destruct (Z_le_gt_dec hi (end_at a)) as [Hahi | Hahi]; [right; assumption |].
    exfalso.
    apply Forall_cons_iff in Hpos as [Hpa Hpl].
    apply Forall_cons_iff in Hfloor as [Hfa _].
    apply Forall_cons_iff in Hpl as [Hpb _].
    unfold positive_duration in *.
    apply (Hcover (Z.max (end_at a) lo)); [lia | lia |].
    apply assigned_nil. intros x [<- | [<- | Hx]]; unfold contains.
    + apply andb_false_intro2. apply Z.ltb_ge. lia.
    + apply andb_false_intro1. apply Z.leb_gt. lia.
    + apply StronglySorted_inv in Hsep as [_ Hb].
      rewrite Forall_forall in Hb. specialize (Hb x Hx).
      apply andb_false_intro1. apply Z.leb_gt. lia.
Qed.

Lemma separated_positive_strictly_sorted (l : list WorkingScheduleElement) :
  separated l -> Forall positive_duration l ->
  StronglySorted (fun a b => start_at a < start_at b) l.
Proof.
  unfold separated. intros Hsep. induction Hsep as [| a l _ IH Ha]; intros Hpos;
    constructor.
  - apply IH. apply Forall_inv_tail in Hpos. assumption.
  - apply Forall_inv in Hpos. unfold positive_duration in Hpos.
    eapply Forall_impl; [| exact Ha]. simpl. intros; lia.
Qed.

Lemma contains_true (sh : WorkingScheduleElement) (t : Z) :
  contains sh t = true <-> start_at sh <= t < end_at sh.
Proof.
  unfold contains. rewrite andb_true_iff, Z.leb_le, Z.ltb_lt. reflexivity.
Qed.

Lemma contains_false (sh : WorkingScheduleElement) (t : Z) :
  contains sh t = false <-> ~ (start_at sh <= t < end_at sh).
Proof.
  rewrite <- contains_true. destruct (contains sh t); split; congruence.
Qed.

Lemma assigned_holder (l : list WorkingScheduleElement) (sh : WorkingScheduleElement) (t : Z) :
  exclusive l -> In sh l -> contains sh t = true -> assigned l t = [user sh].
Proof.
  intros Hex Hin Ht. destruct (in_split _ _ Hin) as (l1 & l2 & ->).
  pose proof (exclusive_others _ _ _ _ Hex Ht) as Hothers.
  rewrite assigned_app, assigned_cons, assigned_single, Ht.
  rewrite (proj2 (assigned_nil l1 t)), (proj2 (assigned_nil l2 t)); [reflexivity | |];
    intros x Hx; apply Hothers, in_or_app; auto.
Qed.

Lemma perm_short_eq {A : Type} (l1 l2 : list A) :
  (List.length l2 <= 1)%nat -> Permutation l1 l2 -> l1 = l2.
Proof.
  intros Hlen Hp. destruct l2 as [| a [| b l2]]; simpl in Hlen; [| | lia].
  - apply Permutation_nil, Permutation_sym, Hp.
  - apply Permutation_length_1_inv, Permutation_sym, Hp.
Qed.

(** ** Claims on the validity of schedules *)

(** C1, amended: for a valid configuration and a window [from < until]
    within [exact_range], the base
    schedule is sorted by start ascending and gapless; and for overrides of
    the data model (valid dates, [start < end], mutually non-overlapping) the schedule
    returned by [applyOverrides] is sorted by start ascending, its
    consecutive shifts never overlap, and it is gapless within the generated
    range, which reaches from a start at most [from] to an end at least
    [until]: two consecutive shifts either meet or leave between them only
    instants outside that range, and every instant of the range is held by
    exactly one shift.  These are the schedules the code returns on its
    dates, all of them valid ones.  (The proof does not use that the
    overrides are mutually non-overlapping.) *)
Theorem C1_schedule_validity
    (config : ScheduleConfig) (from until : Z)
    (overrides : list WorkingScheduleElement) :
  valid_config config ->
  exact_range config from until ->
  from < until ->
  Forall valid_dates overrides ->
  Forall valid_override overrides ->
  non_overlapping overrides ->
  exists base,
    generateBaseSchedule config from until = Some (Returned base) /\
    sorted_by_start base /\
    gapless base /\
    let lo := first_shift_start config from in
    let hi := range_end base lo in
    lo <= from /\ until <= hi /\
    sorted_by_start (applyOverrides base overrides) /\
    gapless_within lo hi (applyOverrides base overrides) /\
    (forall t, lo <= t < hi ->
               exists u, assigned (applyOverrides base overrides) t = [u]) /\
    Dated.generateBaseSchedule config from until = Some (Returned (map dated base)) /\
    Dated.applyOverrides (map dated base) (map dated overrides)
    = Some (map dated (applyOverrides base overrides)).
Proof.
  intros [_ Hdays] Hexact Hwindow _ Hvalid _.
  destruct (generateBaseSchedule_returns config from until Hdays) as (base & Hbase & _).
  exists base. split; [assumption |].
  pose proof (base_sorted config from until base Hdays Hbase) as Hsorted.
  pose proof (base_nonempty config from until base Hdays Hbase Hwindow) as Hne.
  pose proof (base_range_end config from until base Hdays Hbase
                (first_shift_start config from) Hne) as Hend.
  pose proof (base_length config from until base Hdays Hbase) as Hlen.
  pose proof (first_shift_start_le config from Hdays) as Hlo.
  assert (Hle : Forall (fun o => start_at o <= end_at o) overrides).
  { eapply Forall_impl; [| exact Hvalid]. exact valid_override_le. }
  split; [assumption |].
  split; [apply (base_gapless config from until base Hdays Hbase) |].
  cbv zeta. split; [assumption |]. split; [rewrite Hend; exact Hlen |].
  pose proof (applyOverrides_sorted base overrides Hsorted) as Hres_sorted.
  split; [assumption |].
  assert (Hres_pos : Forall positive_duration (applyOverrides base overrides)).
  { apply applyOverrides_positive; [| assumption].
    apply (base_positive config from until base Hdays Hbase). }
  assert (Hres_ex : exclusive (applyOverrides base overrides)).
  { apply applyOverrides_exclusive; [| assumption].
    apply separated_exclusive, (base_separated config from until base Hdays Hbase). }
  assert (Hres_sep : separated (applyOverrides base overrides))
    by (apply sorted_exclusive_positive_separated; assumption).
  assert (Hcover : forall t,
             first_shift_start config from <= t
               < range_end base (first_shift_start config from) ->
             assigned (applyOverrides base overrides) t <> []).
  { intros t Ht. apply applyOverrides_covers; [assumption |].
    destruct (base_covers config from until base Hdays Hbase t Ht) as (sh & Hin & Hsh).
    intros Hnil. rewrite (proj1 (assigned_nil _ _) Hnil sh Hin) in Hsh. discriminate. }
  assert (Hrange : first_shift_start config from
                   < range_end base (first_shift_start config from))
    by (rewrite Hend; lia).
  split; [| split; [| split]].
  - destruct (applyOverrides base overrides) as [| a l] eqn:Hres; [constructor |].
    apply (separated_covering_gapless _ _ _ Hrange Hres_sep Hres_pos (start_at a)).
    + constructor; [lia |].
      apply StronglySorted_inv in Hres_sorted as [_ Ha]. exact Ha.
    + intros t Ht _. apply Hcover, Ht.
  - intros t Ht. specialize (Hcover t Ht). specialize (Hres_ex t).
    destruct (assigned (applyOverrides base overrides) t) as [| u [| u' rest]];
      [congruence | eauto | simpl in Hres_ex; lia].
  - exact (generateBaseSchedule_on_dates config from until base Hdays Hexact Hbase).
  - apply applyOverrides_on_dates.
Qed.

(** What the schedule holds after one override: the override, and what
    each shift of the working schedule leaves under it. *)
Lemma In_applyOverride (w : list WorkingScheduleElement)
    (o x : WorkingScheduleElement) :
  In x (applyOverride w o) <->
  x = o \/ exists shift, In shift w /\ In x (splitShift o shift).
Proof.
  unfold applyOverride. split.
  - intros Hin.
    apply (Permutation_in _ (sortByStart_perm _)) in Hin.
    apply in_app_or in Hin as [Hin | [<- | []]]; [right | left; reflexivity].
    apply in_flat_map in Hin. exact Hin.
  - intros Hx.
    apply (Permutation_in _ (Permutation_sym (sortByStart_perm _))).
    apply in_or_app. destruct Hx as [-> | Hx]; [right; left; reflexivity | left].
    apply in_flat_map. exact Hx.
Qed.

Lemma splitShift_apart (o shift : WorkingScheduleElement) :
  ~ overlaps o shift -> splitShift o shift = [shift].
Proof.
  intros Hno. unfold splitShift, overlaps in *.
  destruct (Z.ltb_spec (start_at o) (end_at shift)),
           (Z.ltb_spec (start_at shift) (end_at o));
    cbn [negb andb]; try reflexivity; lia.
Qed.

Lemma splitShift_overlapping (o shift : WorkingScheduleElement) :
  overlaps o shift ->
  splitShift o shift =
    (if start_at shift <? start_at o
     then [mkShift (user shift) (start_at shift) (start_at o)] else [])
    ++
    (if end_at o <? end_at shift
     then [mkShift (user shift) (end_at o) (end_at shift)] else []).
Proof.
  intros [H1 H2]. unfold splitShift.
  rewrite (proj2 (Z.ltb_lt _ _) H1), (proj2 (Z.ltb_lt _ _) H2). reflexivity.
Qed.

(** A remnant of a shift under an override does not overlap that override,
    and overlaps only what the shift overlaps. *)
Lemma remnant_overlaps (o shift r o' : WorkingScheduleElement) :
  overlaps o shift ->
  In r (splitShift o shift) ->
  ~ overlaps o r /\ (overlaps o' r -> overlaps o' shift).
Proof.
  intros Hov Hin. rewrite (splitShift_overlapping _ _ Hov) in Hin.
  unfold overlaps in *.
  apply in_app_or in Hin as [Hin | Hin].
  - destruct (Z.ltb_spec (start_at shift) (start_at o)); [| destruct Hin].
    destruct Hin as [<- | []]. cbn [start_at end_at]. lia.
  - destruct (Z.ltb_spec (end_at o) (end_at shift)); [| destruct Hin].
    destruct Hin as [<- | []]. cbn [start_at end_at]. lia.
Qed.

(** A shift that no override of the list overlaps is in the schedule after
    all of them. *)
Lemma fold_keeps_member (l : list WorkingScheduleElement) :
  forall (w : list WorkingScheduleElement) (x : WorkingScheduleElement),
    In x w ->
    (forall o, In o l -> ~ overlaps o x) ->
    In x (fold_left applyOverride l w).
Proof.
  induction l as [| o l IH]; intros w x Hin Hno; [exact Hin |].
  cbn [fold_left]. apply IH.
  - apply In_applyOverride. right. exists x. split; [exact Hin |].
    rewrite splitShift_apart by (apply Hno; left; reflexivity).
    left. reflexivity.
  - intros o' Ho'. apply Hno. right. exact Ho'.
Qed.

(** The remnants of a shift under the one override that overlaps it are in
    the schedule after all the overrides. *)
Lemma fold_keeps_remnants (l : list WorkingScheduleElement) :
  forall (w : list WorkingScheduleElement) (shift o r : WorkingScheduleElement),
    In shift w ->
    In o l ->
    overlaps o shift ->
    (forall o', In o' l -> overlaps o' shift -> o' = o) ->
    In r (splitShift o shift) ->
    In r (fold_left applyOverride l w).
Proof.
  induction l as [| o1 l IH]; intros w shift o r Hin Ho Hov Honly Hr; [destruct Ho |].
  cbn [fold_left].
  assert (Hdec : overlaps o1 shift \/ ~ overlaps o1 shift) by (unfold overlaps; lia).
  destruct Hdec as [Hov1 | Hno1].
  - assert (Heq : o1 = o) by (apply Honly; [left; reflexivity | exact Hov1]).
    subst o1. apply fold_keeps_member.
    + apply In_applyOverride. right. exists shift. split; assumption.
    + intros o' Ho' Hov'.
      destruct (remnant_overlaps o shift r o' Hov Hr) as [Hself Hup].
      assert (Heq : o' = o) by (apply Honly; [right; exact Ho' | apply Hup, Hov']).
      subst o'. exact (Hself Hov').
  - destruct Ho as [-> | Ho]; [contradiction |].
    apply (IH _ shift o r).
    + apply In_applyOverride. right. exists shift. split; [exact Hin |].
      rewrite splitShift_apart by exact Hno1. left. reflexivity.
    + exact Ho.
    + exact Hov.
    + intros o' Ho' Hov'. apply Honly; [right; exact Ho' | exact Hov'].
    + exact Hr.
Qed.

(** C3: with overrides whose start is not after their end, an instant [t]
    that no override holds is assigned, in the schedule returned by
    [applyOverrides], exactly what the generated base schedule assigns to it
    -- inside the generated range, for a configuration and a window within
    [exact_range], the user of the one base shift that holds [t].  In the
    schedule returned by [applyOverrides], for the base schedule as for any
    other: a shift that overlaps no
    override is there unchanged; a shift that overlaps one override
    has left there the remnant [[shiftStart, overrideStart)] when
    [shiftStart < overrideStart] and the remnant [[overrideEnd, shiftEnd)]
    when [shiftEnd > overrideEnd], both with the user of the shift.  And in
    each step of the loop the schedule is made of the override and of what
    the shifts of the working schedule leave: a shift that does not overlap
    the override leaves itself, one that overlaps it leaves these two
    remnants and nothing else. *)
Theorem C3_non_override_preservation
    (config : ScheduleConfig) (from until : Z)
    (base overrides : list WorkingScheduleElement) (t : Z) :
  valid_config config ->
  generateBaseSchedule config from until = Some (Returned base) ->
  Forall (fun o => start_at o <= end_at o) overrides ->
  (forall o, In o overrides -> ~ (start_at o <= t < end_at o)) ->
  assigned (applyOverrides base overrides) t = assigned base t /\
  (exact_range config from until ->
   first_shift_start config from <= t < range_end base (first_shift_start config from) ->
   exists shift, In shift base /\ start_at shift <= t < end_at shift /\
                 assigned (applyOverrides base overrides) t = [user shift]) /\
  (forall schedule shift,
     In shift schedule ->
     (forall o, In o overrides -> ~ overlaps o shift) ->
     In shift (applyOverrides schedule overrides)) /\
  (forall schedule shift o,
     In shift schedule ->
     In o overrides ->
     overlaps o shift ->
     (forall o', In o' overrides -> overlaps o' shift -> o' = o) ->
     (start_at shift < start_at o ->
      In (mkShift (user shift) (start_at shift) (start_at o))
         (applyOverrides schedule overrides)) /\
     (end_at o < end_at shift ->
      In (mkShift (user shift) (end_at o) (end_at shift))
         (applyOverrides schedule overrides))) /\
  (forall w o x,
     In x (applyOverride w o) <->
     x = o \/ exists shift, In shift w /\ In x (splitShift o shift)) /\
  (forall o shift, ~ overlaps o shift -> splitShift o shift = [shift]) /\
  (forall o shift, overlaps o shift ->
     splitShift o shift =
       (if start_at shift <? start_at o
        then [mkShift (user shift) (start_at shift) (start_at o)] else [])
       ++
       (if end_at o <? end_at shift
        then [mkShift (user shift) (end_at o) (end_at shift)] else [])).
Proof.
  intros [_ Hdays] Hbase Hle Hout.
  pose proof (separated_exclusive _ (base_separated config from until base Hdays Hbase))
    as Hex.
  assert (Heq : assigned (applyOverrides base overrides) t = assigned base t).
  { apply perm_short_eq; [apply Hex |].
    unfold applyOverrides. apply fold_assigned_outside.
    - apply Forall_sortByStart, Hle.
    - intros o Ho. apply contains_false, Hout.
      eapply Permutation_in; [apply sortByStart_perm | exact Ho]. }
  assert (Hsorted_in : forall o, In o (sortByStart overrides) <-> In o overrides).
  { intros o. split; apply Permutation_in;
      [apply sortByStart_perm | apply Permutation_sym, sortByStart_perm]. }
  split; [exact Heq |]. split; [| split; [| split; [| split; [| split]]]].
  - intros _ Ht.
    destruct (base_covers config from until base Hdays Hbase t Ht) as (sh & Hin & Hsh).
    exists sh. split; [assumption |]. split; [apply contains_true, Hsh |].
    rewrite Heq. apply assigned_holder; assumption.
  - intros schedule shift Hin Hno. unfold applyOverrides.
    apply fold_keeps_member; [exact Hin |].
    intros o Ho. apply Hno, Hsorted_in, Ho.
  - intros schedule shift o Hin Ho Hov Honly.
    assert (Hrem : forall r, In r (splitShift o shift) ->
                             In r (applyOverrides schedule overrides)).
    { intros r Hr. unfold applyOverrides.
      apply (fold_keeps_remnants _ _ shift o r); try assumption.
      - apply Hsorted_in, Ho.
      - intros o' Ho'. apply Honly, Hsorted_in, Ho'. }
    rewrite (splitShift_overlapping _ _ Hov) in Hrem.
    split; intros Hlt; apply Hrem; apply in_or_app.
    + left. rewrite (proj2 (Z.ltb_lt _ _) Hlt). left. reflexivity.
    + right. rewrite (proj2 (Z.ltb_lt _ _) Hlt). left. reflexivity.
  - exact In_applyOverride.
  - exact splitShift_apart.
  - exact splitShift_overlapping.
Qed.

(** ** Order of supply of the overrides *)

(** Two strictly sorted lists with the same elements are the same list. *)
Lemma strictly_sorted_perm_eq {A : Type} (R : A -> A -> Prop) :
  (forall x y, R x y -> R y x -> False) ->
  forall l1 l2,
    StronglySorted R l1 -> StronglySorted R l2 -> Permutation l1 l2 -> l1 = l2.
Proof.
  intros Hasym. induction l1 as [| a l1 IH]; intros l2 H1 H2 Hp.
  - symmetry. apply Permutation_nil, Hp.
  - destruct l2 as [| b l2].
    + apply Permutation_sym, Permutation_nil in Hp. discriminate.
    + apply StronglySorted_inv in H1 as [H1 Ha], H2 as [H2 Hb].
      rewrite Forall_forall in Ha, Hb.
      assert (Hab : a = b).
      { assert (Hina : In a (b :: l2))
          by (eapply Permutation_in; [exact Hp | left; reflexivity]).
        assert (Hinb : In b (a :: l1))
          by (eapply Permutation_in; [apply Permutation_sym, Hp | left; reflexivity]).
        destruct Hina as [-> | Hina]; [reflexivity |].
        destruct Hinb as [-> | Hinb]; [reflexivity |].
        exfalso. eapply Hasym; [apply Ha | apply Hb]; eassumption. }
      subst b. f_equal. apply IH; try assumption.
      eapply Permutation_cons_inv, Hp.
Qed.

Lemma sortByStart_strict (overrides : list WorkingScheduleElement) :
  Forall valid_override overrides ->
  exclusive overrides ->
  StronglySorted (fun a b => start_at a < start_at b) (sortByStart overrides).
Proof.
  intros Hvalid Hex.
  assert (Hpos : Forall positive_duration (sortByStart overrides))
    by (apply Forall_sortByStart, Hvalid).
  apply separated_positive_strictly_sorted; [| assumption].
  apply sorted_exclusive_positive_separated; [apply sortByStart_sorted | | assumption].
  eapply exclusive_perm; [apply Permutation_sym, sortByStart_perm | assumption].
Qed.

(** C7: for any base schedule and any overrides of the data model
    ([start < end], mutually non-overlapping), [applyOverrides] returns the
    same schedule for every order in which the overrides are supplied. *)
Theorem C7_override_order_irrelevant
    (baseSchedule overrides overrides' : list WorkingScheduleElement) :
  Forall valid_override overrides ->
  non_overlapping overrides ->
  Permutation overrides overrides' ->
  applyOverrides baseSchedule overrides = applyOverrides baseSchedule overrides'.
Proof.
  intros Hvalid Hdisj Hperm. unfold applyOverrides. f_equal.
  pose proof (non_overlapping_exclusive _ Hdisj) as Hex.
  apply (strictly_sorted_perm_eq (fun a b => start_at a < start_at b)).
  - intros x y Hxy Hyx. lia.
  - apply sortByStart_strict; assumption.
  - apply sortByStart_strict.
    + eapply Permutation_Forall; eassumption.
    + eapply exclusive_perm; eassumption.
  - eapply perm_trans; [apply sortByStart_perm |].
    eapply perm_trans; [exact Hperm | apply Permutation_sym, sortByStart_perm].
Qed.

(** ** The window truncator, instants first *)

Lemma truncateShift_clipShift (from until : Z) (shift : WorkingScheduleElement) :
  truncateShift from until shift = map formatShift (clipShift from until shift).
Proof.
  unfold truncateShift, clipShift.
  destruct ((start_at shift <? until) && (from <? end_at shift)); [| reflexivity].
  destruct (Z.max (start_at shift) from <? Z.min (end_at shift) until); reflexivity.
Qed.

(** The output is the clipped schedule, each shift formatted. *)
Lemma truncateAndFilterSchedule_clipSchedule
    (schedule : list WorkingScheduleElement) (from until : Z) :
  truncateAndFilterSchedule schedule from until
  = map formatShift (clipSchedule schedule from until).
Proof.
  unfold truncateAndFilterSchedule, clipSchedule.
  induction schedule as [| s l IH]; simpl; [reflexivity |].
  rewrite map_app, IH, truncateShift_clipShift. reflexivity.
Qed.

Lemma clipShift_In (from until : Z) (shift c : WorkingScheduleElement) :
  In c (clipShift from until shift) ->
  c = mkShift (user shift) (Z.max (start_at shift) from) (Z.min (end_at shift) until) /\
  start_at shift < until /\ from < end_at shift /\
  from <= start_at c < end_at c /\ end_at c <= until /\
  start_at shift <= start_at c /\ end_at c <= end_at shift.
Proof.
  unfold clipShift.
  destruct (Z.ltb_spec (start_at shift) until), (Z.ltb_spec from (end_at shift));
    cbn [andb]; try (intros []).
  destruct (Z.ltb_spec (Z.max (start_at shift) from) (Z.min (end_at shift) until));
    [| intros []].
  intros [<- | []]. cbn [start_at end_at]. repeat split; lia.
Qed.

Lemma clipShift_outside (from until : Z) (shift : WorkingScheduleElement) :
  until <= start_at shift \/ end_at shift <= from ->
  clipShift from until shift = [].
Proof.
  intros H. unfold clipShift. ltb_cases; cbn [andb]; try reflexivity; lia.
Qed.

Lemma clipShift_empty (from until : Z) (shift : WorkingScheduleElement) :
  Z.min (end_at shift) until <= Z.max (start_at shift) from ->
  clipShift from until shift = [].
Proof.
  intros H. unfold clipShift.
  destruct ((start_at shift <? until) && (from <? end_at shift)); [| reflexivity].
  destruct (Z.ltb_spec (Z.max (start_at shift) from) (Z.min (end_at shift) until));
    [lia | reflexivity].
Qed.

Lemma clipShift_inside (from until : Z) (shift : WorkingScheduleElement) :
  start_at shift < until -> from < end_at shift ->
  Z.max (start_at shift) from < Z.min (end_at shift) until ->
  clipShift from until shift =
  [mkShift (user shift) (Z.max (start_at shift) from) (Z.min (end_at shift) until)].
Proof.
  intros H1 H2 H3. unfold clipShift.
  rewrite (proj2 (Z.ltb_lt _ _) H1), (proj2 (Z.ltb_lt _ _) H2),
    (proj2 (Z.ltb_lt _ _) H3). reflexivity.
Qed.

Lemma clipShift_assigned (from until : Z) (shift : WorkingScheduleElement) (t : Z) :
  assigned (clipShift from until shift) t
  = if (from <=? t) && (t <? until) then assigned [shift] t else [].
Proof.
  rewrite assigned_single. unfold clipShift, assigned, contains.
  destruct (Z.ltb_spec (start_at shift) until), (Z.ltb_spec from (end_at shift)),
    (Z.leb_spec from t), (Z.ltb_spec t until),
    (Z.leb_spec (start_at shift) t), (Z.ltb_spec t (end_at shift));
    cbn [andb];
    try destruct (Z.ltb_spec (Z.max (start_at shift) from) (Z.min (end_at shift) until));
    cbn [filter map start_at end_at user];
    ltb_cases; cbn [andb map]; try reflexivity; lia.
Qed.

Lemma clipSchedule_assigned (schedule : list WorkingScheduleElement) (from until t : Z) :
  assigned (clipSchedule schedule from until) t
  = if (from <=? t) && (t <? until) then assigned schedule t else [].
Proof.
  unfold clipSchedule. induction schedule as [| s l IH]; simpl.
  - destruct ((from <=? t) && (t <? until)); reflexivity.
  - rewrite assigned_app, IH, clipShift_assigned, (assigned_cons s l).
    destruct ((from <=? t) && (t <? until)); reflexivity.
Qed.

(** Clipping after an override is clipping, the override, and clipping
    again. *)
Lemma clip_split_clip (from until : Z) (o s : WorkingScheduleElement) :
  start_at o <= end_at o ->
  flat_map (clipShift from until) (splitShift o s)
  = flat_map (clipShift from until)
      (flat_map (splitShift o) (clipShift from until s)).
Proof.
  intros Ho. destruct o as [uo a b], s as [us p q].
  unfold clipShift, splitShift. cbn [start_at end_at user] in *.
  shift_cases; close_shift_lists.
Qed.

(** An override outside the window changes nothing of what is clipped. *)
Lemma clip_split_outside (from until : Z) (o s : WorkingScheduleElement) :
  start_at o <= end_at o ->
  end_at o <= from \/ until <= start_at o ->
  flat_map (clipShift from until) (splitShift o s) = clipShift from until s.
Proof.
  intros Ho Hout. destruct o as [uo a b], s as [us p q].
  unfold clipShift, splitShift. cbn [start_at end_at user] in *.
  shift_cases; close_shift_lists.
Qed.

Lemma flat_map_flat_map {A B C : Type} (f : A -> list B) (g : B -> list C) (l : list A) :
  flat_map g (flat_map f l) = flat_map (fun x => flat_map g (f x)) l.
Proof.
  induction l as [| x l IH]; simpl; [reflexivity |].
  rewrite flat_map_app, IH. reflexivity.
Qed.

Section ClippedOverrides.

Variables from until : Z.

Lemma clipStep_perm (o : WorkingScheduleElement) (c1 c2 : list WorkingScheduleElement) :
  Permutation c1 c2 -> Permutation (clipStep from until o c1) (clipStep from until o c2).
Proof.
  intros Hp. unfold clipStep. apply Permutation_app_tail.
  do 2 apply Permutation_flat_map. assumption.
Qed.

Lemma clipSchedule_applyOverride (w : list WorkingScheduleElement)
    (o : WorkingScheduleElement) :
  start_at o <= end_at o ->
  Permutation (clipSchedule (applyOverride w o) from until)
              (clipStep from until o (clipSchedule w from until)).
Proof.
  intros Ho. unfold applyOverride, clipSchedule, clipStep.
  eapply perm_trans; [apply Permutation_flat_map, sortByStart_perm |].
  rewrite flat_map_app. simpl. rewrite app_nil_r.
  rewrite (flat_map_flat_map (clipShift from until) (splitShift o) w).
  rewrite !flat_map_flat_map.
  erewrite flat_map_ext; [apply Permutation_refl |].
  intros s. apply clip_split_clip, Ho.
Qed.

Lemma clipSchedule_applyOverride_outside (w : list WorkingScheduleElement)
    (o : WorkingScheduleElement) :
  start_at o <= end_at o ->
  end_at o <= from \/ until <= start_at o ->
  Permutation (clipSchedule (applyOverride w o) from until)
              (clipSchedule w from until).
Proof.
  intros Ho Hout. unfold applyOverride, clipSchedule.
  eapply perm_trans; [apply Permutation_flat_map, sortByStart_perm |].
  rewrite flat_map_app. simpl.
  rewrite (clipShift_outside from until o) by lia. rewrite !app_nil_r.
  rewrite flat_map_flat_map.
  erewrite flat_map_ext; [apply Permutation_refl |].
  intros s. apply clip_split_outside; assumption.
Qed.

Lemma clipSchedule_fold_congr (l : list WorkingScheduleElement) :
  Forall (fun o => start_at o <= end_at o) l ->
  forall w1 w2,
    Permutation (clipSchedule w1 from until) (clipSchedule w2 from until) ->
    Permutation (clipSchedule (fold_left applyOverride l w1) from until)
                (clipSchedule (fold_left applyOverride l w2) from until).
Proof.
  intros Hl. induction Hl as [| o l Ho _ IH]; intros w1 w2 Hw; simpl.
  - assumption.
  - apply IH.
    eapply perm_trans; [apply clipSchedule_applyOverride, Ho |].
    eapply perm_trans; [| apply Permutation_sym, clipSchedule_applyOverride, Ho].
    apply clipStep_perm, Hw.
Qed.

(** The clipped schedule is strictly sorted by start. *)
Lemma clipSchedule_strict (l : list WorkingScheduleElement) :
  sorted_by_start l ->
  exclusive l ->
  StronglySorted (fun a b => start_at a < start_at b) (clipSchedule l from until).
Proof.
  intros Hs Hex. pose proof (sorted_exclusive_separated l Hs Hex) as Hsep.
  clear Hs Hex. unfold clipSchedule.
  induction Hsep as [| a l _ IH Ha]; simpl; [constructor |].
  destruct (clipShift from until a) as [| a' rest] eqn:Hclip; [exact IH |].
  assert (Hin : In a' (clipShift from until a)) by (rewrite Hclip; left; reflexivity).
  assert (Hrest : rest = []).
  { unfold clipShift in Hclip.
    destruct ((start_at a <? until) && (from <? end_at a)); [| discriminate].
    destruct (Z.max (start_at a) from <? Z.min (end_at a) until); [| discriminate].
    congruence. }
  subst rest. simpl. constructor; [exact IH |].
  apply clipShift_In in Hin as (_ & _ & _ & Ha1 & _ & Ha2 & Ha3).
  apply Forall_forall. intros c Hc.
  apply in_flat_map in Hc as (b & Hb & Hc).
  apply clipShift_In in Hc as (_ & _ & _ & Hc1 & _ & Hc2 & Hc3).
  rewrite Forall_forall in Ha. specialize (Ha b Hb).
  unfold positive_duration in Ha. lia.
Qed.

End ClippedOverrides.

(** ** Stability of the sort when one element is left out *)

Lemma insertByStart_split (x : WorkingScheduleElement) (l : list WorkingScheduleElement) :
  exists m1 m2, insertByStart x l = m1 ++ x :: m2 /\ l = m1 ++ m2.
Proof.
  induction l as [| y l (m1 & m2 & H1 & H2)]; simpl.
  - exists [], []. split; reflexivity.
  - destruct (start_at x <=? start_at y).
    + exists [], (y :: l). split; reflexivity.
    + exists (y :: m1), m2. rewrite H1, H2. split; reflexivity.
Qed.

Lemma insertByStart_across (y o : WorkingScheduleElement)
    (m1 m2 : list WorkingScheduleElement) :
  sorted_by_start (m1 ++ o :: m2) ->
  exists n1 n2,
    insertByStart y (m1 ++ o :: m2) = n1 ++ o :: n2 /\
    insertByStart y (m1 ++ m2) = n1 ++ n2.
Proof.
  unfold sorted_by_start. induction m1 as [| z m1 IH]; intros Hs; simpl.
  - apply StronglySorted_inv in Hs as [_ Ho].
    destruct (Z.leb_spec (start_at y) (start_at o)) as [Hyo | Hyo].
    + exists [y], m2. split; [reflexivity |].
      destruct m2 as [| z m2]; [reflexivity |]. simpl.
      apply Forall_inv in Ho.
      destruct (Z.leb_spec (start_at y) (start_at z)); [reflexivity | lia].
    + exists [], (insertByStart y m2). split; reflexivity.
  - apply StronglySorted_inv in Hs as [Hs _].
    destruct (start_at y <=? start_at z).
    + exists (y :: z :: m1), m2. split; reflexivity.
    + destruct (IH Hs) as (n1 & n2 & H1 & H2).
      exists (z :: n1), n2. rewrite H1, H2. split; reflexivity.
Qed.

(** Sorting with [o] is sorting without it, with [o] put somewhere. *)
Lemma sortByStart_remove (l1 l2 : list WorkingScheduleElement) (o : WorkingScheduleElement) :
  exists m1 m2,
    sortByStart (l1 ++ o :: l2) = m1 ++ o :: m2 /\
    sortByStart (l1 ++ l2) = m1 ++ m2.
Proof.
  induction l1 as [| y l1 (m1 & m2 & H1 & H2)]; simpl.
  - destruct (insertByStart_split o (sortByStart l2)) as (m1 & m2 & H1 & H2).
    exists m1, m2. split; assumption.
  - rewrite H1, H2. apply insertByStart_across.
    rewrite <- H1. apply sortByStart_sorted.
Qed.

(** ** Claims on the pipeline *)

Lemma makeSchedule_returns (config : ScheduleConfig)
    (overrides : list WorkingScheduleElement) (from until : Z) :
  0 < handover_interval_days config ->
  exists base,
    generateBaseSchedule config from until = Some (Returned base) /\
    makeSchedule config overrides from until
    = Some (Returned (map formatShift
                        (clipSchedule (applyOverrides base overrides) from until))).
Proof.
  intros Hdays.
  destruct (generateBaseSchedule_returns config from until Hdays) as (base & Hbase & _).
  exists base. split; [assumption |].
  unfold makeSchedule. rewrite Hbase, truncateAndFilterSchedule_clipSchedule.
  reflexivity.
Qed.

Lemma clipSchedule_in_window (schedule : list WorkingScheduleElement) (from until : Z) :
  Forall (fun c => from <= start_at c /\ start_at c < end_at c /\ end_at c <= until)
    (clipSchedule schedule from until).
Proof.
  apply Forall_forall. intros c Hc. unfold clipSchedule in Hc.
  apply in_flat_map in Hc as (s & _ & Hc).
  apply clipShift_In in Hc. lia.
Qed.

(** C9: for a valid configuration, a window and any overrides whose start is
    not after their end, an override [o] that lies entirely outside the
    window, added anywhere in the collection, leaves the output of
    [makeSchedule] as it is without [o]; every shift of the output lies in
    the window, so none overlaps the interval of [o]; and [o] itself is
    dropped by the truncation. *)
Theorem C9_override_outside_window
    (config : ScheduleConfig) (from until : Z)
    (overrides1 overrides2 : list WorkingScheduleElement) (o : WorkingScheduleElement) :
  valid_config config ->
  from < until ->
  Forall (fun x => start_at x <= end_at x) (overrides1 ++ o :: overrides2) ->
  end_at o <= from \/ until <= start_at o ->
  exists instants,
    makeSchedule config (overrides1 ++ o :: overrides2) from until
    = Some (Returned (map formatShift instants)) /\
    makeSchedule config (overrides1 ++ overrides2) from until
    = Some (Returned (map formatShift instants)) /\
    Forall (fun c => from <= start_at c /\ start_at c < end_at c /\ end_at c <= until /\
                     ~ overlaps o c) instants /\
    truncateAndFilterSchedule [o] from until = [].
Proof.
  intros [_ Hdays] _ Hle Hout.
  destruct (makeSchedule_returns config (overrides1 ++ o :: overrides2) from until Hdays)
    as (base & Hbase & Hwith).
  destruct (makeSchedule_returns config (overrides1 ++ overrides2) from until Hdays)
    as (base' & Hbase' & Hwithout).
  rewrite Hbase in Hbase'. injection Hbase' as <-.
  exists (clipSchedule (applyOverrides base (overrides1 ++ o :: overrides2)) from until).
  assert (Hle' : Forall (fun x => start_at x <= end_at x) (overrides1 ++ overrides2)).
  { apply Forall_app in Hle as [H1 H2]. apply Forall_inv_tail in H2.
    apply Forall_app. split; assumption. }
  pose proof (base_sorted config from until base Hdays Hbase) as Hsorted.
  pose proof (separated_exclusive _ (base_separated config from until base Hdays Hbase))
    as Hex.
  assert (Heq : clipSchedule (applyOverrides base (overrides1 ++ o :: overrides2)) from until
                = clipSchedule (applyOverrides base (overrides1 ++ overrides2)) from until).
  { apply (strictly_sorted_perm_eq (fun a b => start_at a < start_at b)).
    - intros x y Hxy Hyx. lia.
    - apply clipSchedule_strict;
        [apply applyOverrides_sorted | apply applyOverrides_exclusive]; assumption.
    - apply clipSchedule_strict;
        [apply applyOverrides_sorted | apply applyOverrides_exclusive]; assumption.
    - unfold applyOverrides.
      destruct (sortByStart_remove overrides1 overrides2 o) as (m1 & m2 & H1 & H2).
      apply Forall_sortByStart in Hle. rewrite H1 in *. rewrite H2.
      apply Forall_app in Hle as [_ Hle]. apply Forall_cons_iff in Hle as [Ho Hm2].
      rewrite !fold_left_app. simpl.
      apply clipSchedule_fold_congr; [assumption |].
      apply clipSchedule_applyOverride_outside; assumption. }
  split; [exact Hwith |]. split; [rewrite Heq; exact Hwithout |]. split.
  - eapply Forall_impl; [| apply clipSchedule_in_window].
    intros c (H1 & H2 & H3). unfold overlaps. lia.
  - rewrite truncateAndFilterSchedule_clipSchedule. unfold clipSchedule. simpl.
    rewrite (clipShift_outside from until o) by lia. reflexivity.
Qed.

(** C10, as stated, fails: a zero-duration override at noon of the first day
    splits the shift of that day in two, so the output with the override is
    not the output without it. *)
Lemma C10_zero_duration_override_splits :
  makeSchedule Scenarios.configAB [Scenarios.overrideZero]
    Scenarios.jan1 (Scenarios.jan1 + Scenarios.day)
  <> makeSchedule Scenarios.configAB [] Scenarios.jan1 (Scenarios.jan1 + Scenarios.day).
Proof. intros H. vm_compute in H. discriminate. Qed.

(** The two outputs of the scenario above. *)
Example makeSchedule_zero_duration_override :
  makeSchedule Scenarios.configAB [Scenarios.overrideZero]
    Scenarios.jan1 (Scenarios.jan1 + Scenarios.day)
  = Some (Returned
      [mkOut (Some "A"%string) "2025-01-01T00:00:00Z" "2025-01-01T12:00:00Z";
       mkOut (Some "A"%string) "2025-01-01T12:00:00Z" "2025-01-02T00:00:00Z"]) /\
  makeSchedule Scenarios.configAB [] Scenarios.jan1 (Scenarios.jan1 + Scenarios.day)
  = Some (Returned
      [mkOut (Some "A"%string) "2025-01-01T00:00:00Z" "2025-01-02T00:00:00Z"]).
Proof. split; reflexivity. Qed.

(** When the override is less than a second after the start of the shift,
    the first of the two entries starts and ends at the same timestamp: the
    interval it comes from is half a second long. *)
Example makeSchedule_zero_duration_override_subsecond :
  makeSchedule Scenarios.configAB
    [mkShift (Some "C"%string) (Scenarios.jan1 + 500) (Scenarios.jan1 + 500)]
    Scenarios.jan1 (Scenarios.jan1 + Scenarios.day)
  = Some (Returned
      [mkOut (Some "A"%string) "2025-01-01T00:00:00Z" "2025-01-01T00:00:00Z";
       mkOut (Some "A"%string) "2025-01-01T00:00:00Z" "2025-01-02T00:00:00Z"]).
Proof. reflexivity. Qed.

(** C10, amended: for a valid configuration, a window and any overrides
    whose start is not after their end, a zero-duration override [z] changes
    no assignment: the output with [z] and the output without it are the
    formatted forms of two schedules of instants that assign the same user
    to every instant; every shift of the first one, before its two
    boundaries are formatted, has a positive duration (once formatted the
    two timestamps are the same when both fall in one second), and the
    entry of [z] itself is dropped; in [applyOverrides] a shift that [z]
    does not fall strictly inside passes through unchanged, and one that it
    falls strictly inside leaves two adjacent remnants with the user of the
    shift. *)
Theorem C10_zero_duration_override_keeps_assignments
    (config : ScheduleConfig) (from until : Z)
    (overrides1 overrides2 : list WorkingScheduleElement) (z : WorkingScheduleElement) :
  valid_config config ->
  Forall (fun x => start_at x <= end_at x) (overrides1 ++ overrides2) ->
  end_at z = start_at z ->
  exists with_z without_z,
    makeSchedule config (overrides1 ++ z :: overrides2) from until
    = Some (Returned (map formatShift with_z)) /\
    makeSchedule config (overrides1 ++ overrides2) from until
    = Some (Returned (map formatShift without_z)) /\
    (forall t, assigned with_z t = assigned without_z t) /\
    Forall positive_duration with_z /\
    truncateAndFilterSchedule [z] from until = [] /\
    (forall shift, ~ (start_at shift < start_at z < end_at shift) ->
                   splitShift z shift = [shift]) /\
    (forall shift, start_at shift < start_at z < end_at shift ->
                   splitShift z shift =
                   [mkShift (user shift) (start_at shift) (start_at z);
                    mkShift (user shift) (start_at z) (end_at shift)]).
Proof.
  intros [_ Hdays] Hle Hz.
  destruct (makeSchedule_returns config (overrides1 ++ z :: overrides2) from until Hdays)
    as (base & Hbase & Hwith).
  destruct (makeSchedule_returns config (overrides1 ++ overrides2) from until Hdays)
    as (base' & Hbase' & Hwithout).
  rewrite Hbase in Hbase'. injection Hbase' as <-.
  exists (clipSchedule (applyOverrides base (overrides1 ++ z :: overrides2)) from until),
         (clipSchedule (applyOverrides base (overrides1 ++ overrides2)) from until).
  pose proof (separated_exclusive _ (base_separated config from until base Hdays Hbase))
    as Hex.
  split; [exact Hwith |]. split; [exact Hwithout |]. split; [| split; [| split; [| split]]].
  - intros t. rewrite !clipSchedule_assigned.
    destruct ((from <=? t) && (t <? until)); [| reflexivity].
    apply perm_short_eq; [apply applyOverrides_exclusive; assumption |].
    unfold applyOverrides.
    destruct (sortByStart_remove overrides1 overrides2 z) as (m1 & m2 & H1 & H2).
    apply Forall_sortByStart in Hle. rewrite H1. rewrite H2 in *.
    apply Forall_app in Hle as [_ Hm2].
    rewrite !fold_left_app. simpl.
    apply fold_assigned_congr; [assumption |].
    eapply perm_trans; [apply applyOverride_assigned; lia |].
    replace (contains z t) with false; [apply Permutation_refl |].
    symmetry. apply contains_false. lia.
  - eapply Forall_impl; [| apply clipSchedule_in_window].
    intros c (H1 & H2 & H3). exact H2.
  - rewrite truncateAndFilterSchedule_clipSchedule. unfold clipSchedule. simpl.
    rewrite (clipShift_empty from until z) by lia. reflexivity.
  - intros shift Hout. unfold splitShift. rewrite Hz.
    shift_cases; try reflexivity; lia.
  - intros shift Hin. unfold splitShift. rewrite Hz.
    shift_cases; try reflexivity; lia.
Qed.

(** ** The claims at the scenarios of the specification *)

Lemma valid_configAB : valid_config Scenarios.configAB.
Proof. split; [discriminate | reflexivity]. Defined.

Lemma C1_schedule_validity_witness :
  exact_range Scenarios.configAB Scenarios.from13 Scenarios.until13 /\
  exists base,
    generateBaseSchedule Scenarios.configAB Scenarios.from13 Scenarios.until13
    = Some (Returned base) /\
    gapless base /\
    gapless_within Scenarios.jan1 (Scenarios.jan1 + 3 * Scenarios.day)
      (applyOverrides base [Scenarios.overrideC; Scenarios.overrideD]).
Proof.
  assert (Hvalid : Forall valid_override [Scenarios.overrideC; Scenarios.overrideD])
    by (repeat constructor).
  assert (Hdisj : non_overlapping [Scenarios.overrideC; Scenarios.overrideD]).
  { repeat constructor. intros [H1 H2]. vm_compute in H2. discriminate. }
  assert (Hrange : exact_range Scenarios.configAB Scenarios.from13 Scenarios.until13)
    by exact_range_holds.
  assert (Hdates : Forall valid_dates [Scenarios.overrideC; Scenarios.overrideD])
    by (repeat constructor; discriminate).
  destruct (C1_schedule_validity Scenarios.configAB Scenarios.from13 Scenarios.until13
              [Scenarios.overrideC; Scenarios.overrideD]
              valid_configAB Hrange eq_refl Hdates Hvalid Hdisj)
    as (base & Hbase & _ & Hgap & Hrest).
  split; [exact Hrange |].
  exists base. split; [exact Hbase |]. split; [exact Hgap |].
  cbv zeta in Hrest. destruct Hrest as (_ & _ & _ & Hwithin & _).
  assert (Hb : base = [mkShift (Some "A"%string) Scenarios.jan1 (Scenarios.jan1 + Scenarios.day);
                       mkShift (Some "B"%string) (Scenarios.jan1 + Scenarios.day)
                         (Scenarios.jan1 + 2 * Scenarios.day);
                       mkShift (Some "A"%string) (Scenarios.jan1 + 2 * Scenarios.day)
                         (Scenarios.jan1 + 3 * Scenarios.day)]).
  { vm_compute in Hbase. injection Hbase as <-. reflexivity. }
  rewrite Hb in Hwithin |- *. exact Hwithin.
Defined.

Lemma C2_override_precedence_witness :
  assigned (applyOverrides
              [mkShift (Some "A"%string) Scenarios.jan1 (Scenarios.jan1 + Scenarios.day);
               mkShift (Some "B"%string) (Scenarios.jan1 + Scenarios.day)
                 (Scenarios.jan1 + 2 * Scenarios.day)]
              [Scenarios.overrideD; Scenarios.overrideC])
    (Scenarios.jan1 + Scenarios.day)
  = [Some "C"%string].
Proof.
  assert (Hvalid : Forall valid_override [Scenarios.overrideD; Scenarios.overrideC])
    by (repeat constructor).
  assert (Hdisj : non_overlapping [Scenarios.overrideD; Scenarios.overrideC]).
  { repeat constructor. intros [H1 H2]. vm_compute in H1. discriminate. }
  assert (Ht : start_at Scenarios.overrideC <= Scenarios.jan1 + Scenarios.day
               < end_at Scenarios.overrideC)
    by (split; [discriminate | reflexivity]).
  exact (proj1 (C2_override_precedence _ _ Scenarios.overrideC _
                  Hvalid Hdisj (or_intror (or_introl eq_refl)) Ht)).
Defined.

Lemma C3_non_override_preservation_witness :
  exists base,
    generateBaseSchedule Scenarios.configAB Scenarios.from13 Scenarios.until13
    = Some (Returned base) /\
    assigned (applyOverrides base [Scenarios.overrideC]) (Scenarios.jan1 + 1)
    = assigned base (Scenarios.jan1 + 1) /\
    In (mkShift (Some "A"%string) Scenarios.jan1 (Scenarios.jan1 + Scenarios.day / 2))
       (applyOverrides base [Scenarios.overrideC]).
Proof.
  eexists. split; [reflexivity |].
  assert (Hle : Forall (fun o => start_at o <= end_at o) [Scenarios.overrideC])
    by (repeat constructor; discriminate).
  assert (Hout : forall o, In o [Scenarios.overrideC] ->
                   ~ (start_at o <= Scenarios.jan1 + 1 < end_at o)).
  { intros o [<- | []] [H _]. vm_compute in H. apply H. reflexivity. }
  destruct (C3_non_override_preservation Scenarios.configAB
              Scenarios.from13 Scenarios.until13 _ [Scenarios.overrideC]
              (Scenarios.jan1 + 1) valid_configAB eq_refl Hle Hout)
    as (Heq & _ & _ & Hrem & _).
  split; [exact Heq |].
  refine (proj1 (Hrem _ (mkShift (Some "A"%string) Scenarios.jan1
                           (Scenarios.jan1 + Scenarios.day))
                   Scenarios.overrideC _ _ _ _) _).
  - left. reflexivity.
  - left. reflexivity.
  - split; reflexivity.
  - intros o' [<- | []] _. reflexivity.
  - reflexivity.
Defined.

Lemma C7_override_order_irrelevant_witness :
  applyOverrides
    [mkShift (Some "A"%string) Scenarios.jan1 (Scenarios.jan1 + 3 * Scenarios.day)]
    [Scenarios.overrideC; Scenarios.overrideD]
  = applyOverrides
      [mkShift (Some "A"%string) Scenarios.jan1 (Scenarios.jan1 + 3 * Scenarios.day)]
      [Scenarios.overrideD; Scenarios.overrideC].
Proof.
  apply C7_override_order_irrelevant.
  - repeat constructor.
  - repeat constructor. intros [H1 H2]. vm_compute in H2. discriminate.
  - apply perm_swap.
Defined.

Lemma C9_override_outside_window_witness :
  exists instants,
    makeSchedule Scenarios.configAB
      [Scenarios.overrideC; Scenarios.overrideBefore; Scenarios.overrideD]
      Scenarios.from13 Scenarios.until13
    = Some (Returned (map formatShift instants)) /\
    makeSchedule Scenarios.configAB [Scenarios.overrideC; Scenarios.overrideD]
      Scenarios.from13 Scenarios.until13
    = Some (Returned (map formatShift instants)).
Proof.
  destruct (C9_override_outside_window Scenarios.configAB
              Scenarios.from13 Scenarios.until13
              [Scenarios.overrideC] [Scenarios.overrideD] Scenarios.overrideBefore
              valid_configAB eq_refl)
    as (instants & Hwith & Hwithout & _).
  - repeat constructor; discriminate.
  - left. discriminate.
  - exists instants. split; [exact Hwith | exact Hwithout].
Defined.

Lemma C10_zero_duration_override_keeps_assignments_witness :
  exists with_z without_z,
    makeSchedule Scenarios.configAB [Scenarios.overrideZero; Scenarios.overrideD]
      Scenarios.from13 Scenarios.until13
    = Some (Returned (map formatShift with_z)) /\
    makeSchedule Scenarios.configAB [Scenarios.overrideD]
      Scenarios.from13 Scenarios.until13
    = Some (Returned (map formatShift without_z)) /\
    (forall t, assigned with_z t = assigned without_z t).
Proof.
  destruct (C10_zero_duration_override_keeps_assignments Scenarios.configAB
              Scenarios.from13 Scenarios.until13
              [] [Scenarios.overrideD] Scenarios.overrideZero valid_configAB)
    as (with_z & without_z & Hwith & Hwithout & Hsame & _).
  - repeat constructor. discriminate.
  - reflexivity.
  - exists with_z, without_z. split; [exact Hwith |]. split; [exact Hwithout | exact Hsame].
Defined.

(** ** Timestamps: the calendar *)

Module IsoFacts.

Import Iso.

(** The civil date of a day number is a date of the calendar, and it has
    that day number. *)
Lemma civil_roundtrip (day : Z) :
  let '(y, m, d) := civilFromDays day in
  daysFromCivil y m d = day /\ 1 <= m <= 12 /\ 1 <= d <= 31.
Proof.
  unfold civilFromDays, daysFromCivil. cbv zeta.
  set (z := day + 719468).
  set (era := z / 146097).
  set (doe := z - era * 146097).
  assert (Hdoe : 0 <= doe <= 146096).
  { subst doe era. Z.to_euclidean_division_equations; lia. }
  set (yoe := (doe - doe / 1460 + doe / 36524 - doe / 146096) / 365).
  set (doy := doe - (365 * yoe + yoe / 4 - yoe / 100)).
  assert (Hy : 0 <= yoe <= 399 /\ 0 <= doy <= 365).
  { subst doy yoe. clearbody doe. clear - Hdoe.
    Z.to_euclidean_division_equations; lia. }
  set (mp := (5 * doy + 2) / 153).
  assert (Hmp : 0 <= mp <= 11).
  { subst mp. clearbody doy. Z.to_euclidean_division_equations; lia. }
  assert (Hdoy : doy = doe - (365 * yoe + yoe / 4 - yoe / 100)) by reflexivity.
  clearbody yoe doy.
  assert (Hz : day = era * 146097 + doe - 719468) by (subst doe z; lia).
  clearbody doe era. clear z.
  destruct (Z.ltb_spec mp 10).
  - destruct (Z.leb_spec (mp + 3) 2); [lia |].
    destruct (Z.ltb_spec 2 (mp + 3)); [| lia].
    replace (mp + 3 - 3) with mp by lia.
    replace ((yoe + era * 400) / 400) with era
      by (Z.to_euclidean_division_equations; lia).
    subst mp. repeat split; Z.to_euclidean_division_equations; lia.
  - destruct (Z.leb_spec (mp - 9) 2); [| lia].
    destruct (Z.ltb_spec 2 (mp - 9)); [lia |].
    replace (mp - 9 + 9) with mp by lia.
    replace ((yoe + era * 400 + 1 - 1) / 400) with era
      by (Z.to_euclidean_division_equations; lia).
    subst mp. repeat split; Z.to_euclidean_division_equations; lia.
Qed.

(** The days from 0000-01-01 to 9999-12-31 are the days of the years 0 to
    9999. *)
Lemma civil_year_range (day : Z) :
  -719528 <= day <= 2932896 ->
  0 <= fst (fst (civilFromDays day)) <= 9999.
Proof.
  intros H. unfold civilFromDays. cbv zeta. cbn [fst].
  set (z := day + 719468).
  set (era := z / 146097).
  set (doe := z - era * 146097).
  assert (Hdoe : 0 <= doe <= 146096).
  { subst doe era. Z.to_euclidean_division_equations; lia. }
  assert (Hera : -1 <= era <= 24)
    by (subst era z; Z.to_euclidean_division_equations; lia).
  assert (Hlo : era = -1 -> 146037 <= doe)
    by (subst doe era z; Z.to_euclidean_division_equations; lia).
  assert (Hhi : era = 24 -> doe <= 146036)
    by (subst doe era z; Z.to_euclidean_division_equations; lia).
  clearbody doe era. clear z H.
  set (yoe := (doe - doe / 1460 + doe / 36524 - doe / 146096) / 365).
  set (doy := doe - (365 * yoe + yoe / 4 - yoe / 100)).
  set (mp := (5 * doy + 2) / 153).
  assert (Hy : 0 <= yoe <= 399 /\ 0 <= doy <= 365).
  { subst doy yoe. clear - Hdoe. Z.to_euclidean_division_equations; lia. }
  assert (Hlo' : era = -1 -> yoe = 399 /\ 306 <= doy).
  { intros E. specialize (Hlo E). subst doy yoe. clear - Hdoe Hlo.
    Z.to_euclidean_division_equations; lia. }
  assert (Hhi' : era = 24 -> yoe <= 398 \/ doy <= 305).
  { intros E. specialize (Hhi E). subst doy yoe. clear - Hdoe Hhi.
    Z.to_euclidean_division_equations; lia. }
  assert (Hmp : (306 <= doy -> 10 <= mp) /\ (doy <= 305 -> mp <= 9) /\ 0 <= mp <= 11).
  { subst mp. clearbody doy. clear - Hy. Z.to_euclidean_division_equations; lia. }
  clearbody mp doy yoe.
  destruct (Z.ltb_spec mp 10).
  - destruct (Z.leb_spec (mp + 3) 2); lia.
  - destruct (Z.leb_spec (mp - 9) 2); lia.
Qed.

(** ** Timestamps: the digits *)

Lemma decimal_digit_cases (x : Z) :
  x mod 10 = 0 \/ x mod 10 = 1 \/ x mod 10 = 2 \/ x mod 10 = 3 \/ x mod 10 = 4 \/
  x mod 10 = 5 \/ x mod 10 = 6 \/ x mod 10 = 7 \/ x mod 10 = 8 \/ x mod 10 = 9.
Proof. pose proof (Z.mod_pos_bound x 10 ltac:(lia)). lia. Qed.

Lemma digitVal_digitChar (x : Z) : digitVal (digitChar (x mod 10)) = Some (x mod 10).
Proof.
  pose proof (decimal_digit_cases x) as Hc.
  repeat destruct Hc as [-> | Hc]; try rewrite Hc; reflexivity.
Qed.

Lemma digitChar_not_dot (x : Z) : Ascii.eqb (digitChar (x mod 10)) "." = false.
Proof.
  pose proof (decimal_digit_cases x) as Hc.
  repeat destruct Hc as [-> | Hc]; try rewrite Hc; reflexivity.
Qed.

Lemma field_digits (w : nat) :
  forall n acc k rest,
    field w acc k (digits w n ++ rest)
    = k (acc * 10 ^ Z.of_nat w + n mod 10 ^ Z.of_nat w) rest.
Proof.
  induction w as [| w IH]; intros n acc k rest.
  - cbn [digits field append]. rewrite Z.mod_1_r. f_equal. cbn. lia.
  - cbn [digits field append]. rewrite digitVal_digitChar, IH. f_equal.
    rewrite Nat2Z.inj_succ, Z.pow_succ_r by lia.
    assert (Hp : 0 < 10 ^ Z.of_nat w) by (apply Z.pow_pos_nonneg; lia).
    replace (10 * 10 ^ Z.of_nat w) with (10 ^ Z.of_nat w * 10) by ring.
    rewrite Z.rem_mul_r by lia. ring.
Qed.

Lemma dotFree_app (s1 s2 : string) :
  dotFree s1 -> dotFree s2 -> dotFree (s1 ++ s2).
Proof.
  induction s1 as [| c s1 IH]; cbn [append dotFree]; [auto |].
  intros [H1 H2] H3. auto.
Qed.

Lemma dotFree_digits (w : nat) (n : Z) : dotFree (digits w n).
Proof.
  induction w as [| w IH]; cbn [digits dotFree];
    [exact I | split; [apply digitChar_not_dot | exact IH]].
Qed.

Lemma beforeDot_app_dot (s1 s2 : string) :
  dotFree s1 -> beforeDot (s1 ++ String "." s2) = s1.
Proof.
  induction s1 as [| c s1 IH]; cbn [append beforeDot dotFree].
  - reflexivity.
  - intros [-> H]. rewrite IH by assumption. reflexivity.
Qed.

Lemma dotFree_yearString (y : Z) : dotFree (yearString y).
Proof.
  unfold yearString. destruct ((0 <=? y) && (y <=? 9999)).
  - apply dotFree_digits.
  - destruct (y <? 0); (split; [reflexivity | apply dotFree_digits]).
Qed.

Lemma dotFree_dateTimeString (t : Z) : dotFree (dateTimeString t).
Proof.
  unfold dateTimeString. destruct (civilFromDays (t / 86400000)) as [[y m] d].
  repeat first [ apply dotFree_app
               | apply dotFree_yearString
               | apply dotFree_digits
               | split; [reflexivity |]
               | exact I ].
Qed.

Lemma append_assoc (s1 s2 s3 : string) :
  ((s1 ++ s2) ++ s3 = s1 ++ (s2 ++ s3))%string.
Proof. induction s1 as [| c s1 IH]; cbn [append]; congruence. Qed.

End IsoFacts.

(** ** Timestamps: [dateIso] *)

(** [dateIso] is [toISOString] without the milliseconds. *)
Lemma dateIso_dateTimeString (t : Z) :
  dateIso t = (Iso.dateTimeString t ++ "Z")%string.
Proof.
  unfold dateIso, Iso.toISOString. cbv zeta.
  change ("." ++ Iso.digits 3 (t mod 1000) ++ "Z")%string
    with (String "." (Iso.digits 3 (t mod 1000) ++ "Z")).
  rewrite IsoFacts.beforeDot_app_dot by apply IsoFacts.dotFree_dateTimeString.
  reflexivity.
Qed.

(** [dateIso] truncates to the second: it is the same on an instant and on
    the whole second at or before it. *)
Lemma dateIso_floorSecond (t : Z) : dateIso (floorSecond t) = dateIso t.
Proof.
  rewrite !dateIso_dateTimeString. f_equal.
  unfold Iso.dateTimeString, floorSecond.
  replace (1000 * (t / 1000) / 86400000) with (t / 86400000)
    by (Z.to_euclidean_division_equations; lia).
  destruct (Iso.civilFromDays (t / 86400000)) as [[y m] d].
  replace ((1000 * (t / 1000)) mod 86400000 / 3600000) with (t mod 86400000 / 3600000)
    by (Z.to_euclidean_division_equations; lia).
  replace (((1000 * (t / 1000)) mod 86400000 / 60000) mod 60)
    with ((t mod 86400000 / 60000) mod 60)
    by (Z.to_euclidean_division_equations; lia).
  replace (((1000 * (t / 1000)) mod 86400000 / 1000) mod 60)
    with ((t mod 86400000 / 1000) mod 60)
    by (Z.to_euclidean_division_equations; lia).
  reflexivity.
Qed.

(** In the years 0000 to 9999 the timestamp is made of a year of four
    digits and of a month, a day, an hour, a minute and a second of two. *)
Lemma dateIso_form (t : Z) :
  four_digit_year t ->
  exists y m d hours minutes seconds,
    0 <= y <= 9999 /\ 1 <= m <= 12 /\ 1 <= d <= 31 /\
    0 <= hours <= 23 /\ 0 <= minutes <= 59 /\ 0 <= seconds <= 59 /\
    Iso.daysFromCivil y m d * 86400000
      + hours * 3600000 + minutes * 60000 + seconds * 1000 = floorSecond t /\
    dateIso t = (Iso.digits 4 y ++ "-" ++ Iso.digits 2 m ++ "-" ++ Iso.digits 2 d ++ "T"
                 ++ Iso.digits 2 hours ++ ":" ++ Iso.digits 2 minutes ++ ":"
                 ++ Iso.digits 2 seconds ++ "Z")%string.
Proof.
  intros Ht. rewrite dateIso_dateTimeString. unfold Iso.dateTimeString, floorSecond.
  pose proof (IsoFacts.civil_roundtrip (t / 86400000)) as Hrt.
  pose proof (IsoFacts.civil_year_range (t / 86400000)) as Hyr.
  destruct (Iso.civilFromDays (t / 86400000)) as [[y m] d]. cbn [fst] in Hyr.
  destruct Hrt as (Hday & Hm & Hd).
  assert (Hy : 0 <= y <= 9999).
  { apply Hyr. unfold four_digit_year in Ht. Z.to_euclidean_division_equations; lia. }
  exists y, m, d, (t mod 86400000 / 3600000), ((t mod 86400000 / 60000) mod 60),
    ((t mod 86400000 / 1000) mod 60).
  do 6 (split; [first [assumption | Z.to_euclidean_division_equations; lia] |]).
  split.
  - rewrite Hday. Z.to_euclidean_division_equations; lia.
  - unfold Iso.yearString.
    rewrite (proj2 (Z.leb_le 0 y)), (proj2 (Z.leb_le y 9999)) by lia. cbn [andb].
    rewrite !IsoFacts.append_assoc. reflexivity.
Qed.

(** A timestamp made that way denotes the instant of its fields. *)
Lemma parse_form (y m d hours minutes seconds : Z) :
  0 <= y <= 9999 -> 0 <= m <= 99 -> 0 <= d <= 99 ->
  0 <= hours <= 99 -> 0 <= minutes <= 99 -> 0 <= seconds <= 99 ->
  Iso.parse (Iso.digits 4 y ++ "-" ++ Iso.digits 2 m ++ "-" ++ Iso.digits 2 d ++ "T"
             ++ Iso.digits 2 hours ++ ":" ++ Iso.digits 2 minutes ++ ":"
             ++ Iso.digits 2 seconds ++ "Z")%string
  = Some (Iso.daysFromCivil y m d * 86400000
          + hours * 3600000 + minutes * 60000 + seconds * 1000).
Proof.
  intros Hy Hm Hd Hh Hmi Hs. unfold Iso.parse.
  repeat (rewrite IsoFacts.field_digits;
          cbn [append Iso.expect Ascii.eqb Bool.eqb]).
  cbn [Iso.finish].
  change (10 ^ Z.of_nat 4) with 10000. change (10 ^ Z.of_nat 2) with 100.
  rewrite !Z.mul_0_l, !Z.add_0_l.
  rewrite !Z.mod_small by lia. reflexivity.
Qed.

(** In the years 0000 to 9999, [dateIso t] denotes the whole second at or
    before [t]. *)
Lemma dateIso_denotes (t : Z) :
  four_digit_year t -> denotes (dateIso t) (floorSecond t).
Proof.
  intros Ht. unfold denotes.
  destruct (dateIso_form t Ht)
    as (y & m & d & hours & minutes & seconds & Hy & Hm & Hd & Hh & Hmi & Hs & Hsum & ->).
  rewrite parse_form by lia. f_equal. exact Hsum.
Qed.

Lemma floorSecond_le (t : Z) : floorSecond t <= t.
Proof. unfold floorSecond. Z.to_euclidean_division_equations; lia. Qed.

Lemma floorSecond_mono (s t : Z) : s <= t -> floorSecond s <= floorSecond t.
Proof. unfold floorSecond. intros H. Z.to_euclidean_division_equations; lia. Qed.

Lemma floorSecond_whole (t : Z) : whole_second t -> floorSecond t = t.
Proof. unfold floorSecond, whole_second. intros H. Z.to_euclidean_division_equations; lia. Qed.

(** ** Claims on the window truncator *)

Lemma clipSchedule_sorted (schedule : list WorkingScheduleElement) (from until : Z) :
  sorted_by_start schedule -> sorted_by_start (clipSchedule schedule from until).
Proof.
  unfold sorted_by_start, clipSchedule. intros Hs.
  induction Hs as [| a l _ IH Ha]; simpl; [constructor |].
  destruct (clipShift from until a) as [| a' rest] eqn:Hclip; [exact IH |].
  assert (Hin : In a' (clipShift from until a)) by (rewrite Hclip; left; reflexivity).
  assert (Hrest : rest = []).
  { unfold clipShift in Hclip.
    destruct ((start_at a <? until) && (from <? end_at a)); [| discriminate].
    destruct (Z.max (start_at a) from <? Z.min (end_at a) until); [| discriminate].
    congruence. }
  subst rest. simpl. constructor; [exact IH |].
  apply clipShift_In in Hin as (-> & _).
  apply Forall_forall. intros c Hc.
  apply in_flat_map in Hc as (b & Hb & Hc).
  apply clipShift_In in Hc as (-> & _).
  rewrite Forall_forall in Ha. specialize (Ha b Hb).
  cbn [start_at]. lia.
Qed.

(** C8, as stated, fails: with a window that starts and ends inside one
    second, the single output shift has the same timestamp at both ends,
    the one of the whole second before [from]; so it is not the case that
    every output shift has [from <= start_at < end_at <= until]. *)
Lemma C8_subsecond_window_not_within :
  ~ (forall out,
       In out (truncateAndFilterSchedule [mkShift (Some "A"%string) 0 86400000] 500 900) ->
       exists s e,
         denotes (out_start_at out) s /\ denotes (out_end_at out) e /\
         500 <= s /\ s < e /\ e <= 900).
Proof.
  intros H.
  destruct (H (mkOut (Some "A"%string) "1970-01-01T00:00:00Z" "1970-01-01T00:00:00Z")
              (or_introl eq_refl))
    as (s & e & Hs & He & Hfrom & Hlt & Huntil).
  vm_compute in Hs. injection Hs as <-. lia.
Qed.

(** The output of that scenario, and a timestamp outside the years 0000 to
    9999, which has another form. *)
Example truncateAndFilterSchedule_subsecond_window :
  truncateAndFilterSchedule [mkShift (Some "A"%string) 0 86400000] 500 900
  = [mkOut (Some "A"%string) "1970-01-01T00:00:00Z" "1970-01-01T00:00:00Z"] /\
  dateIso 253402300800000 = "+010000-01-01T00:00:00Z"%string.
Proof. split; reflexivity. Qed.

(** C8, amended: [truncateAndFilterSchedule] keeps the order of the schedule
    and maps each shift to at most one output shift; a shift with no overlap
    with the window ([shiftStart >= until] or [shiftEnd <= from]) is
    dropped, and so is one whose clipped interval is empty or inverted;
    every output shift comes from a shift clipped to
    [[max(shiftStart, from), min(shiftEnd, until))], an interval [[s, e)]
    with [from <= s < e <= until], and carries the timestamps of [s] and
    [e], which are those of the whole seconds at or before them.  For
    instants in the years 0000 to 9999 these timestamps are of the form
    YYYY-MM-DDTHH:MM:SSZ and denote those whole seconds, so that as instants
    [floorSecond from <= start_at <= end_at <= until]; and when [s] and [e]
    are whole seconds they denote [s] and [e] themselves, so that
    [from <= start_at < end_at <= until]. *)
Theorem C8_truncation_to_window
    (schedule : list WorkingScheduleElement) (from until : Z) :
  truncateAndFilterSchedule schedule from until
  = map formatShift (clipSchedule schedule from until) /\
  (sorted_by_start schedule -> sorted_by_start (clipSchedule schedule from until)) /\
  (forall shift,
      until <= start_at shift \/ end_at shift <= from ->
      truncateAndFilterSchedule [shift] from until = []) /\
  (forall shift,
      Z.min (end_at shift) until <= Z.max (start_at shift) from ->
      truncateAndFilterSchedule [shift] from until = []) /\
  (forall out,
      In out (truncateAndFilterSchedule schedule from until) ->
      exists shift s e,
        In shift schedule /\
        s = Z.max (start_at shift) from /\ e = Z.min (end_at shift) until /\
        from <= s /\ s < e /\ e <= until /\
        out = mkOut (user shift) (dateIso s) (dateIso e) /\
        dateIso s = dateIso (floorSecond s) /\ dateIso e = dateIso (floorSecond e) /\
        (four_digit_year s -> four_digit_year e ->
         denotes (out_start_at out) (floorSecond s) /\
         denotes (out_end_at out) (floorSecond e) /\
         floorSecond from <= floorSecond s /\ floorSecond s <= floorSecond e /\
         floorSecond e <= until /\
         (whole_second s -> whole_second e ->
          denotes (out_start_at out) s /\ denotes (out_end_at out) e))).
Proof.
  split; [apply truncateAndFilterSchedule_clipSchedule |].
  split; [apply clipSchedule_sorted |].
  split; [| split].
  - intros shift Hout. rewrite truncateAndFilterSchedule_clipSchedule.
    unfold clipSchedule. simpl. rewrite clipShift_outside by assumption. reflexivity.
  - intros shift Hempty. rewrite truncateAndFilterSchedule_clipSchedule.
    unfold clipSchedule. simpl. rewrite clipShift_empty by assumption. reflexivity.
  - intros out Hout. rewrite truncateAndFilterSchedule_clipSchedule in Hout.
    apply in_map_iff in Hout as (c & <- & Hc). unfold clipSchedule in Hc.
    apply in_flat_map in Hc as (shift & Hshift & Hc).
    apply clipShift_In in Hc as (-> & H1 & H2 & H3 & H4 & _).
    cbn [start_at end_at] in H3, H4.
    exists shift, (Z.max (start_at shift) from), (Z.min (end_at shift) until).
    split; [assumption |]. split; [reflexivity |]. split; [reflexivity |].
    split; [lia |]. split; [lia |]. split; [lia |]. split; [reflexivity |].
    split; [symmetry; apply dateIso_floorSecond |].
    split; [symmetry; apply dateIso_floorSecond |].
    intros Hs He. cbn [formatShift out_start_at out_end_at start_at end_at user].
    split; [apply dateIso_denotes, Hs |]. split; [apply dateIso_denotes, He |].
    split; [apply floorSecond_mono; lia |]. split; [apply floorSecond_mono; lia |].
    split.
    + pose proof (floorSecond_le (Z.min (end_at shift) until)). lia.
    + intros Hws Hwe.
      pose proof (dateIso_denotes _ Hs) as Hds. pose proof (dateIso_denotes _ He) as Hde.
      rewrite floorSecond_whole in Hds, Hde by assumption. split; assumption.
Qed.

Lemma C8_truncation_to_window_witness :
  exists s e,
    denotes "2025-01-01T12:00:00Z" s /\ denotes "2025-01-02T00:00:00Z" e /\
    Scenarios.jan1 + Scenarios.day / 2 <= s /\ s < e /\
    e <= Scenarios.jan1 + 3 * Scenarios.day.
Proof.
  destruct (proj2 (proj2 (proj2 (proj2
              (C8_truncation_to_window
                 [mkShift (Some "A"%string) Scenarios.jan1 (Scenarios.jan1 + Scenarios.day)]
                 (Scenarios.jan1 + Scenarios.day / 2)
                 (Scenarios.jan1 + 3 * Scenarios.day)))))
              (mkOut (Some "A"%string) "2025-01-01T12:00:00Z" "2025-01-02T00:00:00Z")
              (or_introl eq_refl))
    as (shift & s & e & Hin & Hs & He & Hfrom & Hlt & Huntil & _ & _ & _ & Hdenotes).
  destruct Hin as [<- | []].
  assert (Hs' : s = Scenarios.jan1 + Scenarios.day / 2) by (rewrite Hs; reflexivity).
  assert (He' : e = Scenarios.jan1 + Scenarios.day) by (rewrite He; reflexivity).
  destruct Hdenotes as (_ & _ & _ & _ & _ & Hwhole).
  - rewrite Hs'. split; [discriminate | reflexivity].
  - rewrite He'. split; [discriminate | reflexivity].
  - destruct Hwhole as [Hds Hde].
    + rewrite Hs'. reflexivity.
    + rewrite He'. reflexivity.
    + exists s, e. cbn [out_start_at out_end_at] in Hds, Hde.
      split; [exact Hds |]. split; [exact Hde |].
      split; [exact Hfrom |]. split; [exact Hlt | exact Huntil].
Defined.

Lemma C4_throws_iff_interval_not_positive_witness :
  generateBaseSchedule_fuel 0 (mkConfig ["A"%string] 0 0) 0 1
  = Some (Thrown "handover_interval_days must be greater than 0") /\
  exists base,
    generateBaseSchedule Scenarios.configAB Scenarios.from13 Scenarios.until13
    = Some (Returned base).
Proof.
  split.
  - apply (proj1 (proj2 (C4_throws_iff_interval_not_positive
                           (mkConfig ["A"%string] 0 0) 0 1))).
    discriminate.
  - apply (proj2 (proj2 (proj2 (C4_throws_iff_interval_not_positive
                                  Scenarios.configAB Scenarios.from13 Scenarios.until13)))).
    split; [discriminate | reflexivity].
Defined.

(** ** The scenarios of the specification *)

Module ScenarioFacts.

Import Scenarios.
Local Open Scope string_scope.

(** Scenario 1: three days from the anchor. *)
Example scenario1 :
  makeSchedule configAB [] from13 until13
  = Some (Returned
      [mkOut (Some "A") "2025-01-01T00:00:00Z" "2025-01-02T00:00:00Z";
       mkOut (Some "B") "2025-01-02T00:00:00Z" "2025-01-03T00:00:00Z";
       mkOut (Some "A") "2025-01-03T00:00:00Z" "2025-01-04T00:00:00Z"]).
Proof. reflexivity. Qed.

(** Scenario 2: a window that starts half a day before the anchor. *)
Example scenario2 :
  makeSchedule configAB [] (jan1 - day / 2) (jan1 + day)
  = Some (Returned
      [mkOut (Some "B") "2024-12-31T12:00:00Z" "2025-01-01T00:00:00Z";
       mkOut (Some "A") "2025-01-01T00:00:00Z" "2025-01-02T00:00:00Z"]).
Proof. reflexivity. Qed.

(** Scenario 3: an override over parts of two base shifts. *)
Example scenario3 :
  makeSchedule configAB [overrideC] from13 until13
  = Some (Returned
      [mkOut (Some "A") "2025-01-01T00:00:00Z" "2025-01-01T12:00:00Z";
       mkOut (Some "C") "2025-01-01T12:00:00Z" "2025-01-02T12:00:00Z";
       mkOut (Some "B") "2025-01-02T12:00:00Z" "2025-01-03T00:00:00Z";
       mkOut (Some "A") "2025-01-03T00:00:00Z" "2025-01-04T00:00:00Z"]).
Proof. reflexivity. Qed.

(** Scenario 4: an override over exactly one base shift. *)
Example scenario4 :
  makeSchedule configAB [overrideD] from13 until13
  = Some (Returned
      [mkOut (Some "A") "2025-01-01T00:00:00Z" "2025-01-02T00:00:00Z";
       mkOut (Some "B") "2025-01-02T00:00:00Z" "2025-01-03T00:00:00Z";
       mkOut (Some "D") "2025-01-03T00:00:00Z" "2025-01-04T00:00:00Z"]).
Proof. reflexivity. Qed.

(** Scenario 5: an override entirely outside the window. *)
Example scenario5 :
  makeSchedule configAB [overrideBefore] from13 until13
  = makeSchedule configAB [] from13 until13.
Proof. reflexivity. Qed.

(** Scenario 6: an override that ends exactly at [from]. *)
Example scenario6 :
  makeSchedule configAB [mkShift (Some "C") (jan1 - day / 2) jan1] from13 until13
  = makeSchedule configAB [] from13 until13.
Proof. reflexivity. Qed.

End ScenarioFacts.

(** * Further properties of the code *)

(** ** The base schedule generator, instant by instant *)

Lemma div_between (x i d : Z) :
  0 < d -> i * d <= x < (i + 1) * d -> x / d = i.
Proof.
  intros Hd Hx. symmetry. apply (Z.div_unique x d i (x - i * d)); lia.
Qed.

(** X1: the user of the rotation at an instant does not depend on the
    window: in the base schedule of any window within [exact_range], an
    instant [t] of the generated range is held by one shift, whose user is
    [users[floor((t - anchor) / interval) mod N]]. *)
Theorem base_assignment_window_independent
    (config : ScheduleConfig) (from until : Z)
    (base : list WorkingScheduleElement) (t : Z) :
  valid_config config ->
  exact_range config from until ->
  generateBaseSchedule config from until = Some (Returned base) ->
  first_shift_start config from <= t < range_end base (first_shift_start config from) ->
  assigned base t = [rotation_user config t] /\
  exists u, rotation_user config t = Some u.
Proof.
  intros [Husers Hdays] _ Hbase Ht.
  pose proof (interval_ms_pos config Hdays) as Hpos.
  destruct (base_covers config from until base Hdays Hbase t Ht) as (sh & Hin & Hsh).
  destruct (In_nth_error _ _ Hin) as [k Hk].
  destruct (base_nth config from until base Hdays Hbase k sh Hk) as (Hs & He & _).
  pose proof (base_nth_user config from until base Hdays Hbase k sh Husers Hk) as Hu.
  apply contains_true in Hsh as Hrange.
  assert (Hdiv : (t - handover_start_at config) / interval_ms_of config
                 = intervals_passed_of config from + Z.of_nat k).
  { apply div_between; [assumption | lia]. }
  assert (Hrot : rotation_user config t = user sh).
  { unfold rotation_user. rewrite Hdiv, Hu. reflexivity. }
  split.
  - rewrite Hrot. apply assigned_holder; [| assumption | assumption].
    apply separated_exclusive, (base_separated config from until base Hdays Hbase).
  - rewrite Hrot, Hu.
    assert (HN : 0 < Z.of_nat (List.length (users config))).
    { destruct (users config); [congruence | simpl; lia]. }
    pose proof (Z.mod_pos_bound (intervals_passed_of config from + Z.of_nat k) _ HN) as Hm.
    destruct (nth_error (users config) _) as [u |] eqn:Hnth; [eauto |].
    apply nth_error_None in Hnth. lia.
Qed.

Lemma base_assignment_window_independent_witness :
  assigned
    [mkShift (Some "A"%string) Scenarios.jan1 (Scenarios.jan1 + Scenarios.day);
     mkShift (Some "B"%string) (Scenarios.jan1 + Scenarios.day)
       (Scenarios.jan1 + 2 * Scenarios.day);
     mkShift (Some "A"%string) (Scenarios.jan1 + 2 * Scenarios.day)
       (Scenarios.jan1 + 3 * Scenarios.day)]
    (Scenarios.jan1 + Scenarios.day + 5)
  = [rotation_user Scenarios.configAB (Scenarios.jan1 + Scenarios.day + 5)].
Proof.
  refine (proj1 (base_assignment_window_independent Scenarios.configAB
                   Scenarios.from13 Scenarios.until13 _ _ _ _ eq_refl _)).
  - split; [discriminate | reflexivity].
  - exact_range_holds.
  - split; [discriminate | reflexivity].
Defined.

(** X2: the generator makes no shift that the window does not need:
    within [exact_range] the
    base schedule has [ceil((until - start) / interval)] shifts, [start]
    being the start of the shift that holds [from] (none when [until] is not
    after it), and for [from < until] every one of them overlaps the
    window. *)
Theorem base_shift_count
    (config : ScheduleConfig) (from until : Z) (base : list WorkingScheduleElement) :
  0 < handover_interval_days config ->
  exact_range config from until ->
  generateBaseSchedule config from until = Some (Returned base) ->
  Z.of_nat (List.length base)
  = Z.max 0 ((until - first_shift_start config from + interval_ms_of config - 1)
             / interval_ms_of config) /\
  (from < until ->
   Forall (fun sh => start_at sh < until /\ from < end_at sh) base).
Proof.
  intros Hdays _ Hbase.
  pose proof (interval_ms_pos config Hdays) as Hpos.
  pose proof (base_length config from until base Hdays Hbase) as Hlen.
  split.
  - set (S0 := first_shift_start config from) in *.
    set (I := interval_ms_of config) in *.
    assert (Hlast : base <> [] -> S0 + (Z.of_nat (List.length base) - 1) * I < until).
    { intros Hne.
      destruct (nth_error base (List.length base - 1)) as [sh |] eqn:Hsh.
      - destruct (base_nth config from until base Hdays Hbase _ sh Hsh) as (Hs & _ & Hu).
        unfold first_shift_start in S0. fold I in Hs.
        replace (Z.of_nat (List.length base) - 1)
          with (Z.of_nat (List.length base - 1)).
        + subst S0. lia.
        + destruct base; [congruence | simpl List.length; lia].
      - apply nth_error_None in Hsh. destruct base; [congruence | simpl in Hsh; lia]. }
    pose proof (Z.div_mod (until - S0 + I - 1) I ltac:(lia)) as Hdm.
    pose proof (Z.mod_pos_bound (until - S0 + I - 1) I Hpos) as Hmb.
    destruct base as [| sh0 rest].
    + simpl List.length in *. nia.
    + specialize (Hlast ltac:(discriminate)). nia.
  - intros Hwindow. apply Forall_forall. intros sh Hin.
    destruct (In_nth_error _ _ Hin) as [k Hk].
    destruct (base_nth config from until base Hdays Hbase k sh Hk) as (Hs & He & Hu).
    pose proof (first_shift_start_gt config from Hdays) as Hgt.
    unfold first_shift_start in Hgt. split; [assumption | nia].
Qed.

Lemma base_shift_count_witness :
  exists base,
    generateBaseSchedule Scenarios.configAB (Scenarios.jan1 + 1)
      (Scenarios.jan1 + 2 * Scenarios.day + 1) = Some (Returned base) /\
    Z.of_nat (List.length base) = 3.
Proof.
  eexists. split; [reflexivity |].
  refine (proj1 (base_shift_count Scenarios.configAB (Scenarios.jan1 + 1)
                   (Scenarios.jan1 + 2 * Scenarios.day + 1) _ eq_refl _ eq_refl)).
  exact_range_holds.
Defined.

(** ** The override applier on overrides that overlap *)

Section Winner.

Variable t : Z.

Let step (acc : option WorkingScheduleElement) (o : WorkingScheduleElement) :=
  if contains o t then Some o else acc.

Lemma last_holder_snoc (l : list WorkingScheduleElement) (x : WorkingScheduleElement) :
  fold_left step (l ++ [x]) None
  = if contains x t then Some x else fold_left step l None.
Proof. rewrite fold_left_app. reflexivity. Qed.

Lemma last_holder_none (l : list WorkingScheduleElement) :
  fold_left step l None = None <-> (forall x, In x l -> contains x t = false).
Proof.
  induction l as [| x l IH] using rev_ind.
  - split; [intros _ x [] | reflexivity].
  - rewrite last_holder_snoc. split.
    + intros H y Hy. apply in_app_or in Hy.
      destruct (contains x t) eqn:Hx; [discriminate |].
      destruct Hy as [Hy | [<- | []]]; [apply IH; assumption | assumption].
    + intros H. rewrite (H x) by (apply in_or_app; right; left; reflexivity).
      apply IH. intros y Hy. apply H, in_or_app. left. assumption.
Qed.

Lemma last_holder_some (l : list WorkingScheduleElement) (o : WorkingScheduleElement) :
  fold_left step l None = Some o ->
  exists l1 l2, l = l1 ++ o :: l2 /\ contains o t = true /\
                (forall x, In x l2 -> contains x t = false).
Proof.
  induction l as [| x l IH] using rev_ind.
  - discriminate.
  - rewrite last_holder_snoc. destruct (contains x t) eqn:Hx.
    + intros [= <-]. exists l, []. repeat split; [assumption | intros y []].
    + intros H. destruct (IH H) as (l1 & l2 & -> & Ho & Hl2).
      exists l1, (l2 ++ [x]). rewrite <- app_assoc. repeat split; [assumption |].
      intros y Hy. apply in_app_or in Hy.
      destruct Hy as [Hy | [<- | []]]; [apply Hl2; assumption | assumption].
Qed.

Lemma fold_assigned_last_holder (l : list WorkingScheduleElement) :
  Forall (fun o => start_at o <= end_at o) l ->
  forall w,
    Permutation (assigned (fold_left applyOverride l w) t)
                (match fold_left step l None with
                 | Some o => [user o]
                 | None => assigned w t
                 end).
Proof.
  intros Hl w. destruct (fold_left step l None) as [o |] eqn:Hlast.
  - destruct (last_holder_some l o Hlast) as (l1 & l2 & -> & Ho & Hl2).
    apply Forall_app in Hl as [_ Hl]. apply Forall_cons_iff in Hl as [Hle Hl].
    rewrite fold_left_app. simpl.
    eapply perm_trans; [apply fold_assigned_outside; assumption |].
    eapply perm_trans; [apply applyOverride_assigned; assumption |].
    rewrite Ho. apply Permutation_refl.
  - apply fold_assigned_outside; [assumption |].
    apply last_holder_none, Hlast.
Qed.

End Winner.

Lemma sorted_app_le (l1 l2 : list WorkingScheduleElement) (o x : WorkingScheduleElement) :
  sorted_by_start (l1 ++ o :: l2) -> In x l1 -> start_at x <= start_at o.
Proof.
  unfold sorted_by_start. induction l1 as [| y l1 IH]; intros Hs Hx; [destruct Hx |].
  simpl in Hs. apply StronglySorted_inv in Hs as [Hs Hy].
  destruct Hx as [<- | Hx]; [| apply IH; assumption].
  rewrite Forall_forall in Hy. apply Hy, in_or_app. right. left. reflexivity.
Qed.

(** X3: overrides that overlap each other are resolved by the order of
    application.  For any schedule that holds no instant twice and any
    overrides whose start is not after their end, the schedule returned by
    [applyOverrides] assigns an instant held by some override to the user of
    the one applied last, and an instant held by none to what the schedule
    assigned before; the override applied last is one that holds the instant
    and whose start is the latest among those that do. *)
Theorem applyOverrides_last_override_wins
    (baseSchedule overrides : list WorkingScheduleElement) (t : Z) :
  exclusive baseSchedule ->
  Forall (fun o => start_at o <= end_at o) overrides ->
  assigned (applyOverrides baseSchedule overrides) t
  = match winner overrides t with
    | Some o => [user o]
    | None => assigned baseSchedule t
    end /\
  (winner overrides t = None <->
   forall o, In o overrides -> contains o t = false) /\
  (forall o, winner overrides t = Some o ->
     In o overrides /\ contains o t = true /\
     forall o', In o' overrides -> contains o' t = true -> start_at o' <= start_at o).
Proof.
  intros Hex Hle. split; [| split].
  - apply perm_short_eq.
    + destruct (winner overrides t); [simpl; lia | apply Hex].
    + unfold applyOverrides, winner.
      apply fold_assigned_last_holder, Forall_sortByStart, Hle.
  - unfold winner. rewrite last_holder_none. split; intros H o Ho; apply H.
    + eapply Permutation_in; [apply Permutation_sym, sortByStart_perm | exact Ho].
    + eapply Permutation_in; [apply sortByStart_perm | exact Ho].
  - intros o Ho. unfold winner in Ho.
    destruct (last_holder_some t _ o Ho) as (l1 & l2 & Hsplit & Hot & Hl2).
    split; [| split; [assumption |]].
    + eapply Permutation_in; [apply sortByStart_perm |].
      rewrite Hsplit. apply in_or_app. right. left. reflexivity.
    + intros o' Hin' Hot'.
      assert (Hin : In o' (l1 ++ o :: l2)).
      { rewrite <- Hsplit.
        eapply Permutation_in; [apply Permutation_sym, sortByStart_perm | exact Hin']. }
      apply in_app_or in Hin. destruct Hin as [Hin | [<- | Hin]].
      * eapply sorted_app_le; [| exact Hin]. rewrite <- Hsplit. apply sortByStart_sorted.
      * lia.
      * rewrite (Hl2 o' Hin) in Hot'. discriminate.
Qed.

Lemma applyOverrides_last_override_wins_witness :
  assigned (applyOverrides
              [mkShift (Some "A"%string) 0 100]
              [mkShift (Some "Y"%string) 40 80; mkShift (Some "X"%string) 20 60])
    50
  = [Some "Y"%string].
Proof.
  refine (proj1 (applyOverrides_last_override_wins
                   [mkShift (Some "A"%string) 0 100]
                   [mkShift (Some "Y"%string) 40 80; mkShift (Some "X"%string) 20 60]
                   50 _ _)).
  - intros t. unfold assigned. simpl. destruct (contains _ t); simpl; lia.
  - repeat constructor; discriminate.
Defined.

Lemma strictly_sorted_sorted (l : list WorkingScheduleElement) :
  StronglySorted (fun a b => start_at a < start_at b) l -> sorted_by_start l.
Proof.
  unfold sorted_by_start. intros H. induction H as [| a l _ IH Ha]; constructor.
  - exact IH.
  - eapply Forall_impl; [| exact Ha]. simpl. intros; lia.
Qed.

(** X4: [applyOverrides] keeps a schedule well formed whether or not the
    overrides overlap each other.  For any schedule of shifts of positive
    duration in which each shift ends before the later ones start, and any
    overrides with [start < end], the returned schedule is again of that
    kind and sorted by start, and every instant that was held by a shift is
    still held by exactly one. *)
Theorem applyOverrides_keeps_well_formed
    (schedule overrides : list WorkingScheduleElement) :
  separated schedule ->
  Forall positive_duration schedule ->
  Forall valid_override overrides ->
  separated (applyOverrides schedule overrides) /\
  Forall positive_duration (applyOverrides schedule overrides) /\
  sorted_by_start (applyOverrides schedule overrides) /\
  (forall t, assigned schedule t <> [] ->
             exists u, assigned (applyOverrides schedule overrides) t = [u]).
Proof.
  intros Hsep Hpos Hvalid.
  assert (Hle : Forall (fun o => start_at o <= end_at o) overrides).
  { eapply Forall_impl; [| exact Hvalid]. exact valid_override_le. }
  assert (Hsorted : sorted_by_start (applyOverrides schedule overrides)).
  { apply applyOverrides_sorted, strictly_sorted_sorted,
      separated_positive_strictly_sorted; assumption. }
  assert (Hex : exclusive (applyOverrides schedule overrides)).
  { apply applyOverrides_exclusive; [apply separated_exclusive |]; assumption. }
  assert (Hpos' : Forall positive_duration (applyOverrides schedule overrides)).
  { apply applyOverrides_positive; assumption. }
  split; [apply sorted_exclusive_positive_separated; assumption |].
  split; [assumption |]. split; [assumption |].
  intros t Ht. pose proof (applyOverrides_covers schedule overrides t Hle Ht) as Hcov.
  specialize (Hex t).
  destruct (assigned (applyOverrides schedule overrides) t) as [| u [| u' rest]];
    [congruence | eauto | simpl in Hex; lia].
Qed.

Lemma applyOverrides_keeps_well_formed_witness :
  separated (applyOverrides
               [mkShift (Some "A"%string) 0 100]
               [mkShift (Some "Y"%string) 40 80; mkShift (Some "X"%string) 20 60]).
Proof.
  refine (proj1 (applyOverrides_keeps_well_formed
                   [mkShift (Some "A"%string) 0 100]
                   [mkShift (Some "Y"%string) 40 80; mkShift (Some "X"%string) 20 60]
                   _ _ _)).
  - repeat constructor.
  - repeat constructor.
  - repeat constructor.
Defined.

(** ** The same override twice *)

(** Two sorted lists in which the elements of each start are the same, in
    the same order, are the same list. *)
Lemma stable_sorted_unique (l1 : list WorkingScheduleElement) :
  forall l2,
    sorted_by_start l1 -> sorted_by_start l2 ->
    (forall k, filter (fun y => start_at y =? k) l1
               = filter (fun y => start_at y =? k) l2) ->
    l1 = l2.
Proof.
  unfold sorted_by_start.
  induction l1 as [| a l1 IH]; intros l2 H1 H2 Hf.
  - destruct l2 as [| b l2]; [reflexivity |].
    specialize (Hf (start_at b)). simpl in Hf. rewrite Z.eqb_refl in Hf. discriminate.
  - destruct l2 as [| b l2].
    + specialize (Hf (start_at a)). simpl in Hf. rewrite Z.eqb_refl in Hf. discriminate.
    + apply StronglySorted_inv in H1 as [H1 Ha], H2 as [H2 Hb].
      rewrite Forall_forall in Ha, Hb.
      assert (Hab : start_at a = start_at b).
      { assert (Hle1 : start_at b <= start_at a).
        { pose proof (Hf (start_at a)) as Hfa. simpl in Hfa.
          rewrite Z.eqb_refl in Hfa.
          destruct (Z.eqb_spec (start_at b) (start_at a)) as [E | _]; [lia |].
          assert (Hin : In a (filter (fun y => start_at y =? start_at a) l2))
            by (rewrite <- Hfa; left; reflexivity).
          apply filter_In in Hin as [Hin _]. apply Hb, Hin. }
        assert (Hle2 : start_at a <= start_at b).
        { pose proof (Hf (start_at b)) as Hfb. simpl in Hfb.
          rewrite Z.eqb_refl in Hfb.
          destruct (Z.eqb_spec (start_at a) (start_at b)) as [E | _]; [lia |].
          assert (Hin : In b (filter (fun y => start_at y =? start_at b) l1))
            by (rewrite Hfb; left; reflexivity).
          apply filter_In in Hin as [Hin _]. apply Ha, Hin. }
        lia. }
      pose proof (Hf (start_at a)) as Hfa. simpl in Hfa.
      rewrite <- Hab, Z.eqb_refl in Hfa. injection Hfa as <- Hfa.
      f_equal. apply IH; try assumption.
      intros k. specialize (Hf k). simpl in Hf.
      destruct (start_at a =? k); [injection Hf as Hf |]; exact Hf.
Qed.

Lemma sortByStart_sorted_prefix (l r : list WorkingScheduleElement) :
  sortByStart (sortByStart l ++ r) = sortByStart (l ++ r).
Proof.
  apply stable_sorted_unique; try apply sortByStart_sorted.
  intros k. rewrite !sortByStart_stable, !filter_app, sortByStart_stable. reflexivity.
Qed.

Lemma flat_map_fixed {A : Type} (f : A -> list A) (l : list A) :
  (forall x, In x l -> f x = [x]) -> flat_map f l = l.
Proof.
  induction l as [| x l IH]; intros H; simpl; [reflexivity |].
  rewrite (H x (or_introl eq_refl)), IH; [reflexivity |].
  intros y Hy. apply H. right. assumption.
Qed.

(** What an override has left of a shift it does not touch again. *)
Lemma splitShift_remnant_fixed (o s x : WorkingScheduleElement) :
  start_at o <= end_at o -> In x (splitShift o s) -> splitShift o x = [x].
Proof.
  intros Ho. unfold splitShift at 1.
  destruct (Z.ltb_spec (start_at o) (end_at s)), (Z.ltb_spec (start_at s) (end_at o));
    cbn [negb andb]; intros Hx.
  - apply in_app_or in Hx. destruct Hx as [Hx | Hx].
    + destruct (Z.ltb_spec (start_at s) (start_at o)); [| destruct Hx].
      destruct Hx as [<- | []]. unfold splitShift. cbn [start_at end_at user].
      shift_cases; try reflexivity; lia.
    + destruct (Z.ltb_spec (end_at o) (end_at s)); [| destruct Hx].
      destruct Hx as [<- | []]. unfold splitShift. cbn [start_at end_at user].
      shift_cases; try reflexivity; lia.
  - destruct Hx as [<- | []]. unfold splitShift. shift_cases; try reflexivity; lia.
  - destruct Hx as [<- | []]. unfold splitShift. shift_cases; try reflexivity; lia.
  - destruct Hx as [<- | []]. unfold splitShift. shift_cases; try reflexivity; lia.
Qed.

Lemma splitShift_self (o : WorkingScheduleElement) :
  valid_override o -> splitShift o o = [].
Proof.
  unfold valid_override, splitShift. intros Ho. shift_cases; try reflexivity; lia.
Qed.

(** X5: an override supplied twice does what it does supplied once: for any
    schedule and any override with [start < end], applying the override to
    the schedule that it has already been applied to changes nothing. *)
Theorem applyOverrides_same_override_twice
    (schedule : list WorkingScheduleElement) (o : WorkingScheduleElement) :
  valid_override o ->
  applyOverrides (applyOverrides schedule [o]) [o] = applyOverrides schedule [o] /\
  applyOverrides schedule [o; o] = applyOverrides schedule [o].
Proof.
  intros Ho.
  assert (Hstep : applyOverride (applyOverride schedule o) o = applyOverride schedule o).
  { unfold applyOverride at 1 3.
    set (P := flat_map (splitShift o) schedule).
    destruct (sortByStart_remove P [] o) as (m1 & m2 & H1 & H2).
    rewrite app_nil_r in H2. unfold applyOverride. fold P. rewrite H1.
    rewrite flat_map_app. cbn [flat_map]. rewrite splitShift_self by assumption.
    cbn [app].
    assert (Hfix : forall x, In x (m1 ++ m2) -> splitShift o x = [x]).
    { intros x Hx. rewrite <- H2 in Hx.
      apply (Permutation_in _ (sortByStart_perm P)) in Hx.
      subst P. apply in_flat_map in Hx as (s & _ & Hx).
      eapply splitShift_remnant_fixed; [apply valid_override_le, Ho | exact Hx]. }
    rewrite !flat_map_fixed by (intros x Hx; apply Hfix, in_or_app; auto).
    rewrite <- H2, <- H1. apply sortByStart_sorted_prefix. }
  split.
  - exact Hstep.
  - unfold applyOverrides. cbn [sortByStart insertByStart].
    rewrite Z.leb_refl. cbn [fold_left]. exact Hstep.
Qed.

Lemma applyOverrides_same_override_twice_witness :
  applyOverrides [mkShift (Some "A"%string) 0 100]
    [mkShift (Some "X"%string) 20 60; mkShift (Some "X"%string) 20 60]
  = applyOverrides [mkShift (Some "A"%string) 0 100] [mkShift (Some "X"%string) 20 60].
Proof.
  apply (proj2 (applyOverrides_same_override_twice
                  [mkShift (Some "A"%string) 0 100] (mkShift (Some "X"%string) 20 60)
                  eq_refl)).
Defined.

(** ** An override that ends before it starts *)

(** X6: the invariant [start <= end] of an override is needed.  An override
    whose end is before its start and which falls strictly inside a shift
    (a malformed override, which nothing rejects) makes that shift leave two
    remnants that overlap: every instant from the end of the override to its
    start is held by both, so the returned schedule holds it twice, for the
    user of the shift. *)
Theorem malformed_override_duplicates_shift
    (schedule : list WorkingScheduleElement) (o shift : WorkingScheduleElement) (t : Z) :
  In shift schedule ->
  start_at shift < end_at o ->
  end_at o <= t < start_at o ->
  start_at o < end_at shift ->
  splitShift o shift
  = [mkShift (user shift) (start_at shift) (start_at o);
     mkShift (user shift) (end_at o) (end_at shift)] /\
  assigned (splitShift o shift) t = [user shift; user shift] /\
  (2 <= List.length (assigned (applyOverrides schedule [o]) t))%nat.
Proof.
  intros Hin H1 Ht H2.
  assert (Hsplit : splitShift o shift
                   = [mkShift (user shift) (start_at shift) (start_at o);
                      mkShift (user shift) (end_at o) (end_at shift)]).
  { unfold splitShift. shift_cases; try reflexivity; lia. }
  assert (Hassigned : assigned (splitShift o shift) t = [user shift; user shift]).
  { rewrite Hsplit. unfold assigned, contains. cbn [filter start_at end_at].
    rewrite (proj2 (Z.leb_le (start_at shift) t)), (proj2 (Z.ltb_lt t (start_at o))),
      (proj2 (Z.leb_le (end_at o) t)), (proj2 (Z.ltb_lt t (end_at shift))) by lia.
    reflexivity. }
  split; [exact Hsplit |]. split; [exact Hassigned |].
  unfold applyOverrides. cbn [sortByStart insertByStart fold_left]. unfold applyOverride.
  rewrite (Permutation_length (assigned_perm _ _ t (sortByStart_perm _))).
  destruct (in_split _ _ Hin) as (l1 & l2 & ->).
  rewrite flat_map_app. cbn [flat_map].
  rewrite !assigned_app, Hassigned, !length_app. simpl. lia.
Qed.

Lemma malformed_override_duplicates_shift_witness :
  assigned (splitShift (mkShift (Some "X"%string) 60 40) (mkShift (Some "A"%string) 0 100)) 50
  = [Some "A"%string; Some "A"%string].
Proof.
  refine (proj1 (proj2 (malformed_override_duplicates_shift
                          [mkShift (Some "A"%string) 0 100]
                          (mkShift (Some "X"%string) 60 40)
                          (mkShift (Some "A"%string) 0 100) 50
                          (or_introl eq_refl) _ _ _))).
  - reflexivity.
  - split; [discriminate | reflexivity].
  - reflexivity.
Defined.

(** ** The pipeline, end to end *)

(** Whatever the override, an instant that was held stays held. *)
Lemma applyOverride_covers_any (w : list WorkingScheduleElement)
    (o : WorkingScheduleElement) (t : Z) :
  assigned w t <> [] -> assigned (applyOverride w o) t <> [].
Proof.
  intros Hw Hnil. apply Hw. apply assigned_nil. intros s Hs.
  destruct (contains s t) eqn:Hst; [exfalso | reflexivity].
  unfold applyOverride in Hnil.
  pose proof (assigned_perm _ _ t (sortByStart_perm
                (flat_map (splitShift o) w ++ [o]))) as Hp.
  rewrite Hnil in Hp. apply Permutation_nil in Hp.
  rewrite assigned_app in Hp. apply app_eq_nil in Hp as [Hp Ho].
  rewrite assigned_single in Ho.
  destruct (contains o t) eqn:Hot; [discriminate |].
  pose proof (proj1 (assigned_nil _ _) Hp) as Hnone.
  apply contains_true in Hst. apply contains_false in Hot.
  assert (Hpiece : exists x, In x (splitShift o s) /\ contains x t = true).
  { unfold splitShift.
    destruct (Z.ltb_spec (start_at o) (end_at s)), (Z.ltb_spec (start_at s) (end_at o));
      cbn [negb andb];
      try (exists s; split; [left; reflexivity | apply contains_true; assumption]).
    destruct (Z_lt_ge_dec t (start_at o)) as [Hlt | Hge].
    - exists (mkShift (user s) (start_at s) (start_at o)). split.
      + apply in_or_app. left.
        destruct (Z.ltb_spec (start_at s) (start_at o)); [left; reflexivity | lia].
      + apply contains_true. cbn [start_at end_at]. lia.
    - exists (mkShift (user s) (end_at o) (end_at s)). split.
      + apply in_or_app. right.
        destruct (Z.ltb_spec (end_at o) (end_at s)); [left; reflexivity | lia].
      + apply contains_true. cbn [start_at end_at]. lia. }
  destruct Hpiece as (x & Hx & Hxt).
  rewrite (Hnone x) in Hxt; [discriminate |].
  apply in_flat_map. exists s. split; assumption.
Qed.

Lemma applyOverrides_covers_any (base overrides : list WorkingScheduleElement) (t : Z) :
  assigned base t <> [] -> assigned (applyOverrides base overrides) t <> [].
Proof.
  intros Hbase. unfold applyOverrides.
  apply (fold_left_invariant (fun w => assigned w t <> []) (fun _ => True)).
  - intros w o Hw _. apply applyOverride_covers_any, Hw.
  - apply Forall_forall. auto.
  - assumption.
Qed.

Lemma clipSchedule_empty_window (schedule : list WorkingScheduleElement) (from until : Z) :
  until <= from -> clipSchedule schedule from until = [].
Proof.
  intros Hw. unfold clipSchedule. induction schedule as [| s l IH]; [reflexivity |].
  simpl. rewrite IH, clipShift_empty by lia. reflexivity.
Qed.

(** The base schedule holds every instant of the window. *)
Lemma base_covers_window (config : ScheduleConfig) (from until : Z)
    (base : list WorkingScheduleElement) (t : Z) :
  0 < handover_interval_days config ->
  generateBaseSchedule config from until = Some (Returned base) ->
  from <= t < until ->
  assigned base t <> [].
Proof.
  intros Hdays Hbase Ht.
  pose proof (first_shift_start_le config from Hdays) as Hlo.
  pose proof (base_length config from until base Hdays Hbase) as Hlen.
  assert (Hne : base <> [])
    by (apply (base_nonempty config from until base Hdays Hbase); lia).
  destruct (base_covers config from until base Hdays Hbase t) as (sh & Hin & Hsh).
  - rewrite (base_range_end config from until base Hdays Hbase _ Hne). lia.
  - intros Hnil. rewrite (proj1 (assigned_nil _ _) Hnil sh Hin) in Hsh. discriminate.
Qed.

Lemma assigned_nonempty_list (l : list WorkingScheduleElement) (t : Z) :
  assigned l t <> [] -> l <> [].
Proof. intros H ->. apply H. reflexivity. Qed.

(** X9: on an empty or inverted window ([until <= from]), which [main]
    refuses but [makeSchedule] accepts, [makeSchedule] returns the empty
    schedule, whatever the overrides. *)
Theorem makeSchedule_empty_window
    (config : ScheduleConfig) (overrides : list WorkingScheduleElement)
    (from until : Z) :
  0 < handover_interval_days config ->
  until <= from ->
  makeSchedule config overrides from until = Some (Returned []).
Proof.
  intros Hdays Hw.
  destruct (makeSchedule_returns config overrides from until Hdays) as (base & _ & ->).
  rewrite clipSchedule_empty_window by assumption. reflexivity.
Qed.

Lemma makeSchedule_empty_window_witness :
  makeSchedule Scenarios.configAB [Scenarios.overrideC] Scenarios.until13 Scenarios.from13
  = Some (Returned []).
Proof.
  apply makeSchedule_empty_window; [reflexivity | discriminate].
Defined.

(** X10: what [main] does with its parsed arguments, when [--from] and
    [--until] are valid dates.  It throws the error of the window exactly
    when [from] is not before [until], whatever the configuration; with a
    good window it throws the error of the interval exactly when the
    interval is not positive; and otherwise, for a configuration and a
    window within [exact_range] and overrides of valid dates, it prints a
    schedule that is never empty, whatever the overrides and the user
    list. *)
Theorem main_outcomes
    (scheduleData : ScheduleConfig) (overridesData : list WorkingScheduleElement)
    (fromDate untilDate : Z) :
  valid_date fromDate ->
  valid_date untilDate ->
  (untilDate <= fromDate ->
   main scheduleData overridesData fromDate untilDate
   = Some (Thrown "'--from' must be earlier than '--until'")) /\
  (fromDate < untilDate -> handover_interval_days scheduleData <= 0 ->
   main scheduleData overridesData fromDate untilDate
   = Some (Thrown "handover_interval_days must be greater than 0")) /\
  (fromDate < untilDate -> 0 < handover_interval_days scheduleData ->
   exact_range scheduleData fromDate untilDate ->
   Forall valid_dates overridesData ->
   exists first rest,
     main scheduleData overridesData fromDate untilDate
     = Some (Returned (first :: rest))).
Proof.
  intros _ _. unfold main. split; [| split].
  - intros Hw. rewrite (proj2 (Z.leb_le untilDate fromDate) Hw). reflexivity.
  - intros Hw Hdays. rewrite (proj2 (Z.leb_gt untilDate fromDate) Hw).
    unfold makeSchedule, generateBaseSchedule, generateBaseSchedule_fuel.
    destruct (Z.leb_spec (handover_interval_days scheduleData * ms_per_day) 0)
      as [_ | Hpos]; [reflexivity | unfold ms_per_day in Hpos; lia].
  - intros Hw Hdays _ _. rewrite (proj2 (Z.leb_gt untilDate fromDate) Hw).
    destruct (makeSchedule_returns scheduleData overridesData fromDate untilDate Hdays)
      as (base & Hbase & ->).
    assert (Hcov : assigned (clipSchedule (applyOverrides base overridesData)
                               fromDate untilDate) fromDate <> []).
    { rewrite clipSchedule_assigned.
      rewrite (proj2 (Z.leb_le fromDate fromDate)), (proj2 (Z.ltb_lt fromDate untilDate))
        by lia.
      apply applyOverrides_covers_any.
      apply (base_covers_window scheduleData fromDate untilDate base); [assumption .. | lia]. }
    apply assigned_nonempty_list in Hcov.
    destruct (clipSchedule (applyOverrides base overridesData) fromDate untilDate)
      as [| c rest]; [congruence |].
    exists (formatShift c), (map formatShift rest). reflexivity.
Qed.

Lemma main_outcomes_witness :
  main configNoUsers [] 5 5 = Some (Thrown "'--from' must be earlier than '--until'") /\
  exists first rest,
    main Scenarios.configAB [mkShift (Some "X"%string) 60 40]
      Scenarios.from13 Scenarios.until13
    = Some (Returned (first :: rest)).
Proof.
  split.
  - refine (proj1 (main_outcomes configNoUsers [] 5 5 _ _) _).
    + split; discriminate.
    + split; discriminate.
    + discriminate.
  - refine (proj2 (proj2 (main_outcomes Scenarios.configAB
                            [mkShift (Some "X"%string) 60 40]
                            Scenarios.from13 Scenarios.until13 _ _)) _ _ _ _).
    + split; discriminate.
    + split; discriminate.
    + reflexivity.
    + reflexivity.
    + exact_range_holds.
    + repeat constructor; discriminate.
Defined.

Lemma Sorted_impl_in {A : Type} (P : A -> Prop) (R R' : A -> A -> Prop) (l : list A) :
  (forall x y, P x -> P y -> R x y -> R' x y) ->
  Forall P l -> Sorted R l -> Sorted R' l.
Proof.
  intros Himpl HP HR. induction HR as [| a l _ IH Ha]; constructor.
  - apply IH. apply Forall_inv_tail in HP. assumption.
  - destruct Ha as [| b l Hab]; constructor.
    apply Himpl; [| | assumption].
    + apply Forall_inv in HP. assumption.
    + apply Forall_inv_tail, Forall_inv in HP. assumption.
Qed.

Lemma separated_end_le_last (l : list WorkingScheduleElement) (d z : WorkingScheduleElement) :
  separated l -> Forall positive_duration l -> In z l -> end_at z <= end_at (last l d).
Proof.
  unfold separated. intros Hsep. revert z.
  induction Hsep as [| a l Hsep IH Ha]; intros z Hpos Hz; [destruct Hz |].
  apply Forall_cons_iff in Hpos as [Hpa Hpl].
  destruct l as [| b l].
  - destruct Hz as [<- | []]. simpl. lia.
  - change (last (a :: b :: l) d) with (last (b :: l) d).
    destruct Hz as [<- | Hz]; [| apply IH; assumption].
    apply Forall_inv in Ha. apply Forall_inv in Hpl as Hpb. unfold positive_duration in *.
    specialize (IH b Hpl (or_introl eq_refl)). lia.
Qed.

Lemma last_map_nonempty {A B : Type} (f : A -> B) (l : list A) (d : A) (d' : B) :
  l <> [] -> last (map f l) d' = f (last l d).
Proof.
  induction l as [| a l IH]; [congruence |]. intros _.
  destruct l as [| b l]; [reflexivity |].
  change (last (map f (a :: b :: l)) d') with (last (map f (b :: l)) d').
  rewrite IH by discriminate. reflexivity.
Qed.

(** The instants of the output of the pipeline cover the window without a
    gap. *)
Lemma clipped_schedule_covers_window (config : ScheduleConfig) (from until : Z)
    (base overrides : list WorkingScheduleElement) :
  0 < handover_interval_days config ->
  from < until ->
  generateBaseSchedule config from until = Some (Returned base) ->
  Forall valid_override overrides ->
  exists c rest,
    clipSchedule (applyOverrides base overrides) from until = c :: rest /\
    start_at c = from /\
    end_at (last (c :: rest) c) = until /\
    gapless (c :: rest).
Proof.
  intros Hdays Hwindow Hbase Hvalid.
  set (R := applyOverrides base overrides).
  assert (Hle : Forall (fun o => start_at o <= end_at o) overrides).
  { eapply Forall_impl; [| exact Hvalid]. exact valid_override_le. }
  assert (Hex : exclusive R).
  { apply applyOverrides_exclusive; [| assumption].
    apply separated_exclusive, (base_separated config from until base Hdays Hbase). }
  assert (Hsorted : sorted_by_start R)
    by (apply applyOverrides_sorted, (base_sorted config from until base Hdays Hbase)).
  set (C := clipSchedule R from until).
  pose proof (clipSchedule_in_window R from until) as Hin. fold C in Hin.
  assert (Hpos : Forall positive_duration C).
  { eapply Forall_impl; [| exact Hin]. intros c (_ & H & _). exact H. }
  assert (HexC : exclusive C).
  { intros t. subst C. rewrite clipSchedule_assigned.
    destruct ((from <=? t) && (t <? until)); [apply Hex | simpl; lia]. }
  assert (Hsep : separated C).
  { apply sorted_exclusive_positive_separated; [| assumption | assumption].
    apply clipSchedule_sorted, Hsorted. }
  assert (Hcov : forall t, from <= t < until -> assigned C t <> []).
  { intros t Ht. subst C. rewrite clipSchedule_assigned.
    rewrite (proj2 (Z.leb_le from t)), (proj2 (Z.ltb_lt t until)) by lia.
    apply applyOverrides_covers_any.
    apply (base_covers_window config from until base); assumption. }
  assert (Hwithin : gapless_within from until C).
  { apply (separated_covering_gapless from until C Hwindow Hsep Hpos from).
    - eapply Forall_impl; [| exact Hin]. intros c (H & _). exact H.
    - intros t Ht _. apply Hcov, Ht. }
  assert (Hgap : gapless C).
  { unfold gapless. unfold gapless_within in Hwithin.
    eapply (Sorted_impl_in
              (fun c => from <= start_at c /\ start_at c < end_at c /\ end_at c <= until));
      [| exact Hin | exact Hwithin].
    intros x y Hx Hy [Hxy Hcases]. cbv beta in *. lia. }
  destruct C as [| c rest] eqn:HC.
  { exfalso. apply (Hcov from); [lia | reflexivity]. }
  exists c, rest. split; [reflexivity |].
  apply Forall_cons_iff in Hin as Hin'. destruct Hin' as [(Hc1 & Hc2 & Hc3) Hrest].
  split; [| split; [| exact Hgap]].
  - assert (Hfrom : assigned (c :: rest) from <> []) by (apply Hcov; lia).
    destruct (contains c from) eqn:Hcf.
    + apply contains_true in Hcf. lia.
    + exfalso. apply Hfrom. apply assigned_nil. intros z [<- | Hz]; [assumption |].
      apply contains_false. unfold separated in Hsep.
      apply StronglySorted_inv in Hsep as [_ Hc]. rewrite Forall_forall in Hc.
      specialize (Hc z Hz). lia.
  - assert (Hlast_in : In (last (c :: rest) c) (c :: rest)).
    { destruct (exists_last (l := c :: rest) ltac:(discriminate)) as (l' & z & Hz).
      rewrite Hz, last_last. apply in_or_app. right. left. reflexivity. }
    rewrite Forall_forall in Hin.
    pose proof (Hin _ Hlast_in) as (_ & _ & Hupper).
    assert (Huntil : assigned (c :: rest) (until - 1) <> []) by (apply Hcov; lia).
    destruct (Z_le_gt_dec until (end_at (last (c :: rest) c))) as [Hge | Hlt]; [lia |].
    exfalso. apply Huntil. apply assigned_nil. intros z Hz.
    pose proof (separated_end_le_last (c :: rest) c z Hsep Hpos Hz).
    apply contains_false. lia.
Qed.

(** X7: the schedule that [makeSchedule] returns covers the window from end
    to end.  For a positive interval, a window [from < until] within
    [exact_range] and overrides of valid dates
    with [start < end] (overlapping or not, inside the window or not), the
    output is not empty, its first shift starts at the timestamp of [from],
    its last shift ends at the timestamp of [until], and every shift ends at
    the very timestamp at which the next one starts. *)
Theorem makeSchedule_covers_window
    (config : ScheduleConfig) (overrides : list WorkingScheduleElement)
    (from until : Z) :
  0 < handover_interval_days config ->
  exact_range config from until ->
  from < until ->
  Forall valid_dates overrides ->
  Forall valid_override overrides ->
  exists first rest,
    makeSchedule config overrides from until = Some (Returned (first :: rest)) /\
    out_start_at first = dateIso from /\
    last (map out_end_at (first :: rest)) EmptyString = dateIso until /\
    Sorted (fun x y => out_end_at x = out_start_at y) (first :: rest).
Proof.
  intros Hdays _ Hwindow _ Hvalid.
  destruct (makeSchedule_returns config overrides from until Hdays) as (base & Hbase & ->).
  destruct (clipped_schedule_covers_window config from until base overrides
              Hdays Hwindow Hbase Hvalid) as (c & rest & -> & Hstart & Hend & Hgap).
  exists (formatShift c), (map formatShift rest).
  split; [reflexivity |]. split; [| split].
  - cbn [formatShift out_start_at]. rewrite Hstart. reflexivity.
  - change (formatShift c :: map formatShift rest) with (map formatShift (c :: rest)).
    rewrite map_map. rewrite (last_map_nonempty _ (c :: rest) c) by discriminate.
    cbn [formatShift out_end_at]. rewrite Hend. reflexivity.
  - change (formatShift c :: map formatShift rest) with (map formatShift (c :: rest)).
    unfold gapless in Hgap. clear - Hgap.
    induction Hgap as [| a l _ IH Ha]; [constructor |].
    cbn [map]. constructor; [exact IH |].
    destruct Ha as [| b l Hab]; constructor.
    cbn [formatShift out_end_at out_start_at]. rewrite Hab. reflexivity.
Qed.

Lemma makeSchedule_covers_window_witness :
  exists first rest,
    makeSchedule Scenarios.configAB
      [mkShift (Some "Y"%string) (Scenarios.jan1 + 40) (Scenarios.jan1 + Scenarios.day);
       mkShift (Some "X"%string) (Scenarios.jan1 - 7) (Scenarios.jan1 + 60)]
      Scenarios.from13 Scenarios.until13
    = Some (Returned (first :: rest)) /\
    out_start_at first = dateIso Scenarios.from13.
Proof.
  destruct (makeSchedule_covers_window Scenarios.configAB
              [mkShift (Some "Y"%string) (Scenarios.jan1 + 40) (Scenarios.jan1 + Scenarios.day);
               mkShift (Some "X"%string) (Scenarios.jan1 - 7) (Scenarios.jan1 + 60)]
              Scenarios.from13 Scenarios.until13)
    as (first & rest & Hout & Hstart & _).
  - reflexivity.
  - exact_range_holds.
  - reflexivity.
  - repeat constructor; discriminate.
  - repeat constructor.
  - exists first, rest. split; [exact Hout | exact Hstart].
Defined.

(** The user of a base shift is the user of the rotation at each of its
    instants. *)
Lemma base_holder_rotation (config : ScheduleConfig) (from until : Z)
    (base : list WorkingScheduleElement) (sh : WorkingScheduleElement) (t : Z) :
  valid_config config ->
  generateBaseSchedule config from until = Some (Returned base) ->
  In sh base -> contains sh t = true ->
  user sh = rotation_user config t.
Proof.
  intros [Husers Hdays] Hbase Hin Hsh.
  pose proof (interval_ms_pos config Hdays) as Hpos.
  destruct (In_nth_error _ _ Hin) as [k Hk].
  destruct (base_nth config from until base Hdays Hbase k sh Hk) as (Hs & He & _).
  apply contains_true in Hsh. unfold rotation_user.
  rewrite (div_between (t - handover_start_at config)
             (intervals_passed_of config from + Z.of_nat k) (interval_ms_of config))
    by lia.
  apply (base_nth_user config from until base Hdays Hbase k sh Husers Hk).
Qed.

Lemma assigned_nonempty_holder (l : list WorkingScheduleElement) (t : Z) :
  assigned l t <> [] -> exists sh, In sh l /\ contains sh t = true.
Proof.
  induction l as [| x l IH]; intros H; [exfalso; apply H; reflexivity |].
  destruct (contains x t) eqn:Hx.
  - exists x. split; [left; reflexivity | assumption].
  - destruct IH as (sh & Hin & Hsh).
    + intros Hnil. apply H. rewrite assigned_cons, assigned_single, Hx, Hnil. reflexivity.
    + exists sh. split; [right; assumption | assumption].
Qed.

(** X8: who is on call at an instant does not depend on the window that is
    asked for.  For a valid configuration and a window within
    [exact_range], and overrides of valid dates whose start is not
    after their end, the schedule of [makeSchedule] assigns an instant [t]
    of the window to the user of the override applied last among those that
    hold [t], and to the user of the rotation at [t] when no override holds
    it; it assigns nothing outside the window. *)
Theorem makeSchedule_assignment
    (config : ScheduleConfig) (overrides : list WorkingScheduleElement)
    (from until : Z) :
  valid_config config ->
  exact_range config from until ->
  Forall valid_dates overrides ->
  Forall (fun o => start_at o <= end_at o) overrides ->
  exists instants,
    makeSchedule config overrides from until
    = Some (Returned (map formatShift instants)) /\
    (forall t, from <= t < until ->
       assigned instants t
       = match winner overrides t with
         | Some o => [user o]
         | None => [rotation_user config t]
         end) /\
    (forall t, ~ (from <= t < until) -> assigned instants t = []).
Proof.
  intros Hvalid _ _ Hle. pose proof Hvalid as [_ Hdays].
  destruct (makeSchedule_returns config overrides from until Hdays) as (base & Hbase & ->).
  exists (clipSchedule (applyOverrides base overrides) from until).
  split; [reflexivity |]. split.
  - intros t Ht. rewrite clipSchedule_assigned.
    rewrite (proj2 (Z.leb_le from t)), (proj2 (Z.ltb_lt t until)) by lia. cbn [andb].
    pose proof (separated_exclusive _ (base_separated config from until base Hdays Hbase))
      as Hex.
    assert (Hbase_t : assigned base t = [rotation_user config t]).
    { pose proof (base_covers_window config from until base t Hdays Hbase Ht) as Hcov.
      destruct (assigned_nonempty_holder base t Hcov) as (sh & Hin & Hsh).
      rewrite (assigned_holder base sh t Hex Hin Hsh).
      rewrite (base_holder_rotation config from until base sh t Hvalid Hbase Hin Hsh).
      reflexivity. }
    apply perm_short_eq.
    + destruct (winner overrides t); simpl; lia.
    + rewrite <- Hbase_t. unfold applyOverrides, winner.
      apply fold_assigned_last_holder, Forall_sortByStart, Hle.
  - intros t Ht. rewrite clipSchedule_assigned.
    destruct (Z.leb_spec from t), (Z.ltb_spec t until); cbn [andb]; try reflexivity; lia.
Qed.

Lemma makeSchedule_assignment_witness :
  exists instants,
    makeSchedule Scenarios.configAB [Scenarios.overrideC]
      (Scenarios.jan1 + Scenarios.day) (Scenarios.jan1 + 2 * Scenarios.day)
    = Some (Returned (map formatShift instants)) /\
    assigned instants (Scenarios.jan1 + Scenarios.day + Scenarios.day / 2 + 1)
    = [Some "B"%string].
Proof.
  destruct (makeSchedule_assignment Scenarios.configAB [Scenarios.overrideC]
              (Scenarios.jan1 + Scenarios.day) (Scenarios.jan1 + 2 * Scenarios.day))
    as (instants & Hout & Hin & _).
  - split; [discriminate | reflexivity].
  - exact_range_holds.
  - repeat constructor; discriminate.
  - repeat constructor. discriminate.
  - exists instants. split; [exact Hout |].
    apply (Hin (Scenarios.jan1 + Scenarios.day + Scenarios.day / 2 + 1)).
    split; [discriminate | reflexivity].
Defined.

(** ** More on the timestamps *)

(** X11: [dateIso] tells the seconds apart and nothing more: two instants of
    the same second have the same timestamp, and in the years 0000 to 9999
    two instants with the same timestamp are of the same second. *)
Theorem dateIso_same_iff_same_second (s t : Z) :
  (s / 1000 = t / 1000 -> dateIso s = dateIso t) /\
  (four_digit_year s -> four_digit_year t ->
   dateIso s = dateIso t -> s / 1000 = t / 1000).
Proof.
  split.
  - intros Heq. rewrite <- (dateIso_floorSecond s), <- (dateIso_floorSecond t).
    unfold floorSecond. rewrite Heq. reflexivity.
  - intros Hs Ht Heq.
    pose proof (dateIso_denotes s Hs) as Hds. pose proof (dateIso_denotes t Ht) as Hdt.
    unfold denotes in *. rewrite Heq in Hds. rewrite Hds in Hdt.
    injection Hdt as Hfloor. unfold floorSecond in Hfloor. lia.
Qed.

Lemma dateIso_same_iff_same_second_witness :
  dateIso 1735689600123 = dateIso 1735689600999 /\
  (dateIso 1735689600123 = dateIso 1735689601000 -> False).
Proof.
  split.
  - apply (proj1 (dateIso_same_iff_same_second 1735689600123 1735689600999)).
    reflexivity.
  - intros Heq.
    assert (H : 1735689600123 / 1000 = 1735689601000 / 1000).
    { apply (proj2 (dateIso_same_iff_same_second 1735689600123 1735689601000));
        [split; [discriminate | reflexivity] .. | exact Heq]. }
    discriminate H.
Defined.

Lemma length_append (s1 s2 : string) :
  String.length (s1 ++ s2) = (String.length s1 + String.length s2)%nat.
Proof. induction s1 as [| c s1 IH]; cbn [append String.length]; [reflexivity | lia]. Qed.

Lemma length_digits (w : nat) (n : Z) : String.length (Iso.digits w n) = w.
Proof. induction w as [| w IH]; cbn [Iso.digits String.length]; congruence. Qed.

(** Outside the days from 0000-01-01 to 9999-12-31 the year is not one of
    four digits. *)
Lemma civil_year_outside (day : Z) :
  (day < -719528 -> fst (fst (Iso.civilFromDays day)) < 0) /\
  (2932896 < day -> 9999 < fst (fst (Iso.civilFromDays day))).
Proof.
  unfold Iso.civilFromDays. cbv zeta. cbn [fst].
  set (z := day + 719468).
  set (era := z / 146097).
  set (doe := z - era * 146097).
  assert (Hdoe : 0 <= doe <= 146096).
  { subst doe era. Z.to_euclidean_division_equations; lia. }
  assert (Hlo : day < -719528 -> era <= -1 /\ (era = -1 -> doe <= 146036))
    by (subst doe era z; Z.to_euclidean_division_equations; lia).
  assert (Hhi : 2932896 < day -> 24 <= era /\ (era = 24 -> 146037 <= doe))
    by (subst doe era z; Z.to_euclidean_division_equations; lia).
  clearbody doe era. clear z.
  set (yoe := (doe - doe / 1460 + doe / 36524 - doe / 146096) / 365).
  set (doy := doe - (365 * yoe + yoe / 4 - yoe / 100)).
  set (mp := (5 * doy + 2) / 153).
  assert (Hy : 0 <= yoe <= 399 /\ 0 <= doy <= 365).
  { subst doy yoe. clear - Hdoe. Z.to_euclidean_division_equations; lia. }
  assert (Hlo' : doe <= 146036 -> yoe <= 398 \/ doy <= 305).
  { intros E. subst doy yoe. clear - Hdoe E. Z.to_euclidean_division_equations; lia. }
  assert (Hhi' : 146037 <= doe -> yoe = 399 /\ 306 <= doy).
  { intros E. subst doy yoe. clear - Hdoe E. Z.to_euclidean_division_equations; lia. }
  assert (Hmp : (306 <= doy -> 10 <= mp) /\ (doy <= 305 -> mp <= 9) /\ 0 <= mp <= 11).
  { subst mp. clearbody doy. clear - Hy. Z.to_euclidean_division_equations; lia. }
  clearbody mp doy yoe.
  split; intros Hday.
  - destruct (Hlo Hday) as [He He'].
    destruct (Z.ltb_spec mp 10).
    + destruct (Z.leb_spec (mp + 3) 2); lia.
    + destruct (Z.leb_spec (mp - 9) 2); lia.
  - destruct (Hhi Hday) as [He He'].
    destruct (Z.ltb_spec mp 10).
    + destruct (Z.leb_spec (mp + 3) 2); lia.
    + destruct (Z.leb_spec (mp - 9) 2); lia.
Qed.

(** X12: the width of a timestamp.  In the years 0000 to 9999 a timestamp of
    [dateIso] has 20 characters; before and after them it has 23, the year
    being written with a sign and six digits. *)
Theorem dateIso_length (t : Z) :
  (four_digit_year t -> String.length (dateIso t) = 20%nat) /\
  (~ four_digit_year t ->
   String.length (dateIso t) = 23%nat /\
   exists rest,
     dateIso t = String (if t <? 0 then "-"%char else "+"%char) rest).
Proof.
  split.
  - intros Ht.
    destruct (dateIso_form t Ht)
      as (y & m & d & hours & minutes & seconds & _ & _ & _ & _ & _ & _ & _ & ->).
    rewrite !length_append, !length_digits. reflexivity.
  - intros Ht. rewrite dateIso_dateTimeString. unfold Iso.dateTimeString.
    pose proof (civil_year_outside (t / 86400000)) as [Hlo Hhi].
    pose proof (IsoFacts.civil_year_range (t / 86400000)) as Hin.
    destruct (Iso.civilFromDays (t / 86400000)) as [[y m] d]. cbn [fst] in *.
    unfold four_digit_year in Ht.
    assert (Hy : (t < 0 /\ y < 0) \/ (0 <= t /\ 9999 < y)).
    { destruct (Z_lt_ge_dec t (-62167219200000)) as [Hl | Hg].
      - left. split; [lia |]. apply Hlo. Z.to_euclidean_division_equations; lia.
      - right. split; [lia |]. apply Hhi. Z.to_euclidean_division_equations; lia. }
    unfold Iso.yearString.
    destruct Hy as [[Ht' Hy] | [Ht' Hy]].
    + rewrite (proj2 (Z.leb_gt 0 y)) by lia. cbn [andb].
      rewrite (proj2 (Z.ltb_lt y 0)), (proj2 (Z.ltb_lt t 0)) by lia.
      split; [rewrite !length_append, !length_digits; reflexivity |].
      eexists. cbn [append]. reflexivity.
    + rewrite (proj2 (Z.leb_le 0 y)), (proj2 (Z.leb_gt y 9999)) by lia. cbn [andb].
      rewrite (proj2 (Z.ltb_ge y 0)), (proj2 (Z.ltb_ge t 0)) by lia.
      split; [rewrite !length_append, !length_digits; reflexivity |].
      eexists. cbn [append]. reflexivity.
Qed.

Lemma dateIso_length_witness :
  String.length (dateIso Scenarios.jan1) = 20%nat /\
  String.length (dateIso 253402300800000) = 23%nat.
Proof.
  split.
  - apply (proj1 (dateIso_length Scenarios.jan1)). split; [discriminate | reflexivity].
  - apply (proj2 (dateIso_length 253402300800000)). intros [_ H]. discriminate H.
Defined.

(** ** The copy of the truncator that leaves its loop early *)

(** X13: the two copies of [truncateAndFilterSchedule] in the repository,
    the one with two nested tests and the one with two [continue], return
    the same output on every schedule and window of valid dates.  (On a
    shift with an invalid date every comparison is false, so the nested
    tests drop the shift and the two [continue] are both passed.) *)
Theorem truncateAndFilterSchedule_copies_agree
    (schedule : list WorkingScheduleElement) (from until : Z) :
  Forall valid_dates schedule ->
  valid_date from ->
  valid_date until ->
  Part001.truncateAndFilterSchedule schedule from until
  = truncateAndFilterSchedule schedule from until.
Proof.
  intros _ _ _.
  unfold Part001.truncateAndFilterSchedule, truncateAndFilterSchedule.
  apply flat_map_ext. intros shift.
  unfold Part001.truncateShift, truncateShift. cbv zeta.
  destruct (Z.leb_spec until (start_at shift)), (Z.leb_spec (end_at shift) from),
    (Z.ltb_spec (start_at shift) until), (Z.ltb_spec from (end_at shift));
    cbn [orb andb]; try reflexivity; try lia.
  destruct (Z.leb_spec (Z.min (end_at shift) until) (Z.max (start_at shift) from)),
    (Z.ltb_spec (Z.max (start_at shift) from) (Z.min (end_at shift) until));
    try reflexivity; lia.
Qed.

Lemma truncateAndFilterSchedule_copies_agree_witness :
  Part001.truncateAndFilterSchedule
    [mkShift (Some "A"%string) Scenarios.jan1 (Scenarios.jan1 + Scenarios.day);
     mkShift (Some "B"%string) (Scenarios.jan1 + Scenarios.day)
       (Scenarios.jan1 + 2 * Scenarios.day)]
    (Scenarios.jan1 + 1) (Scenarios.jan1 + Scenarios.day)
  = truncateAndFilterSchedule
      [mkShift (Some "A"%string) Scenarios.jan1 (Scenarios.jan1 + Scenarios.day);
       mkShift (Some "B"%string) (Scenarios.jan1 + Scenarios.day)
         (Scenarios.jan1 + 2 * Scenarios.day)]
      (Scenarios.jan1 + 1) (Scenarios.jan1 + Scenarios.day).
Proof.
  apply truncateAndFilterSchedule_copies_agree.
  - repeat constructor; discriminate.
  - split; discriminate.
  - split; discriminate.
Defined.

(** ** The earlier generator *)

Section LegacyLoop.

Variable us : list string.
Variables n intervalMs endMs : Z.

(** Without a positive interval the loop, once entered, never ends. *)
Lemma makeBaseLoop_diverges (fuel : nat) :
  intervalMs <= 0 ->
  forall cur idx,
    cur < endMs ->
    Part000.makeBaseLoop fuel us n intervalMs endMs cur idx = None.
Proof.
  intros Hint. induction fuel as [| fuel IH]; intros cur idx Hcur;
    cbn [Part000.makeBaseLoop]; rewrite (proj2 (Z.ltb_lt cur endMs) Hcur).
  - reflexivity.
  - rewrite IH by lia. reflexivity.
Qed.

Hypothesis interval_pos : 0 < intervalMs.

Lemma makeBaseLoop_enough_fuel (fuel : nat) :
  forall cur idx,
    endMs - cur <= Z.of_nat fuel * intervalMs ->
    exists l, Part000.makeBaseLoop fuel us n intervalMs endMs cur idx = Some l.
Proof using interval_pos.
  induction fuel as [| fuel IH]; intros cur idx Hfuel; cbn [Part000.makeBaseLoop].
  - destruct (Z.ltb_spec cur endMs); [lia | eauto].
  - destruct (Z.ltb_spec cur endMs); [| eauto].
    destruct (IH (cur + intervalMs) (JsNum.rem (JsNum.add idx 1) n)) as [l ->];
      [lia | eauto].
Qed.

(** More fuel than the loop needs changes nothing. *)
Lemma makeBaseLoop_more_fuel (fuel : nat) :
  forall cur idx l,
    Part000.makeBaseLoop fuel us n intervalMs endMs cur idx = Some l ->
    forall fuel', (fuel <= fuel')%nat ->
      Part000.makeBaseLoop fuel' us n intervalMs endMs cur idx = Some l.
Proof.
  induction fuel as [| fuel IH]; intros cur idx l Hl fuel' Hle;
    cbn [Part000.makeBaseLoop] in Hl.
  - destruct (cur <? endMs) eqn:Hc; [discriminate |].
    destruct fuel'; cbn [Part000.makeBaseLoop]; rewrite Hc; assumption.
  - destruct (cur <? endMs) eqn:Hc.
    + destruct (Part000.makeBaseLoop fuel _ _ _ _ _ _) as [rest |] eqn:Hrest;
        [| discriminate].
      destruct fuel' as [| fuel']; [lia |].
      cbn [Part000.makeBaseLoop]. rewrite Hc, (IH _ _ _ Hrest fuel') by lia. assumption.
    + destruct fuel'; cbn [Part000.makeBaseLoop]; rewrite Hc; assumption.
Qed.

(** The [k]-th shift pushed by the loop. *)
Lemma makeBaseLoop_nth (fuel : nat) :
  0 < n ->
  forall cur i l,
    0 <= i < n ->
    Part000.makeBaseLoop fuel us n intervalMs endMs cur (Some i) = Some l ->
    forall k e, nth_error l k = Some e ->
      cur + Z.of_nat k * intervalMs < endMs /\
      e = mkOut (nth_error us (Z.to_nat ((i + Z.of_nat k) mod n)))
            (dateIso (cur + Z.of_nat k * intervalMs))
            (dateIso (Z.min (cur + (Z.of_nat k + 1) * intervalMs) endMs)).
Proof.
  intros Hn. induction fuel as [| fuel IH]; intros cur i l Hi Hl k e Hk;
    cbn [Part000.makeBaseLoop] in Hl.
  - destruct (cur <? endMs); [discriminate |].
    injection Hl as <-. destruct k; discriminate.
  - destruct (Z.ltb_spec cur endMs) as [Hc | Hc].
    + rewrite rem_succ_index in Hl by assumption.
      destruct (Part000.makeBaseLoop fuel _ _ _ _ _ _) as [rest |] eqn:Hrest;
        [| discriminate].
      injection Hl as <-. destruct k as [| k]; cbn [nth_error] in Hk.
      * injection Hk as <-. split; [lia |].
        rewrite Z.add_0_r, Z.mod_small by lia. unfold JsNum.index.
        destruct (Z.ltb_spec i 0); [lia |].
        change (Z.of_nat 0) with 0. rewrite Z.mul_0_l, Z.add_0_r, Z.add_0_l, Z.mul_1_l.
        reflexivity.
      * destruct (IH _ _ _ (Z.mod_pos_bound (i + 1) n Hn) Hrest _ _ Hk) as (Hlt & ->).
        split; [lia |].
        rewrite Zplus_mod_idemp_l.
        replace (i + 1 + Z.of_nat k) with (i + Z.of_nat (S k)) by lia.
        replace (cur + intervalMs + Z.of_nat k * intervalMs)
          with (cur + Z.of_nat (S k) * intervalMs) by lia.
        replace (cur + intervalMs + (Z.of_nat k + 1) * intervalMs)
          with (cur + (Z.of_nat (S k) + 1) * intervalMs) by lia.
        reflexivity.
    + injection Hl as <-. destruct k; discriminate.
Qed.

Lemma makeBaseLoop_exit (fuel : nat) :
  forall cur idx l,
    Part000.makeBaseLoop fuel us n intervalMs endMs cur idx = Some l ->
    endMs <= cur + Z.of_nat (List.length l) * intervalMs.
Proof.
  induction fuel as [| fuel IH]; intros cur idx l Hl; cbn [Part000.makeBaseLoop] in Hl.
  - destruct (Z.ltb_spec cur endMs); [discriminate |].
    injection Hl as <-. simpl. lia.
  - destruct (Z.ltb_spec cur endMs).
    + destruct (Part000.makeBaseLoop fuel _ _ _ _ _ _) as [rest |] eqn:Hrest;
        [| discriminate].
      injection Hl as <-. apply IH in Hrest. simpl List.length. lia.
    + injection Hl as <-. simpl. lia.
Qed.

End LegacyLoop.

(** X14: the earlier generator has no guard on the interval: with an
    interval of zero days and a window [from < until] of valid dates, its
    loop is never left: every iteration pushes a shift from [from] to
    [from] and leaves the start where it was, so the loop has not ended
    after any number of iterations.  (With a negative interval the start
    moves back at every iteration and the loop is left in the end, by the
    [RangeError] of [toISOString] on the first date that is out of range;
    that case is not stated here.) *)
Theorem makeBaseSchedule_never_returns
    (config : ScheduleConfig) (from until : Z) (fuel : nat) :
  handover_interval_days config = 0 ->
  valid_date from ->
  valid_date until ->
  from < until ->
  Part000.makeBaseSchedule fuel config from until = None.
Proof.
  intros Hdays _ _ Hwindow. unfold Part000.makeBaseSchedule.
  apply makeBaseLoop_diverges; [lia | assumption].
Qed.

Lemma makeBaseSchedule_never_returns_witness :
  Part000.makeBaseSchedule 1000 (mkConfig ["A"%string] 0 0) 0 1 = None.
Proof.
  apply makeBaseSchedule_never_returns;
    [reflexivity | split; discriminate | split; discriminate | reflexivity].
Defined.

(** X15: the earlier generator, for a positive interval, a non-empty user
    list and a window [from < until], returns (at any number of iterations
    that is enough) a schedule that covers the window exactly: its [k]-th
    shift starts at the timestamp of [from + k * interval], ends at the
    timestamp of the next start or, for the last one, of [until], and goes
    to [users[k mod N]]; so the first shift starts at [from] with the first
    user, whatever the anchor of the rotation. *)
Theorem makeBaseSchedule_covers_window_exactly
    (config : ScheduleConfig) (from until : Z) :
  users config <> [] ->
  0 < handover_interval_days config ->
  from < until ->
  exists first rest,
    (forall fuel, (List.length (first :: rest) <= fuel)%nat ->
       Part000.makeBaseSchedule fuel config from until = Some (first :: rest)) /\
    first = mkOut (nth_error (users config) 0) (dateIso from)
              (dateIso (Z.min (from + interval_ms_of config) until)) /\
    (forall k e, nth_error (first :: rest) k = Some e ->
       from + Z.of_nat k * interval_ms_of config < until /\
       out_user e = nth_error (users config) (k mod List.length (users config)) /\
       out_start_at e = dateIso (from + Z.of_nat k * interval_ms_of config) /\
       out_end_at e
       = dateIso (Z.min (from + (Z.of_nat k + 1) * interval_ms_of config) until)) /\
    last (map out_end_at (first :: rest)) EmptyString = dateIso until /\
    Sorted (fun x y => out_end_at x = out_start_at y) (first :: rest).
Proof.
  intros Husers Hdays Hwindow.
  pose proof (interval_ms_pos config Hdays) as Hpos.
  assert (HI : handover_interval_days config * 24 * 60 * 60 * 1000 = interval_ms_of config)
    by (unfold interval_ms_of, ms_per_day; lia).
  set (N := Z.of_nat (List.length (users config))).
  assert (HN : 0 < N).
  { subst N. destruct (users config); [congruence | simpl; lia]. }
  destruct (makeBaseLoop_enough_fuel (users config) N (interval_ms_of config) until Hpos
              (Z.to_nat (until - from)) from (Some 0)) as [l Hl].
  { rewrite Z2Nat.id by lia. nia. }
  pose proof (makeBaseLoop_nth (users config) N (interval_ms_of config) until _ HN
                from 0 l ltac:(lia) Hl) as Hnth.
  pose proof (makeBaseLoop_exit _ _ _ _ _ _ _ _ Hl) as Hexit.
  assert (Hfuel : forall fuel, (List.length l <= fuel)%nat ->
            Part000.makeBaseSchedule fuel config from until = Some l).
  { intros fuel Hle. unfold Part000.makeBaseSchedule. rewrite HI. fold N.
    destruct (makeBaseLoop_enough_fuel (users config) N (interval_ms_of config) until Hpos
                (List.length l) from (Some 0)) as [l' Hl']; [lia |].
    assert (l' = l).
    { pose proof (makeBaseLoop_more_fuel _ _ _ _ _ _ _ _ Hl'
                    (Nat.max (List.length l) (Z.to_nat (until - from))) ltac:(lia)) as H1.
      pose proof (makeBaseLoop_more_fuel _ _ _ _ _ _ _ _ Hl
                    (Nat.max (List.length l) (Z.to_nat (until - from))) ltac:(lia)) as H2.
      congruence. }
    subst l'. apply (makeBaseLoop_more_fuel _ _ _ _ _ _ _ _ Hl'). assumption. }
  assert (Hk : forall k e, nth_error l k = Some e ->
            from + Z.of_nat k * interval_ms_of config < until /\
            out_user e = nth_error (users config) (k mod List.length (users config)) /\
            out_start_at e = dateIso (from + Z.of_nat k * interval_ms_of config) /\
            out_end_at e
            = dateIso (Z.min (from + (Z.of_nat k + 1) * interval_ms_of config) until)).
  { intros k e He. destruct (Hnth k e He) as (Hlt & ->).
    split; [assumption |]. cbn [out_user out_start_at out_end_at].
    split; [| split; reflexivity].
    f_equal. rewrite Z.add_0_l. subst N.
    rewrite <- Nat2Z.inj_mod, Nat2Z.id. reflexivity. }
  destruct l as [| first rest].
  { simpl in Hexit. lia. }
  exists first, rest. split; [exact Hfuel |]. split; [| split; [exact Hk | split]].
  - destruct (Hnth 0%nat first eq_refl) as (_ & ->).
    rewrite Z.add_0_l, Z.mod_0_l by lia.
    change (Z.of_nat 0) with 0. rewrite Z.mul_0_l, Z.add_0_r, Z.add_0_l, Z.mul_1_l.
    reflexivity.
  - set (l := first :: rest) in *.
    destruct (exists_last (l := l) ltac:(discriminate)) as (l' & e & Hsplit).
    rewrite Hsplit, map_app. cbn [map]. rewrite last_last.
    assert (He : nth_error l (List.length l') = Some e).
    { rewrite Hsplit, nth_error_app2, Nat.sub_diag by lia. reflexivity. }
    destruct (Hk _ _ He) as (_ & _ & _ & ->).
    f_equal. rewrite Hsplit, length_app in Hexit. simpl List.length in Hexit. lia.
  - apply Sorted_of_nth. intros k x y Hx Hy.
    destruct (Hk _ _ Hx) as (_ & _ & _ & ->).
    destruct (Hk _ _ Hy) as (Hlt & _ & -> & _).
    f_equal. lia.
Qed.

Lemma makeBaseSchedule_covers_window_exactly_witness :
  exists first rest,
    (forall fuel, (List.length (first :: rest) <= fuel)%nat ->
       Part000.makeBaseSchedule fuel Scenarios.configAB
         (Scenarios.jan1 + Scenarios.day / 2) (Scenarios.jan1 + 2 * Scenarios.day)
       = Some (first :: rest)) /\
    first = mkOut (Some "A"%string) "2025-01-01T12:00:00Z" "2025-01-02T12:00:00Z".
Proof.
  destruct (makeBaseSchedule_covers_window_exactly Scenarios.configAB
              (Scenarios.jan1 + Scenarios.day / 2) (Scenarios.jan1 + 2 * Scenarios.day))
    as (first & rest & Hfuel & Hfirst & _).
  - discriminate.
  - reflexivity.
  - reflexivity.
  - exists first, rest. split; [exact Hfuel | rewrite Hfirst; reflexivity].
Defined.
